(** * Safari storage scanner: a shallow embedding of [safari-scanner/scanner.js]

    The development follows the source file top to bottom:
    - the parts of Node's [path] and [fs] modules the scanner calls, as an
      explicit file-system oracle;
    - a small monad for the effects of the JavaScript code (mutable closure
      variables, [console.error], the progress callback, [try]/[catch]);
    - [processDirectory] / [getDirectorySize], [formatBytes] and
      [scanSafariStorage];
    - directory trees as the description of what a file system presents
      below a path, and the theorems relating the code to them.

    Numbers.  JavaScript numbers are IEEE doubles.  The sizes and counts of
    the scanner are non-negative integers: they are modelled by [N], and an
    addition of the source is the addition of doubles, [number_add], which
    rounds its result to 53 significant bits.  Up to 2^53 it is the addition
    of [N].

    Callbacks.  A callback of the source is a function of the caller: it may
    throw, and the progress sink of a scan may write to the object it is
    handed.  Both are part of the model ([Callback], [Sink]).

    The model leaves out the exhaustion of memory: an array holds fewer
    than 2^32 elements, and a process gives up long before. *)

From Stdlib Require Import List String Ascii NArith Arith Bool Lia Sorted.
From Stdlib Require Import DecimalString.
Import ListNotations.

Notation "s1 +++ s2" := (String.append s1 s2)
  (at level 60, right associativity) : string_scope.

Local Open Scope string_scope.
Local Open Scope N_scope.
Local Open Scope list_scope.

(* ------------------------------------------------------------------ *)
(** * Numbers *)

(** From 2^53 on not every integer is a double. *)
Definition two53 : N := 2 ^ 53.

(** The double nearest to a natural number: 53 significant bits are kept,
    the rest is rounded to nearest, to the even significand on a tie.  The
    numbers of the scanner stay far below the largest double, so no
    infinity appears. *)
Definition to_double (n : N) : N :=
  let e := N.log2 n in
  if e <? 53 then n
  else
    let ulp := 2 ^ (e - 52) in
    let q := n / ulp in
    let r := n mod ulp in
    if 2 * r <? ulp then q * ulp
    else if ulp <? 2 * r then (q + 1) * ulp
    else if N.even q then q * ulp else (q + 1) * ulp.

(** [a + b] on two doubles that hold natural numbers: the exact sum,
    rounded. *)
Definition number_add (a b : N) : N := to_double (a + b).

(** [xs] added from the left, starting from 0, as a loop does it. *)
Definition number_sum (xs : list N) : N := fold_left number_add xs 0.

(** How [to_double] rounds a number of more than 53 bits: [q] is the
    significand, [ulp] the weight of its last bit and [r] what is cut
    off. *)
Inductive rounding (n : N) : Prop :=
| rounds (ulp q r : N)
    (Hulp : ulp = 2 ^ (N.log2 n - 52))
    (Hj : 1 <= N.log2 n - 52)
    (Hn : n = q * ulp + r)
    (Hr : r < ulp)
    (Hq : 2 ^ 52 <= q < 2 ^ 53)
    (Hcase : (2 * r < ulp /\ to_double n = q * ulp) \/
             (ulp < 2 * r /\ to_double n = (q + 1) * ulp) \/
             (2 * r = ulp /\ N.even q = true /\ to_double n = q * ulp) \/
             (2 * r = ulp /\ N.even q = false /\ to_double n = (q + 1) * ulp)).

(** Sums inside the exact range are written with [+]; [exact] is the lemma
    that says so. *)
Ltac exact_adds exact :=
  repeat match goal with
         | |- context [ number_add ?a ?b ] =>
             rewrite (exact a b) by lia
         | H : context [ number_add ?a ?b ] |- _ =>
             rewrite (exact a b) in H by lia
         end.

(* ------------------------------------------------------------------ *)
(** * Node's [path] module *)

(** Only [path.join] on a directory and one of its entry names, and
    [path.basename], are used.  [join] is modelled without the
    normalisation of dot segments and doubled separators that Node applies:
    entry names returned by [readdirSync] never need it, and the home
    directory is taken as a normalised path without a separator at its end.
    [basename] is applied to joined paths only, which do not end in a
    separator. *)
Module path.

Definition join (dir file : string) : string := dir +++ "/" +++ file.

Fixpoint basename_from (acc p : string) : string :=
  match p with
  | EmptyString => acc
  | String c rest =>
      if Ascii.eqb c "/" then basename_from EmptyString rest
      else basename_from (acc +++ String c EmptyString) rest
  end.

(** The text after the last separator. *)
Definition basename (p : string) : string := basename_from EmptyString p.

End path.

(* ------------------------------------------------------------------ *)
(** * Node's [fs] module *)

(** The file system is a snapshot: each call is a function of the path.
    [existsSync] never throws; [statSync] and [readdirSync] either return or
    throw a system error.  [statSync] is stat(2): it resolves symbolic links,
    so its answer describes the link's target.  [lstatSync] is lstat(2); the
    scanner never calls it, it is what tells a symbolic link from its
    target. *)
Module fs.

Inductive errno : Type := ENOENT | EACCES | EIO | ELOOP | ENOTDIR.

Definition errno_eqb (a b : errno) : bool :=
  match a, b with
  | ENOENT, ENOENT | EACCES, EACCES | EIO, EIO
  | ELOOP, ELOOP | ENOTDIR, ENOTDIR => true
  | _, _ => false
  end.

Inductive result (A : Type) : Type :=
| Ok (a : A)
| Err (e : errno).
Arguments Ok {A} a.
Arguments Err {A} e.

Inductive filetype : Type :=
| S_IFREG | S_IFDIR | S_IFLNK | S_IFSOCK | S_IFCHR | S_IFBLK | S_IFIFO.

(** [st_size] is the size stat(2) reports, a 64-bit integer; the property
    [size] of the object [statSync] returns is the double nearest to it. *)
Record Stats : Type := { mode : filetype; st_size : N }.

Definition size (s : Stats) : N := to_double (st_size s).

Definition isFile (s : Stats) : bool :=
  match mode s with S_IFREG => true | _ => false end.

Definition isDirectory (s : Stats) : bool :=
  match mode s with S_IFDIR => true | _ => false end.

Definition isSymbolicLink (s : Stats) : bool :=
  match mode s with S_IFLNK => true | _ => false end.

Record Disk : Type := {
  existsSync : string -> bool;
  statSync : string -> result Stats;
  lstatSync : string -> result Stats;
  readdirSync : string -> result (list string)
}.

End fs.

(* ------------------------------------------------------------------ *)
(** * Records of the scanner *)

(** [{ size, items }]: the object of the early return in [processDirectory]
    and [results.total]. *)
Module Totals.
Record t : Type := { size : N; items : N }.
End Totals.

(** An element of [processedItems]. *)
Module FileRecord.
Record t : Type := { path : string; size : N; name : string }.
End FileRecord.

(** The argument [getDirectorySize] passes to its callback. *)
Module Progress.
Record t : Type := {
  currentFile : string;
  totalSize : N;
  itemCount : N;
  inProgress : bool
}.
End Progress.

(** The object [getDirectorySize] returns. *)
Module DirectorySize.
Record t : Type := { size : N; items : N; files : list FileRecord.t }.
End DirectorySize.

(* ------------------------------------------------------------------ *)
(** * Effects *)

(** What a [throw] carries: the system error of a failed [fs] call, or the
    value a callback throws. *)
Inductive exception : Type :=
| SystemError (e : fs.errno)
| Raised (value : string).

(** How a JavaScript call ends.  [OutOfFuel] is the model's own outcome for
    a recursion deeper than the fuel given; no [catch] sees it. *)
Inductive completion (A : Type) : Type :=
| Normal (a : A)
| Throw (e : exception)
| OutOfFuel.
Arguments Normal {A} a.
Arguments Throw {A} e.
Arguments OutOfFuel {A}.

(** What exists outside a call of [getDirectorySize]: the lines written by
    [console.error], and the state [user] the progress callback acts on. *)
Record World (U : Type) : Type := {
  stderr : list string;
  user : U
}.
Arguments stderr {U} w.
Arguments user {U} w.
Arguments Build_World {U} stderr user.

(** The variables [processDirectory] closes over: the three [let]s of
    [getDirectorySize], and the world. *)
Record Frame (U : Type) : Type := {
  totalSize : N;
  itemCount : N;
  processedItems : list FileRecord.t;
  world : World U
}.
Arguments totalSize {U} f.
Arguments itemCount {U} f.
Arguments processedItems {U} f.
Arguments world {U} f.
Arguments Build_Frame {U} totalSize itemCount processedItems world.

Definition JS (St A : Type) : Type := St -> completion A * St.

Definition ret {St A} (a : A) : JS St A := fun s => (Normal a, s).

Definition bind {St A B} (m : JS St A) (k : A -> JS St B) : JS St B :=
  fun s =>
    match m s with
    | (Normal a, s') => k a s'
    | (Throw e, s') => (Throw e, s')
    | (OutOfFuel, s') => (OutOfFuel, s')
    end.

Notation "x <- m ;; k" := (bind m (fun x => k))
  (at level 61, m at next level, right associativity).
Notation "m ;;; k" := (bind m (fun _ => k))
  (at level 61, right associativity).

Definition gets {St A} (f : St -> A) : JS St A := fun s => (Normal (f s), s).

Definition modify {St} (f : St -> St) : JS St unit := fun s => (Normal tt, f s).

Definition out_of_fuel {St A} : JS St A := fun s => (OutOfFuel, s).

(** A call into [fs] that may throw. *)
Definition lift {St A} (r : fs.result A) : JS St A :=
  fun s =>
    match r with
    | fs.Ok a => (Normal a, s)
    | fs.Err e => (Throw (SystemError e), s)
    end.

(** [try { body } catch (err) { handler }]: the handler runs in the state
    the body left behind. *)
Definition try_catch {St A} (body : JS St A) (handler : exception -> JS St A)
  : JS St A :=
  fun s =>
    match body s with
    | (Throw e, s') => handler e s'
    | r => r
    end.

(** [xs.forEach(f)]: an exception thrown by [f] ends the iteration. *)
Fixpoint forEach {St A B} (xs : list A) (f : A -> JS St B) : JS St unit :=
  match xs with
  | [] => ret tt
  | x :: xs' => f x ;;; forEach xs' f
  end.

(** Assignments to the closure variables and to the world. *)
Definition set_totalSize {U} (v : N) (fr : Frame U) : Frame U :=
  Build_Frame v (itemCount fr) (processedItems fr) (world fr).

Definition set_itemCount {U} (v : N) (fr : Frame U) : Frame U :=
  Build_Frame (totalSize fr) v (processedItems fr) (world fr).

Definition push {U} (r : FileRecord.t) (fr : Frame U) : Frame U :=
  Build_Frame (totalSize fr) (itemCount fr) (processedItems fr ++ [r]) (world fr).

(** A callback of [getDirectorySize]: called with the progress object, it
    acts on the user state and either returns or throws. *)
Definition Callback (U : Type) : Type :=
  Progress.t -> U -> option exception * U.

(** A callback that always returns. *)
Definition returning {U} (f : Progress.t -> U -> U) : Callback U :=
  fun arg u => (None, f arg u).

(** [callback] always returns, and acts on the user state as [f] does. *)
Definition acts_as {U} (callback : option (Callback U))
    (f : option (Progress.t -> U -> U)) : Prop :=
  match callback, f with
  | Some cb, Some g => forall arg u, cb arg u = (None, g arg u)
  | None, None => True
  | _, _ => False
  end.

(** Two calls end alike, and two frames hold the same closure variables. *)
Definition same_completion {A} (c1 c2 : completion A) : Prop :=
  match c1, c2 with
  | Normal a, Normal b => a = b
  | Throw _, Throw _ => True
  | OutOfFuel, OutOfFuel => True
  | _, _ => False
  end.

Definition same_counters {U1 U2} (f1 : Frame U1) (f2 : Frame U2) : Prop :=
  totalSize f1 = totalSize f2 /\ itemCount f1 = itemCount f2 /\
  processedItems f1 = processedItems f2.

Definition set_user {U} (u : U) (fr : Frame U) : Frame U :=
  Build_Frame (totalSize fr) (itemCount fr) (processedItems fr)
    (Build_World (stderr (world fr)) u).

(** The call [callback(arg)]. *)
Definition call {U} (cb : Callback U) (arg : Progress.t) : JS (Frame U) unit :=
  fun fr =>
    let r := cb arg (user (world fr)) in
    match fst r with
    | None => (Normal tt, set_user (snd r) fr)
    | Some e => (Throw e, set_user (snd r) fr)
    end.

Definition console_error {U} (line : string) (fr : Frame U) : Frame U :=
  Build_Frame (totalSize fr) (itemCount fr) (processedItems fr)
    (Build_World (stderr (world fr) ++ [line]) (user (world fr))).

Definition in_world {V} (f : V -> V) (w : World V) : World V :=
  Build_World (stderr w) (f (user w)).

(* ------------------------------------------------------------------ *)
(** * [getDirectorySize] *)

Section GetDirectorySize.

Context {U : Type}.
Variable disk : fs.Disk.
(** The optional [callback] argument. *)
Variable callback : option (Callback U).

(** The inner function.  [fuel] bounds the depth of the recursion.  The
    callback is called inside the [try] block: what it throws is caught
    like a failed access.  [itemCount] counts the records pushed on
    [processedItems], whose length an array keeps below 2^32, where [+ 1] is
    exact. *)
Fixpoint processDirectory (fuel : nat) (currentPath : string)
  : JS (Frame U) (option Totals.t) :=
  match fuel with
  | O => out_of_fuel
  | S fuel' =>
      try_catch
        (if negb (fs.existsSync disk currentPath) then
           ret (Some {| Totals.size := 0; Totals.items := 0 |})
         else
           stats <- lift (fs.statSync disk currentPath) ;;
           if fs.isFile stats then
             t <- gets totalSize ;;
             modify (set_totalSize (number_add t (fs.size stats))) ;;;
             c <- gets itemCount ;;
             modify (set_itemCount (c + 1)) ;;;
             modify (push {| FileRecord.path := currentPath;
                             FileRecord.size := fs.size stats;
                             FileRecord.name := path.basename currentPath |}) ;;;
             match callback with
             | Some cb =>
                 t' <- gets totalSize ;;
                 c' <- gets itemCount ;;
                 call cb {| Progress.currentFile := path.basename currentPath;
                            Progress.totalSize := t';
                            Progress.itemCount := c';
                            Progress.inProgress := true |}
             | None => ret tt
             end ;;;
             ret None
           else if fs.isDirectory stats then
             files <- lift (fs.readdirSync disk currentPath) ;;
             forEach files
               (fun file => processDirectory fuel' (path.join currentPath file)) ;;;
             ret None
           else ret None)
        (fun _ =>
           modify (console_error ("Cannot access: " +++ currentPath)) ;;;
           ret None)
  end.

Definition getDirectorySize (fuel : nat) (dirPath : string)
  : JS (World U) DirectorySize.t :=
  fun w =>
    match processDirectory fuel dirPath (Build_Frame 0 0 [] w) with
    | (Normal _, fr) =>
        (Normal {| DirectorySize.size := totalSize fr;
                   DirectorySize.items := itemCount fr;
                   DirectorySize.files := processedItems fr |},
         world fr)
    | (Throw e, fr) => (Throw e, world fr)
    | (OutOfFuel, fr) => (OutOfFuel, world fr)
    end.

End GetDirectorySize.

(* ------------------------------------------------------------------ *)
(** * [formatBytes] *)

(** Decimal digits of a natural number, as [String(n)] prints an integer. *)
Definition decimal (n : N) : string := NilEmpty.string_of_uint (N.to_uint n).

Definition k : N := 1024.

Definition sizes : list string := ["B"; "KB"; "MB"; "GB"].

(** [Math.floor(Math.log(bytes) / Math.log(k))] for [bytes > 0].  The
    quotient of the two double logarithms is taken as the exact logarithm to
    base 1024; its floor is the binary logarithm divided by ten.  Below
    1024^4 the doubles give the same floor. *)
Definition floor_log_k (bytes : N) : N := N.log2 bytes / N.log2 k.

(** [(num / den).toFixed(2)] as a count of hundredths: the multiple of 0.01
    nearest to the quotient, the larger one on a tie. *)
Definition hundredths (num den : N) : N := (200 * num + den) / (2 * den).

(** The string [toFixed(2)] returns for [n] hundredths: always two
    fraction digits. *)
Definition toFixed2_string (n : N) : string :=
  decimal (n / 100) +++ "." +++ decimal (n mod 100 / 10) +++ decimal (n mod 10).

(** [parseFloat(s) + ' ...'] for [s] the [toFixed(2)] string of [n]
    hundredths: [parseFloat] reads the number n/100 and the string
    concatenation prints it in shortest form, without trailing fraction
    zeros and without a point when the number is whole. *)
Definition number_toString (n : N) : string :=
  let whole := decimal (n / 100) in
  let d1 := n mod 100 / 10 in
  let d2 := n mod 10 in
  if (d2 =? 0)%N then
    if (d1 =? 0)%N then whole else whole +++ "." +++ decimal d1
  else whole +++ "." +++ decimal d1 +++ decimal d2.

(** [sizes[i]] inside a string concatenation: a missing element prints as
    [undefined]. *)
Definition sizes_at (i : N) : string :=
  match nth_error sizes (N.to_nat i) with
  | Some unit_name => unit_name
  | None => "undefined"
  end.

Definition formatBytes (bytes : N) : string :=
  if (bytes =? 0)%N then "0 B"
  else
    let i := floor_log_k bytes in
    number_toString (hundredths bytes (k ^ i)) +++ " " +++ sizes_at i.

(** The formatting the spec describes: the scaled value with two decimal
    digits, whatever they are. *)
Definition spec_formatBytes (bytes : N) : string :=
  if (bytes =? 0)%N then "0 B"
  else
    let i := floor_log_k bytes in
    toFixed2_string (hundredths bytes (k ^ i)) +++ " " +++ sizes_at i.

(** [u] is a suffix of [s]. *)
Fixpoint ends_with (s u : string) : bool :=
  String.eqb s u ||
  match s with
  | EmptyString => false
  | String _ s' => ends_with s' u
  end.

Fixpoint last_char (s : string) : option ascii :=
  match s with
  | EmptyString => None
  | String c s' =>
      match s' with
      | EmptyString => Some c
      | String _ _ => last_char s'
      end
  end.

(* ------------------------------------------------------------------ *)
(** * [scanSafariStorage] *)

(** The keys of [results] that [categories] lists. *)
Inductive Category : Type :=
| cookies | cache | history | localStorage | databases.

Definition categories : list Category :=
  [cookies; cache; history; localStorage; databases].

(** The key as the string the events carry in [scanning]. *)
Definition category_key (c : Category) : string :=
  match c with
  | cookies => "cookies"
  | cache => "cache"
  | history => "history"
  | localStorage => "localStorage"
  | databases => "databases"
  end.

(** [SAFARI_PATHS], with [os.homedir()] as [home].  The table has a sixth
    entry, [webData], which [categories] does not list. *)
Definition SAFARI_PATHS (home : string) (c : Category) : string :=
  match c with
  | cookies => path.join home "Library/Cookies"
  | cache => path.join home "Library/Caches/com.apple.Safari"
  | history => path.join home "Library/Safari"
  | localStorage => path.join home "Library/Safari/LocalStorage"
  | databases => path.join home "Library/Safari/Databases"
  end.

Definition SAFARI_PATHS_webData (home : string) : string :=
  path.join home "Library/Safari/WebsiteData".

Module CategoryResult.
Record t : Type := { size : N; items : N; category : string }.
End CategoryResult.

Module Results.
Record t : Type := {
  cookies : CategoryResult.t;
  cache : CategoryResult.t;
  history : CategoryResult.t;
  localStorage : CategoryResult.t;
  databases : CategoryResult.t;
  total : Totals.t
}.
End Results.

(** [results[category]] *)
Definition results_get (r : Results.t) (c : Category) : CategoryResult.t :=
  match c with
  | cookies => Results.cookies r
  | cache => Results.cache r
  | history => Results.history r
  | localStorage => Results.localStorage r
  | databases => Results.databases r
  end.

(** [results[category] = v] *)
Definition results_set (c : Category) (v : CategoryResult.t) (r : Results.t)
  : Results.t :=
  match c with
  | cookies =>
      Results.Build_t v (Results.cache r) (Results.history r)
        (Results.localStorage r) (Results.databases r) (Results.total r)
  | cache =>
      Results.Build_t (Results.cookies r) v (Results.history r)
        (Results.localStorage r) (Results.databases r) (Results.total r)
  | history =>
      Results.Build_t (Results.cookies r) (Results.cache r) v
        (Results.localStorage r) (Results.databases r) (Results.total r)
  | localStorage =>
      Results.Build_t (Results.cookies r) (Results.cache r) (Results.history r)
        v (Results.databases r) (Results.total r)
  | databases =>
      Results.Build_t (Results.cookies r) (Results.cache r) (Results.history r)
        (Results.localStorage r) v (Results.total r)
  end.

(** [results.total = v] *)
Definition results_set_total (v : Totals.t) (r : Results.t) : Results.t :=
  Results.Build_t (Results.cookies r) (Results.cache r) (Results.history r)
    (Results.localStorage r) (Results.databases r) v.

(** The object literal [results] starts from. *)
Definition initial_results : Results.t :=
  {| Results.cookies :=
       {| CategoryResult.size := 0; CategoryResult.items := 0;
          CategoryResult.category := "Browsing cookies" |};
     Results.cache :=
       {| CategoryResult.size := 0; CategoryResult.items := 0;
          CategoryResult.category := "Browser cache" |};
     Results.history :=
       {| CategoryResult.size := 0; CategoryResult.items := 0;
          CategoryResult.category := "Website history" |};
     Results.localStorage :=
       {| CategoryResult.size := 0; CategoryResult.items := 0;
          CategoryResult.category := "Local storage" |};
     Results.databases :=
       {| CategoryResult.size := 0; CategoryResult.items := 0;
          CategoryResult.category := "Web databases" |};
     Results.total := {| Totals.size := 0; Totals.items := 0 |} |}.

(** The two shapes of object handed to [progressCallback].

    In [Scanning], [current] is the object [results.total] itself, not a
    copy: the field holds what the object shows when the call starts, and
    the sink can write to the object ([SinkHeap]).  [Found] carries a fresh
    [total] object. *)
Inductive ProgressEvent : Type :=
| Scanning (scanning : Category) (message : string) (current : Totals.t)
| Found (scanning : Category) (message : string)
    (currentSize currentItems : N) (total : Totals.t).

Definition scanning_of (e : ProgressEvent) : Category :=
  match e with
  | Scanning c _ _ => c
  | Found c _ _ _ _ => c
  end.

(** The event as read once [results.total] holds [final]. *)
Definition read_after (final : Totals.t) (e : ProgressEvent) : ProgressEvent :=
  match e with
  | Scanning c m _ => Scanning c m final
  | Found c m s i t => Found c m s i t
  end.

(** What a progress sink can reach: its own state and the object
    [results.total], which every category-start event hands to it. *)
Record SinkHeap (V : Type) : Type := {
  live_total : Totals.t;
  own : V
}.
Arguments live_total {V} s.
Arguments own {V} s.
Arguments Build_SinkHeap {V} live_total own.

(** A progress sink.  [on_event] is the call [progressCallback(event)]: it
    may assign to the fields of [results.total], and it returns or throws.
    [in_pause] is what work the sink left pending (a timer, a promise) does
    while the scan awaits its timer. *)
Record Sink (V : Type) : Type := {
  on_event : ProgressEvent -> SinkHeap V -> option exception * SinkHeap V;
  in_pause : SinkHeap V -> SinkHeap V
}.
Arguments on_event {V} s _ _.
Arguments in_pause {V} s _.
Arguments Build_Sink {V} on_event in_pause.

(** A sink that acts on its own state only: it does not throw and does not
    write to the object it is handed. *)
Definition pure_sink {V} (f : ProgressEvent -> V -> V) : Sink V :=
  {| on_event := fun e h =>
       (None, {| live_total := live_total h; own := f e (own h) |});
     in_pause := fun h => h |}.

(** [progressCallback], if there is one, never throws. *)
Definition never_throws {V} (progressCallback : option (Sink V)) : Prop :=
  match progressCallback with
  | Some cb => forall e h, fst (on_event cb e h) = None
  | None => True
  end.

(** The local [results] of one scan, and the state of the sink. *)
Record ScanFrame (V : Type) : Type := {
  results : Results.t;
  sink : V
}.
Arguments results {V} s.
Arguments sink {V} s.
Arguments Build_ScanFrame {V} results sink.

Definition update_results {V} (f : Results.t -> Results.t)
    (w : World (ScanFrame V)) : World (ScanFrame V) :=
  Build_World (stderr w) (Build_ScanFrame (f (results (user w))) (sink (user w))).

Definition heap_of {V} (s : ScanFrame V) : SinkHeap V :=
  {| live_total := Results.total (results s); own := sink s |}.

Definition with_heap {V} (h : SinkHeap V) (s : ScanFrame V) : ScanFrame V :=
  Build_ScanFrame (results_set_total (live_total h) (results s)) (own h).

(** A call [progressCallback(e)]: whether it threw, and the state it
    leaves. *)
Definition deliver {V} (cb : Sink V) (e : ProgressEvent) (s : ScanFrame V)
  : option exception * ScanFrame V :=
  let r := on_event cb e (heap_of s) in
  (fst r, with_heap (snd r) s).

(** The same call as a step of the scan. *)
Definition notify {V} (cb : Sink V) (e : ProgressEvent)
  : JS (World (ScanFrame V)) unit :=
  fun w =>
    let r := deliver cb e (user w) in
    match fst r with
    | None => (Normal tt, Build_World (stderr w) (snd r))
    | Some exn => (Throw exn, Build_World (stderr w) (snd r))
    end.

(** [await new Promise(resolve => setTimeout(resolve, 100))]: the scan is
    suspended, and pending work of the sink runs. *)
Definition pause {V} (cb : Sink V) (s : ScanFrame V) : ScanFrame V :=
  with_heap (in_pause cb (heap_of s)) s.

Section ScanSafariStorage.

Context {V : Type}.
(** The file system as the walk of each category finds it: the scan awaits
    before every walk, so the disk may have changed since the walk
    before. *)
Variable disk : Category -> fs.Disk.
Variable home : string.
(** The optional [progressCallback]. *)
Variable progressCallback : option (Sink V).

(** The arrow function given to [getDirectorySize] for [category]. *)
Definition file_callback (category : Category) : Callback (ScanFrame V) :=
  fun progress s =>
    match progressCallback with
    | Some cb =>
        deliver cb
          (Found category
             ("Found: " +++ Progress.currentFile progress)
             (Progress.totalSize progress)
             (Progress.itemCount progress)
             {| Totals.size :=
                  number_add (Totals.size (Results.total (results s)))
                    (Progress.totalSize progress);
                Totals.items :=
                  number_add (Totals.items (Results.total (results s)))
                    (Progress.itemCount progress) |})
          s
    | None => (None, s)
    end.

(** The start of the loop body: the start event and the pause.  The call
    of the sink is outside any [try] block: what the sink throws there ends
    the scan. *)
Definition scan_category_start (category : Category)
  : JS (World (ScanFrame V)) unit :=
  match progressCallback with
  | Some cb =>
      r <- gets (fun w => results (user w)) ;;
      notify cb
        (Scanning category
           ("Scanning " +++ CategoryResult.category (results_get r category) +++ "...")
           (Results.total r)) ;;;
      modify (in_world (pause cb))
  | None => ret tt
  end.

(** The body of the [for ... of] loop. *)
Definition scan_category (fuel : nat) (category : Category)
  : JS (World (ScanFrame V)) unit :=
  let dirPath := SAFARI_PATHS home category in
  scan_category_start category ;;;
  data <- getDirectorySize (disk category) (Some (file_callback category)) fuel dirPath ;;
  modify (update_results (fun r =>
    results_set category
      {| CategoryResult.size := DirectorySize.size data;
         CategoryResult.items := CategoryResult.items (results_get r category);
         CategoryResult.category := CategoryResult.category (results_get r category) |} r)) ;;;
  modify (update_results (fun r =>
    results_set category
      {| CategoryResult.size := CategoryResult.size (results_get r category);
         CategoryResult.items := DirectorySize.items data;
         CategoryResult.category := CategoryResult.category (results_get r category) |} r)) ;;;
  modify (update_results (fun r =>
    results_set_total
      {| Totals.size := number_add (Totals.size (Results.total r)) (DirectorySize.size data);
         Totals.items := Totals.items (Results.total r) |} r)) ;;;
  modify (update_results (fun r =>
    results_set_total
      {| Totals.size := Totals.size (Results.total r);
         Totals.items := number_add (Totals.items (Results.total r)) (DirectorySize.items data) |} r)).

Definition scanSafariStorage (fuel : nat) : JS (World V) Results.t :=
  fun w =>
    let w0 := Build_World (stderr w) (Build_ScanFrame initial_results (user w)) in
    match (forEach categories (scan_category fuel) ;;;
           gets (fun w' => results (user w'))) w0 with
    | (c, w') => (c, Build_World (stderr w') (sink (user w')))
    end.

End ScanSafariStorage.

(* ------------------------------------------------------------------ *)
(** * Directory trees *)

(** A tree describes what a disk presents at a path and below it, as the
    calls of [fs] show it.

    - [Missing]: [existsSync] is false.
    - [File n]: a regular file of [n] bytes.
    - [Dir entries]: a directory and, in [readdirSync] order, what each
      entry name presents.
    - [Special]: [statSync] succeeds on something that is neither a regular
      file nor a directory (socket, device, FIFO).
    - [StatFails e]: the path exists but [statSync] throws [e].
    - [Unreadable e]: a directory on which [readdirSync] throws [e].
    - [Link target]: [lstatSync] reports a symbolic link; [target] is what
      the path presents through the link ([Link Missing] is a dangling
      link). *)
#[local] Set Warnings "-register-all".
Inductive node : Type :=
| Missing
| File (size : N)
| Dir (entries : list (string * node))
| Special
| StatFails (e : fs.errno)
| Unreadable (e : fs.errno)
| Link (target : node).
#[local] Set Warnings "register-all".

(** The number of directory levels below the root: the calls of
    [processDirectory] nest one deeper than this. *)
Fixpoint depth (T : node) : nat :=
  match T with
  | Dir entries =>
      fold_right (fun entry d => Nat.max (S (depth (snd entry))) d) O entries
  | Link target => depth target
  | _ => O
  end.

Definition is_link (disk : fs.Disk) (p : string) : bool :=
  match fs.lstatSync disk p with
  | fs.Ok s => fs.isSymbolicLink s
  | fs.Err _ => false
  end.

Fixpoint names_eqb (xs ys : list string) : bool :=
  match xs, ys with
  | [], [] => true
  | x :: xs', y :: ys' => String.eqb x y && names_eqb xs' ys'
  | _, _ => false
  end.

(** [presents_as disk through p T]: the disk shows [T] at [p].  [through]
    is set once a symbolic link at [p] has been accounted for. *)
Fixpoint presents_as (disk : fs.Disk) (through : bool) (p : string) (T : node)
  {struct T} : bool :=
  match T with
  | Link target =>
      (through || is_link disk p) && presents_as disk true p target
  | Missing =>
      (through || negb (is_link disk p)) && negb (fs.existsSync disk p)
  | File n =>
      (through || negb (is_link disk p)) && fs.existsSync disk p &&
      match fs.statSync disk p with
      | fs.Ok s => fs.isFile s && (fs.size s =? n)%N
      | fs.Err _ => false
      end
  | Dir entries =>
      (through || negb (is_link disk p)) && fs.existsSync disk p &&
      match fs.statSync disk p with
      | fs.Ok s => negb (fs.isFile s) && fs.isDirectory s
      | fs.Err _ => false
      end &&
      match fs.readdirSync disk p with
      | fs.Ok names => names_eqb names (map fst entries)
      | fs.Err _ => false
      end &&
      forallb
        (fun entry => presents_as disk false (path.join p (fst entry)) (snd entry))
        entries
  | Special =>
      (through || negb (is_link disk p)) && fs.existsSync disk p &&
      match fs.statSync disk p with
      | fs.Ok s => negb (fs.isFile s) && negb (fs.isDirectory s)
      | fs.Err _ => false
      end
  | StatFails e =>
      (through || negb (is_link disk p)) && fs.existsSync disk p &&
      match fs.statSync disk p with
      | fs.Ok _ => false
      | fs.Err e' => fs.errno_eqb e e'
      end
  | Unreadable e =>
      (through || negb (is_link disk p)) && fs.existsSync disk p &&
      match fs.statSync disk p with
      | fs.Ok s => negb (fs.isFile s) && fs.isDirectory s
      | fs.Err _ => false
      end &&
      match fs.readdirSync disk p with
      | fs.Ok _ => false
      | fs.Err e' => fs.errno_eqb e e'
      end
  end.

Definition presents (disk : fs.Disk) (p : string) (T : node) : bool :=
  presents_as disk false p T.

(** ** What the walk does on a tree *)

(** The records the walk pushes, in order.  [statSync] has resolved every
    link, so a link is walked as its target. *)
Fixpoint visited (p : string) (T : node) : list FileRecord.t :=
  match T with
  | File n =>
      [{| FileRecord.path := p; FileRecord.size := n;
          FileRecord.name := path.basename p |}]
  | Dir entries =>
      flat_map (fun entry => visited (path.join p (fst entry)) (snd entry)) entries
  | Link target => visited p target
  | _ => []
  end.

(** The lines the walk writes with [console.error], in order. *)
Fixpoint diagnostics (p : string) (T : node) : list string :=
  match T with
  | StatFails _ | Unreadable _ => ["Cannot access: " +++ p]
  | Dir entries =>
      flat_map (fun entry => diagnostics (path.join p (fst entry)) (snd entry)) entries
  | Link target => diagnostics p target
  | _ => []
  end.

(** What the call at the root of the tree returns. *)
Fixpoint returned (T : node) : option Totals.t :=
  match T with
  | Missing => Some {| Totals.size := 0; Totals.items := 0 |}
  | Link target => returned target
  | _ => None
  end.

Definition sum (xs : list N) : N := fold_right N.add 0 xs.

Definition sizes_of (rs : list FileRecord.t) : list N := map FileRecord.size rs.

(** The sizes of the regular files the walk reaches, links resolved. *)
Fixpoint reached_sizes (T : node) : list N :=
  match T with
  | File n => [n]
  | Dir entries => flat_map (fun entry => reached_sizes (snd entry)) entries
  | Link target => reached_sizes target
  | _ => []
  end.

(** ** The spec's measure *)

(** The sizes of the regular files reachable from the tree, with symbolic
    links and special nodes excluded, as section 8 of the spec words it. *)
Fixpoint spec_regular_sizes (T : node) : list N :=
  match T with
  | File n => [n]
  | Dir entries => flat_map (fun entry => spec_regular_sizes (snd entry)) entries
  | _ => []
  end.

Definition spec_measure (T : node) : Totals.t :=
  {| Totals.size := sum (spec_regular_sizes T);
     Totals.items := N.of_nat (List.length (spec_regular_sizes T)) |}.

(** A tree without symbolic links. *)
Fixpoint link_free (T : node) : bool :=
  match T with
  | Link _ => false
  | Dir entries => forallb (fun entry => link_free (snd entry)) entries
  | _ => true
  end.

(** A tree on which no access fails. *)
Fixpoint failure_free (T : node) : bool :=
  match T with
  | StatFails _ | Unreadable _ => false
  | Dir entries => forallb (fun entry => failure_free (snd entry)) entries
  | Link target => failure_free target
  | _ => true
  end.

(** The node a chain of symbolic links ends in. *)
Fixpoint resolved (T : node) : node :=
  match T with
  | Link target => resolved target
  | _ => T
  end.

(** The root of the tree is not a symbolic link. *)
Definition plain (T : node) : bool :=
  match T with
  | Link _ => false
  | _ => true
  end.

(** A node on which the access of the walk fails. *)
Definition fails (T : node) : bool :=
  match T with
  | StatFails _ | Unreadable _ | Link (StatFails _) | Link (Unreadable _) => true
  | _ => false
  end.

(** The tree without the entries on which the access fails, at every
    level. *)
Fixpoint prune (T : node) : node :=
  match T with
  | Dir entries =>
      Dir (flat_map
             (fun entry =>
                if fails (snd entry) then []
                else [(fst entry, prune (snd entry))])
             entries)
  | Link target => Link (prune target)
  | _ => T
  end.

(** The number of nodes on which the access fails. *)
Fixpoint failures (T : node) : nat :=
  match T with
  | StatFails _ | Unreadable _ => 1%nat
  | Dir entries => fold_right (fun entry n => (failures (snd entry) + n)%nat) O entries
  | Link target => failures target
  | _ => O
  end.

(** ** The effect of a walk on the closure variables *)

Section After.

Context {U : Type}.
(** What a callback that returns does to the user state, if there is a
    callback. *)
Variable callback : option (Progress.t -> U -> U).

(** The [isFile] branch for a file with record [r]. *)
Definition visit (r : FileRecord.t) (fr : Frame U) : Frame U :=
  let fr1 := push r (set_itemCount (itemCount fr + 1)
                       (set_totalSize (number_add (totalSize fr) (FileRecord.size r)) fr)) in
  match callback with
  | Some cb =>
      set_user
        (cb {| Progress.currentFile := FileRecord.name r;
               Progress.totalSize := totalSize fr1;
               Progress.itemCount := itemCount fr1;
               Progress.inProgress := true |} (user (world fr1))) fr1
  | None => fr1
  end.

Definition after (vs : list FileRecord.t) (ds : list string) (fr : Frame U)
  : Frame U :=
  fold_left (fun f d => console_error d f) ds
    (fold_left (fun f r => visit r f) vs fr).

End After.

(** The arguments a callback receives while [rs] are visited, starting from
    the running totals [size0] and [items0]. *)
Fixpoint progress_of (size0 items0 : N) (rs : list FileRecord.t)
  : list Progress.t :=
  match rs with
  | [] => []
  | r :: rs' =>
      {| Progress.currentFile := FileRecord.name r;
         Progress.totalSize := number_add size0 (FileRecord.size r);
         Progress.itemCount := items0 + 1;
         Progress.inProgress := true |}
      :: progress_of (number_add size0 (FileRecord.size r)) (items0 + 1) rs'
  end.

(** The user state after a callback that returns has received the progress
    of [vs]. *)
Definition user_after {U} (callback : option (Progress.t -> U -> U))
    (vs : list FileRecord.t) (u : U) : U :=
  match callback with
  | Some cb => fold_left (fun v arg => cb arg v) (progress_of 0 0 vs) u
  | None => u
  end.

(* ------------------------------------------------------------------ *)
(** * Disks given by a table *)

(** A row says what [statSync] finds at a path, and whether [lstatSync]
    finds a symbolic link there. *)
Inductive inode : Type :=
| IFile (size : N)
| IDir (names : list string)
| ISpecial (kind : fs.filetype)
| IStatThrows (e : fs.errno)
| IDirThrows (e : fs.errno).

Definition table : Type := list (string * (bool * inode)).

Fixpoint find_row (tbl : table) (p : string) : option (bool * inode) :=
  match tbl with
  | [] => None
  | (q, row) :: tbl' => if String.eqb p q then Some row else find_row tbl' p
  end.

Definition disk_of_table (tbl : table) : fs.Disk :=
  {| fs.existsSync := fun p =>
       match find_row tbl p with Some _ => true | None => false end;
     fs.statSync := fun p =>
       match find_row tbl p with
       | Some (_, IFile n) => fs.Ok {| fs.mode := fs.S_IFREG; fs.st_size := n |}
       | Some (_, IDir _) => fs.Ok {| fs.mode := fs.S_IFDIR; fs.st_size := 64 |}
       | Some (_, IDirThrows _) => fs.Ok {| fs.mode := fs.S_IFDIR; fs.st_size := 64 |}
       | Some (_, ISpecial kind) => fs.Ok {| fs.mode := kind; fs.st_size := 0 |}
       | Some (_, IStatThrows e) => fs.Err e
       | None => fs.Err fs.ENOENT
       end;
     fs.lstatSync := fun p =>
       match find_row tbl p with
       | Some (true, _) => fs.Ok {| fs.mode := fs.S_IFLNK; fs.st_size := 0 |}
       | Some (false, IFile n) => fs.Ok {| fs.mode := fs.S_IFREG; fs.st_size := n |}
       | Some (false, IDir _) => fs.Ok {| fs.mode := fs.S_IFDIR; fs.st_size := 64 |}
       | Some (false, IDirThrows _) => fs.Ok {| fs.mode := fs.S_IFDIR; fs.st_size := 64 |}
       | Some (false, ISpecial kind) => fs.Ok {| fs.mode := kind; fs.st_size := 0 |}
       | Some (false, IStatThrows e) => fs.Err e
       | None => fs.Err fs.ENOENT
       end;
     fs.readdirSync := fun p =>
       match find_row tbl p with
       | Some (_, IDir names) => fs.Ok names
       | Some (_, IDirThrows e) => fs.Err e
       | Some _ => fs.Err fs.ENOTDIR
       | None => fs.Err fs.ENOENT
       end |}.

(* ------------------------------------------------------------------ *)
(** * What a scan delivers and records *)

(** The object [getDirectorySize] returns after visiting [vs]. *)
Definition data_of (vs : list FileRecord.t) : DirectorySize.t :=
  {| DirectorySize.size := number_sum (sizes_of vs);
     DirectorySize.items := N.of_nat (List.length vs);
     DirectorySize.files := vs |}.

(** The four assignments that close the loop body. *)
Definition record_category (c : Category) (data : DirectorySize.t)
    (r : Results.t) : Results.t :=
  let r1 := results_set c
    {| CategoryResult.size := DirectorySize.size data;
       CategoryResult.items := CategoryResult.items (results_get r c);
       CategoryResult.category := CategoryResult.category (results_get r c) |} r in
  let r2 := results_set c
    {| CategoryResult.size := CategoryResult.size (results_get r1 c);
       CategoryResult.items := DirectorySize.items data;
       CategoryResult.category := CategoryResult.category (results_get r1 c) |} r1 in
  let r3 := results_set_total
    {| Totals.size := number_add (Totals.size (Results.total r2)) (DirectorySize.size data);
       Totals.items := Totals.items (Results.total r2) |} r2 in
  results_set_total
    {| Totals.size := Totals.size (Results.total r3);
       Totals.items := number_add (Totals.items (Results.total r3)) (DirectorySize.items data) |} r3.

(** The event the arrow function builds from a callback argument while
    [results.total] holds [prior]. *)
Definition found_event (c : Category) (prior : Totals.t) (arg : Progress.t)
  : ProgressEvent :=
  Found c ("Found: " +++ Progress.currentFile arg)
    (Progress.totalSize arg) (Progress.itemCount arg)
    {| Totals.size := number_add (Totals.size prior) (Progress.totalSize arg);
       Totals.items := number_add (Totals.items prior) (Progress.itemCount arg) |}.

(** The events of one category: its start, then one per visited file. *)
Definition category_events (c : Category) (r : Results.t)
    (vs : list FileRecord.t) : list ProgressEvent :=
  Scanning c
    ("Scanning " +++ CategoryResult.category (results_get r c) +++ "...")
    (Results.total r)
  :: map (found_event c (Results.total r)) (progress_of 0 0 vs).

(** The state of a sink that acts on its own state only, after it has
    received [events]. *)
Definition sink_after {V} (progressCallback : option (ProgressEvent -> V -> V))
    (events : list ProgressEvent) (v : V) : V :=
  match progressCallback with
  | Some cb => fold_left (fun s e => cb e s) events v
  | None => v
  end.

(** What the arrow function of [category] does when the sink acts on its
    own state only. *)
Definition pure_file_callback {V}
    (progressCallback : option (ProgressEvent -> V -> V)) (c : Category)
    (arg : Progress.t) (s : ScanFrame V) : ScanFrame V :=
  Build_ScanFrame (results s)
    (sink_after progressCallback
       [found_event c (Results.total (results s)) arg] (sink s)).

Section ScanTrace.

Variable home : string.
Variable tree : Category -> node.

Definition category_files (c : Category) : list FileRecord.t :=
  visited (SAFARI_PATHS home c) (tree c).

Fixpoint scan_results (cs : list Category) (r : Results.t) : Results.t :=
  match cs with
  | [] => r
  | c :: cs' => scan_results cs' (record_category c (data_of (category_files c)) r)
  end.

Fixpoint scan_events (cs : list Category) (r : Results.t) : list ProgressEvent :=
  match cs with
  | [] => []
  | c :: cs' =>
      category_events c r (category_files c)
      ++ scan_events cs' (record_category c (data_of (category_files c)) r)
  end.

Definition scan_diagnostics (cs : list Category) : list string :=
  flat_map (fun c => diagnostics (SAFARI_PATHS home c) (tree c)) cs.

End ScanTrace.

(** The walk of every category finds [tree c] at the path of the category,
    and [fuel] exceeds every depth. *)
Definition scan_ready (disk : Category -> fs.Disk) (home : string)
    (tree : Category -> node) (fuel : nat) : bool :=
  forallb
    (fun c => presents (disk c) (SAFARI_PATHS home c) (tree c)
              && Nat.ltb (depth (tree c)) fuel)
    categories.

(** The sizes and the number of the files all categories reach. *)
Definition scan_sizes (tree : Category -> node) : list N :=
  flat_map (fun c => reached_sizes (tree c)) categories.

(** Every sum of the scan stays where the addition of doubles is exact. *)
Definition within_two53 (tree : Category -> node) : bool :=
  (sum (scan_sizes tree) <=? two53)
  && (N.of_nat (List.length (scan_sizes tree)) <=? two53).

(** A sink that keeps every event it is called with, in order. *)
Definition record_event (e : ProgressEvent) (log : list ProgressEvent)
  : list ProgressEvent := log ++ [e].

Definition keep : Sink (list ProgressEvent) := pure_sink record_event.

Definition Category_eqb (a b : Category) : bool :=
  match a, b with
  | cookies, cookies | cache, cache | history, history
  | localStorage, localStorage | databases, databases => true
  | _, _ => false
  end.

(** The categories listed before [c]. *)
Fixpoint before (c : Category) (cs : list Category) : list Category :=
  match cs with
  | [] => []
  | c' :: cs' => if Category_eqb c c' then [] else c' :: before c cs'
  end.


Definition found_items (c : Category) (events : list ProgressEvent) : list N :=
  flat_map (fun e => match e with
                     | Found c' _ _ i _ => if Category_eqb c c' then [i] else []
                     | Scanning _ _ _ => []
                     end) events.



(* ------------------------------------------------------------------ *)
(** * Sample disks *)

(** A directory with a regular file and a symbolic link to it. *)
Definition linked_table : table :=
  [ ("/r", (false, IDir ["a"; "l"]));
    ("/r/a", (false, IFile 10));
    ("/r/l", (true, IFile 10)) ].

Definition linked_tree : node :=
  Dir [("a", File 10); ("l", Link (File 10))].

(** A symbolic link to a directory that holds one file. *)
Definition dirlink_table : table :=
  [ ("/l", (true, IDir ["f"]));
    ("/l/f", (false, IFile 7)) ].

Definition dirlink_tree : node := Link (Dir [("f", File 7)]).

(** A directory with an unreadable subdirectory, a file, a socket and an
    entry that vanished after it was listed. *)
Definition mixed_table : table :=
  [ ("/d", (false, IDir ["locked"; "f"; "sock"; "gone"]));
    ("/d/locked", (false, IDirThrows fs.EACCES));
    ("/d/f", (false, IFile 300));
    ("/d/sock", (false, ISpecial fs.S_IFSOCK)) ].

Definition mixed_tree : node :=
  Dir [("locked", Unreadable fs.EACCES); ("f", File 300);
       ("sock", Special); ("gone", Missing)].

(** A home directory with the five category paths: two cookie files, a
    cache that cannot be read, a history directory that holds the local
    storage directory and a file, and no database directory. *)
Definition home_table : table :=
  [ ("/h/Library/Cookies", (false, IDir ["a"; "b"]));
    ("/h/Library/Cookies/a", (false, IFile 100));
    ("/h/Library/Cookies/b", (false, IFile 200));
    ("/h/Library/Caches/com.apple.Safari", (false, IDirThrows fs.EACCES));
    ("/h/Library/Safari", (false, IDir ["History.db"; "LocalStorage"]));
    ("/h/Library/Safari/History.db", (false, IFile 300));
    ("/h/Library/Safari/LocalStorage", (false, IDir ["x"]));
    ("/h/Library/Safari/LocalStorage/x", (false, IFile 50)) ].

Definition home_tree (c : Category) : node :=
  match c with
  | cookies => Dir [("a", File 100); ("b", File 200)]
  | cache => Unreadable fs.EACCES
  | history => Dir [("History.db", File 300); ("LocalStorage", Dir [("x", File 50)])]
  | localStorage => Dir [("x", File 50)]
  | databases => Missing
  end.

(** The same table at every walk of a scan. *)
Definition home_disk (c : Category) : fs.Disk := disk_of_table home_table.

(** A directory where the sizes leave the range of exact sums: a file of
    2^53 bytes (a sparse file takes no such space on the disk) and a file of
    one byte. *)
Definition sparse_table : table :=
  [ ("/s", (false, IDir ["big"; "one"]));
    ("/s/big", (false, IFile 9007199254740992));
    ("/s/one", (false, IFile 1)) ].

Definition sparse_tree : node :=
  Dir [("big", File 9007199254740992); ("one", File 1)].

(** A sink that, at the first event of a scan, assigns 5000 to the [size]
    of the object it receives as [current]. *)
Definition overwriting_sink : Sink unit :=
  {| on_event := fun e h =>
       match e with
       | Scanning cookies _ _ =>
           (None, {| live_total := {| Totals.size := 5000;
                                      Totals.items := Totals.items (live_total h) |};
                     own := own h |})
       | _ => (None, h)
       end;
     in_pause := fun h => h |}.

(** The same sink, which also keeps the events. *)
Definition overwriting_keep : Sink (list ProgressEvent) :=
  {| on_event := fun e h =>
       match e with
       | Scanning cookies _ _ =>
           (None, {| live_total := {| Totals.size := 5000;
                                      Totals.items := Totals.items (live_total h) |};
                     own := own h ++ [e] |})
       | _ => (None, {| live_total := live_total h; own := own h ++ [e] |})
       end;
     in_pause := fun h => h |}.

(** A sink that throws at every call. *)
Definition throwing_sink : Sink unit :=
  {| on_event := fun e h => (Some (Raised "sink failed"), h);
     in_pause := fun h => h |}.

(** A callback of [getDirectorySize] that throws at every call. *)
Definition throwing_callback : Callback unit :=
  fun arg u => (Some (Raised "callback failed"), u).

Definition empty_world : World unit := Build_World [] tt.

Definition quiet_world : World (list ProgressEvent) := Build_World [] [].

(* ------------------------------------------------------------------ *)
(** * The reporters: strings *)

Definition LF : string := String "010"%char EmptyString.

Definition CR : string := String "013"%char EmptyString.

Fixpoint spaces (n : nat) : string :=
  match n with
  | O => EmptyString
  | S n' => String " " (spaces n')
  end.

(** [s.repeat(count)] *)
Fixpoint repeat_string (s : string) (count : nat) : string :=
  match count with
  | O => EmptyString
  | S count' => s +++ repeat_string s count'
  end.

(** [s.padStart(targetLength)], padding with spaces.  It is applied to the
    text [formatBytes] returns, which is ASCII: there the characters of
    these strings are JavaScript's code units. *)
Definition padStart (s : string) (targetLength : nat) : string :=
  spaces (targetLength - String.length s) +++ s.

(** A JavaScript string is held here as its UTF-8 bytes; its [length]
    counts UTF-16 code units.  The first byte of a character tells the
    number: one unit for a character of one, two or three bytes, two units
    for a character of four bytes; the other bytes of the character count
    nothing. *)
Definition code_units (c : ascii) : nat :=
  let b := nat_of_ascii c in
  if (b <? 128)%nat then 1%nat
  else if (b <? 192)%nat then 0%nat
  else if (b <? 240)%nat then 1%nat
  else 2%nat.

Fixpoint js_length (s : string) : nat :=
  match s with
  | EmptyString => O
  | String c rest => (code_units c + js_length rest)%nat
  end.

(** [s.padEnd(targetLength)], padding with spaces; [s] may be any text, a
    file name for one. *)
Definition padEnd (s : string) (targetLength : nat) : string :=
  s +++ spaces (targetLength - js_length s).

(** [progress.message] *)
Definition message_of (e : ProgressEvent) : string :=
  match e with
  | Scanning _ m _ => m
  | Found _ m _ _ _ => m
  end.

(** [progress.total]: only the per-file events have the property. *)
Definition total_of (e : ProgressEvent) : option Totals.t :=
  match e with
  | Scanning _ _ _ => None
  | Found _ _ _ _ t => Some t
  end.

(* ------------------------------------------------------------------ *)
(** * [main] *)

(** [console.log(line)] and [process.stdout.write(chunk)]: the user state
    of [main] is the list of chunks written to standard output. *)
Definition stdout_write (chunk : string) (out : list string) : list string :=
  out ++ [chunk].

Definition console_log (line : string) (w : World (list string))
  : World (list string) :=
  Build_World (stderr w) (stdout_write (line +++ LF) (user w)).

(** The callback [main] gives to the scan. *)
Definition write_progress (progress : ProgressEvent) (out : list string)
  : list string :=
  stdout_write (CR +++ padEnd (message_of progress) 60) out.

(** A line of the summary table. *)
Definition summary_line (label : string) (size items : N) : string :=
  label +++ padStart (formatBytes size) 12 +++ " | " +++ decimal items +++ " items".

Section Main.

Variable disk : Category -> fs.Disk.
Variable home : string.

Definition main (fuel : nat) : JS (World (list string)) Results.t :=
  modify (console_log (LF +++ "🔍 Safari Storage Scanner for macOS" +++ LF)) ;;;
  modify (console_log (repeat_string "=" 50)) ;;;
  modify (console_log (LF +++ "Note: This requires Full Disk Access permission.")) ;;;
  modify (console_log
            ("Go to System Preferences > Security & Privacy > Full Disk Access" +++ LF)) ;;;
  modify (console_log ("Scanning Safari storage locations..." +++ LF)) ;;;
  results <- scanSafariStorage disk home (Some (pure_sink write_progress)) fuel ;;
  modify (console_log (LF +++ LF +++ repeat_string "=" 50)) ;;;
  modify (console_log (LF +++ "📊 SAFARI STORAGE SUMMARY" +++ LF)) ;;;
  modify (console_log
            (summary_line "🍪 Cookies:       "
               (CategoryResult.size (Results.cookies results))
               (CategoryResult.items (Results.cookies results)))) ;;;
  modify (console_log
            (summary_line "📦 Cache:         "
               (CategoryResult.size (Results.cache results))
               (CategoryResult.items (Results.cache results)))) ;;;
  modify (console_log
            (summary_line "📜 History:       "
               (CategoryResult.size (Results.history results))
               (CategoryResult.items (Results.history results)))) ;;;
  modify (console_log
            (summary_line "💾 Local Storage: "
               (CategoryResult.size (Results.localStorage results))
               (CategoryResult.items (Results.localStorage results)))) ;;;
  modify (console_log
            (summary_line "🗄️  Databases:     "
               (CategoryResult.size (Results.databases results))
               (CategoryResult.items (Results.databases results)))) ;;;
  modify (console_log (LF +++ repeat_string "-" 50)) ;;;
  modify (console_log
            (LF +++ summary_line "📊 TOTAL:         "
                      (Totals.size (Results.total results))
                      (Totals.items (Results.total results)) +++ LF)) ;;;
  ret results.

End Main.

(* ------------------------------------------------------------------ *)
(** * The HTTP reporter *)

(** The part of a response the handlers of [/api/scan] act on with the
    methods of Node's [http.ServerResponse]. *)
Module Response.
Record t : Type := {
  headers : list (string * string);
  headersSent : bool;
  statusCode : N;
  body : list string;
  ended : bool
}.
End Response.

(** [res.setHeader(name, value)]: the value replaces an earlier one. *)
Definition setHeader (name value : string) (res : Response.t) : Response.t :=
  {| Response.headers :=
       filter (fun h => negb (String.eqb (fst h) name)) (Response.headers res)
       ++ [(name, value)];
     Response.headersSent := Response.headersSent res;
     Response.statusCode := Response.statusCode res;
     Response.body := Response.body res;
     Response.ended := Response.ended res |}.

(** [res.flushHeaders()] *)
Definition flushHeaders (res : Response.t) : Response.t :=
  {| Response.headers := Response.headers res;
     Response.headersSent := true;
     Response.statusCode := Response.statusCode res;
     Response.body := Response.body res;
     Response.ended := Response.ended res |}.

(** [res.write(chunk)] *)
Definition res_write (chunk : string) (res : Response.t) : Response.t :=
  {| Response.headers := Response.headers res;
     Response.headersSent := true;
     Response.statusCode := Response.statusCode res;
     Response.body := Response.body res ++ [chunk];
     Response.ended := Response.ended res |}.

(** [res.end()] *)
Definition res_end (res : Response.t) : Response.t :=
  {| Response.headers := Response.headers res;
     Response.headersSent := true;
     Response.statusCode := Response.statusCode res;
     Response.body := Response.body res;
     Response.ended := true |}.

(** [res.status(code)] *)
Definition res_status (code : N) (res : Response.t) : Response.t :=
  {| Response.headers := Response.headers res;
     Response.headersSent := Response.headersSent res;
     Response.statusCode := code;
     Response.body := Response.body res;
     Response.ended := Response.ended res |}.

(** [{ ...results.cookies, sizeFormatted }] *)
Module FormattedCategory.
Record t : Type := {
  size : N; items : N; category : string; sizeFormatted : string
}.
End FormattedCategory.

(** [{ ...results.total, sizeFormatted }] *)
Module FormattedTotal.
Record t : Type := { size : N; items : N; sizeFormatted : string }.
End FormattedTotal.

Module FormattedResults.
Record t : Type := {
  cookies : FormattedCategory.t;
  cache : FormattedCategory.t;
  history : FormattedCategory.t;
  localStorage : FormattedCategory.t;
  databases : FormattedCategory.t;
  total : FormattedTotal.t
}.
End FormattedResults.

Definition format_category (r : CategoryResult.t) : FormattedCategory.t :=
  {| FormattedCategory.size := CategoryResult.size r;
     FormattedCategory.items := CategoryResult.items r;
     FormattedCategory.category := CategoryResult.category r;
     FormattedCategory.sizeFormatted := formatBytes (CategoryResult.size r) |}.

Definition format_results (r : Results.t) : FormattedResults.t :=
  {| FormattedResults.cookies := format_category (Results.cookies r);
     FormattedResults.cache := format_category (Results.cache r);
     FormattedResults.history := format_category (Results.history r);
     FormattedResults.localStorage := format_category (Results.localStorage r);
     FormattedResults.databases := format_category (Results.databases r);
     FormattedResults.total :=
       {| FormattedTotal.size := Totals.size (Results.total r);
          FormattedTotal.items := Totals.items (Results.total r);
          FormattedTotal.sizeFormatted := formatBytes (Totals.size (Results.total r)) |} |}.

(** The objects the handlers serialise. *)
Inductive Payload : Type :=
| ProgressPayload (scanning message : string) (size items : N)
    (sizeFormatted : string)
| CompletePayload (results : FormattedResults.t)
| ErrorPayload (message : string)
| SyncSuccess (results : FormattedResults.t)
| SyncFailure (error : string).

(** [x || 0] for [x] a number or [undefined]. *)
Definition or_zero (x : option N) : N :=
  match x with
  | Some n => n
  | None => 0
  end.

(** The response, and the lines the server writes with [console.log]. *)
Record ServerState : Type := {
  response : Response.t;
  stdout : list string
}.

Definition on_response (f : Response.t -> Response.t) (s : ServerState)
  : ServerState :=
  {| response := f (response s); stdout := stdout s |}.

Definition server_log (line : string) (s : ServerState) : ServerState :=
  {| response := response s; stdout := stdout s ++ [line +++ LF] |}.

(** The state in which [/api/scan] starts the scan. *)
Definition streaming (s : ServerState) : ServerState :=
  server_log "Starting Safari scan..."
    (on_response flushHeaders
       (on_response (setHeader "Connection" "keep-alive")
          (on_response (setHeader "Cache-Control" "no-cache")
             (on_response (setHeader "Content-Type" "text/event-stream") s)))).

Section Server.

Variable disk : Category -> fs.Disk.
Variable home : string.
(** [JSON.stringify] on the objects above, and [error.message] of what was
    thrown, belong to the runtime. *)
Variable JSON_stringify : Payload -> string.
Variable error_message : exception -> string.
(** [res.json(obj)] belongs to Express: it serialises the object, sets
    headers of its own and ends the response. *)
Variable res_json : Payload -> Response.t -> Response.t.

(** The object built for a progress event: [progress.total] is undefined
    on a category-start event, which carries [current] instead. *)
Definition progress_payload (progress : ProgressEvent) : Payload :=
  ProgressPayload
    (category_key (scanning_of progress))
    (message_of progress)
    (or_zero (option_map Totals.size (total_of progress)))
    (or_zero (option_map Totals.items (total_of progress)))
    (formatBytes (or_zero (option_map Totals.size (total_of progress)))).

Definition sse_frame (data : Payload) : string :=
  "data: " +++ JSON_stringify data +++ LF +++ LF.

(** The callback of [/api/scan]. *)
Definition sse_progress (progress : ProgressEvent) (s : ServerState)
  : ServerState :=
  on_response (res_write (sse_frame (progress_payload progress))) s.

(** [app.get('/api/scan', ...)]: [.then] and [.catch] on the promise of
    the scan. *)
Definition api_scan (fuel : nat) : JS (World ServerState) unit :=
  modify (in_world (on_response (setHeader "Content-Type" "text/event-stream"))) ;;;
  modify (in_world (on_response (setHeader "Cache-Control" "no-cache"))) ;;;
  modify (in_world (on_response (setHeader "Connection" "keep-alive"))) ;;;
  modify (in_world (on_response flushHeaders)) ;;;
  modify (in_world (server_log "Starting Safari scan...")) ;;;
  try_catch
    (results <- scanSafariStorage disk home (Some (pure_sink sse_progress)) fuel ;;
     modify (in_world (on_response
               (res_write (sse_frame (CompletePayload (format_results results)))))) ;;;
     modify (in_world (on_response res_end)))
    (fun error =>
     modify (in_world (on_response
               (res_write (sse_frame (ErrorPayload (error_message error)))))) ;;;
     modify (in_world (on_response res_end))).

(** [app.get('/api/scan-sync', ...)] *)
Definition api_scan_sync (fuel : nat) : JS (World ServerState) unit :=
  try_catch
    (results <- scanSafariStorage disk home None fuel ;;
     modify (in_world (on_response
               (res_json (SyncSuccess (format_results results))))))
    (fun error =>
     modify (in_world (on_response (res_status 500))) ;;;
     modify (in_world (on_response
               (res_json (SyncFailure (error_message error)))))).

End Server.

(** A callback of [getDirectorySize] that keeps every argument, in order. *)
Definition note (arg : Progress.t) (log : list Progress.t) : list Progress.t :=
  log ++ [arg].

(** An entry name as [readdirSync] returns them: not empty, no separator,
    neither of the dot entries. *)
Fixpoint no_separator (s : string) : bool :=
  match s with
  | EmptyString => true
  | String c rest => negb (Ascii.eqb c "/") && no_separator rest
  end.

Definition entry_name (s : string) : bool :=
  no_separator s
  && negb (String.eqb s "") && negb (String.eqb s ".") && negb (String.eqb s "..").

Fixpoint entry_names (T : node) : bool :=
  match T with
  | Dir entries =>
      forallb (fun entry => entry_name (fst entry) && entry_names (snd entry)) entries
  | Link target => entry_names target
  | _ => true
  end.

(** The names under which the walk finds the files of a tree whose root
    goes by [own]. *)
Fixpoint found_names (own : string) (T : node) : list string :=
  match T with
  | File _ => [own]
  | Dir entries => flat_map (fun entry => found_names (fst entry) (snd entry)) entries
  | Link target => found_names own target
  | _ => []
  end.

(** A home directory where the history directory holds the local storage
    and the database directories. *)
Definition nested_table : table :=
  [ ("/h/Library/Safari", (false, IDir ["History.db"; "LocalStorage"; "Databases"]));
    ("/h/Library/Safari/History.db", (false, IFile 300));
    ("/h/Library/Safari/LocalStorage", (false, IDir ["x"]));
    ("/h/Library/Safari/LocalStorage/x", (false, IFile 50));
    ("/h/Library/Safari/Databases", (false, IDir ["d1"; "d2"]));
    ("/h/Library/Safari/Databases/d1", (false, IFile 7));
    ("/h/Library/Safari/Databases/d2", (false, IFile 8)) ].

Definition nested_disk (c : Category) : fs.Disk := disk_of_table nested_table.

Definition nested_tree (c : Category) : node :=
  match c with
  | cookies => Missing
  | cache => Missing
  | history =>
      Dir [("History.db", File 300); ("LocalStorage", Dir [("x", File 50)]);
           ("Databases", Dir [("d1", File 7); ("d2", File 8)])]
  | localStorage => Dir [("x", File 50)]
  | databases => Dir [("d1", File 7); ("d2", File 8)]
  end.

Definition idle_response : Response.t :=
  {| Response.headers := []; Response.headersSent := false;
     Response.statusCode := 200; Response.body := []; Response.ended := false |}.

Definition idle_server : World ServerState :=
  Build_World [] {| response := idle_response; stdout := [] |}.

(** A stand-in for [JSON.stringify] and for [error.message] in sample
    runs: it prints the type of the object and its total size. *)
Definition sample_stringify (data : Payload) : string :=
  match data with
  | ProgressPayload _ _ size _ _ => "progress " +++ decimal size
  | CompletePayload results =>
      "complete " +++ decimal (FormattedTotal.size (FormattedResults.total results))
  | ErrorPayload _ => "error"
  | SyncSuccess results =>
      "success " +++ decimal (FormattedTotal.size (FormattedResults.total results))
  | SyncFailure _ => "failure"
  end.

Definition sample_error_message (e : exception) : string := "system error".

(** A stand-in for [res.json] in sample runs. *)
Definition sample_res_json (obj : Payload) (res : Response.t) : Response.t :=
  res_end (res_write (sample_stringify obj)
             (setHeader "Content-Type" "application/json; charset=utf-8" res)).

(* ------------------------------------------------------------------ *)
(** * The addition of doubles *)

Lemma log2_lt_53 (n : N) : N.log2 n < 53 <-> n < two53.
Proof.
  unfold two53. destruct (N.eq_dec n 0) as [-> | Hn].
  - simpl. split; intros _; [ reflexivity | reflexivity ].
  - split; intros H.
    + apply N.log2_lt_pow2; lia.
    + apply N.log2_lt_pow2 in H; lia.
Qed.

Lemma to_double_below (n : N) : n < two53 -> to_double n = n.
Proof.
  intros H. apply log2_lt_53 in H. unfold to_double.
  apply N.ltb_lt in H. cbv zeta. now rewrite H.
Qed.

Lemma log2_grid (m j : N) :
  2 ^ 52 <= m < 2 ^ 53 -> N.log2 (m * 2 ^ j) = 52 + j.
Proof.
  intros [Hlo Hhi]. apply N.log2_unique; [ lia | ].
  rewrite N.pow_succ_r by lia. rewrite !N.pow_add_r.
  assert (0 < 2 ^ j) by (apply N.neq_0_lt_0, N.pow_nonzero; lia).
  change (2 ^ 53) with (2 * 2 ^ 52) in Hhi. nia.
Qed.

Lemma to_double_grid (m j : N) :
  2 ^ 52 <= m < 2 ^ 53 -> 1 <= j -> to_double (m * 2 ^ j) = m * 2 ^ j.
Proof.
  intros Hm Hj. unfold to_double. cbv zeta. rewrite (log2_grid m j Hm).
  assert (Hlt : (52 + j <? 53) = false) by (apply N.ltb_ge; lia).
  rewrite Hlt. replace (52 + j - 52) with j by lia.
  assert (Hpos : 2 ^ j <> 0) by (apply N.pow_nonzero; lia).
  rewrite N.div_mul by exact Hpos. rewrite N.Div0.mod_mul.
  assert (H0 : (2 * 0 <? 2 ^ j) = true).
  { apply N.ltb_lt. apply N.neq_0_lt_0 in Hpos. lia. }
  now rewrite H0.
Qed.

Lemma to_double_rounding (n : N) : 53 <= N.log2 n -> rounding n.
Proof.
  intros He.
  assert (Hn0 : 0 < n).
  { destruct (N.eq_dec n 0) as [-> | ]; [ simpl in He; lia | lia ]. }
  destruct (N.log2_spec n Hn0) as [Hlo Hhi].
  set (e := N.log2 n) in *. set (ulp := 2 ^ (e - 52)).
  assert (Hpos : ulp <> 0) by (apply N.pow_nonzero; lia).
  assert (Hsplit : 2 ^ e = 2 ^ 52 * ulp).
  { unfold ulp. rewrite <- N.pow_add_r. f_equal. lia. }
  assert (Hsplit' : 2 ^ N.succ e = 2 ^ 53 * ulp).
  { unfold ulp. rewrite <- N.pow_add_r. f_equal. lia. }
  pose proof (N.div_mod n ulp Hpos) as Hdm.
  pose proof (N.mod_lt n ulp Hpos) as Hmod.
  apply (rounds n ulp (n / ulp) (n mod ulp)).
  - reflexivity.
  - fold e. lia.
  - lia.
  - exact Hmod.
  - split.
    + apply N.div_le_lower_bound; [ exact Hpos | ]. lia.
    + apply N.Div0.div_lt_upper_bound. lia.
  - unfold to_double. cbv zeta. fold e. fold ulp.
    assert (Hlt : (e <? 53) = false) by (apply N.ltb_ge; lia).
    rewrite Hlt.
    destruct (2 * (n mod ulp) <? ulp) eqn:H1.
    + left. apply N.ltb_lt in H1. split; [ exact H1 | reflexivity ].
    + apply N.ltb_ge in H1. destruct (ulp <? 2 * (n mod ulp)) eqn:H2.
      * right. left. apply N.ltb_lt in H2. split; [ exact H2 | reflexivity ].
      * apply N.ltb_ge in H2. right. right.
        destruct (N.even (n / ulp)) eqn:H3.
        -- left. repeat split. lia.
        -- right. repeat split. lia.
Qed.

Lemma to_double_idempotent (n : N) : to_double (to_double n) = to_double n.
Proof.
  destruct (N.lt_ge_cases (N.log2 n) 53) as [Hsmall | Hbig].
  - apply log2_lt_53 in Hsmall. now rewrite !(to_double_below n Hsmall).
  - destruct (to_double_rounding n Hbig) as [ulp q r Hulp Hj Hn Hr Hq Hcase].
    assert (Hq1 : to_double (q * ulp) = q * ulp)
      by (subst ulp; apply to_double_grid; assumption).
    assert (Hq2 : to_double ((q + 1) * ulp) = (q + 1) * ulp).
    { destruct (N.eq_dec (q + 1) (2 ^ 53)) as [Hcarry | Hno].
      - rewrite Hcarry. subst ulp.
        replace (2 ^ 53 * 2 ^ (N.log2 n - 52))
          with (2 ^ 52 * 2 ^ (N.succ (N.log2 n - 52))).
        + apply to_double_grid; [ | lia ]. split; [ lia | ].
          apply N.pow_lt_mono_r; lia.
        + rewrite N.pow_succ_r by lia. change (2 ^ 53) with (2 * 2 ^ 52). lia.
      - subst ulp. apply to_double_grid; [ lia | assumption ]. }
    destruct Hcase as [(_ & ->) | [(_ & ->) | [(_ & _ & ->) | (_ & _ & ->)]]];
      assumption.
Qed.



Lemma to_double_exact (n : N) : n <= two53 -> to_double n = n.
Proof.
  intros H. destruct (N.eq_dec n two53) as [-> | Hne].
  - reflexivity.
  - apply to_double_below. lia.
Qed.

Lemma number_add_exact (a b : N) : a + b <= two53 -> number_add a b = a + b.
Proof. apply to_double_exact. Qed.


Lemma number_add_double (a b : N) : to_double (number_add a b) = number_add a b.
Proof. apply to_double_idempotent. Qed.


Example rounding_samples :
  to_double (2 ^ 53 + 1) = 2 ^ 53 /\ to_double (2 ^ 53 + 3) = 2 ^ 53 + 4 /\
  to_double (2 ^ 53 + 2) = 2 ^ 53 + 2 /\ to_double (2 ^ 54 + 2) = 2 ^ 54 /\
  to_double (2 ^ 54 + 6) = 2 ^ 54 + 8 /\ to_double (2 ^ 54 - 1) = 2 ^ 54 /\
  number_add (2 ^ 53) 1 = 2 ^ 53 /\ number_add 300 50 = 350.
Proof. vm_compute. repeat split. Qed.

(* ------------------------------------------------------------------ *)
(** * Lemmas on trees and on the monad *)

Lemma node_induction (P : node -> Prop) :
  P Missing ->
  (forall n, P (File n)) ->
  (forall entries, Forall (fun entry => P (snd entry)) entries -> P (Dir entries)) ->
  P Special ->
  (forall e, P (StatFails e)) ->
  (forall e, P (Unreadable e)) ->
  (forall target, P target -> P (Link target)) ->
  forall T, P T.
Proof.
  intros HM HF HD HS HSF HU HL.
  fix IH 1.
  intros [ | n | entries | | e | e | target ].
  - exact HM.
  - apply HF.
  - apply HD. induction entries as [ | entry entries IHentries ].
    + constructor.
    + constructor; [ apply IH | exact IHentries ].
  - exact HS.
  - apply HSF.
  - apply HU.
  - apply HL, IH.
Qed.

Lemma names_eqb_eq (xs ys : list string) : names_eqb xs ys = true -> xs = ys.
Proof.
  revert ys. induction xs as [ | x xs IHxs ]; intros [ | y ys ]; simpl; try discriminate; auto.
  intros H. apply andb_prop in H. destruct H as [Hxy Hrest].
  apply String.eqb_eq in Hxy. subst. f_equal. auto.
Qed.

Lemma sum_app (xs ys : list N) : sum (xs ++ ys) = sum xs + sum ys.
Proof.
  unfold sum. induction xs as [ | x xs IHxs ]; simpl; [ reflexivity | rewrite IHxs; lia ].
Qed.

Lemma console_errors_frame {U} (ds : list string) (f : Frame U) :
  let f' := fold_left (fun g d => console_error d g) ds f in
  totalSize f' = totalSize f /\ itemCount f' = itemCount f /\
  processedItems f' = processedItems f /\ user (world f') = user (world f).
Proof.
  revert f. induction ds as [ | d ds IHds ]; intros f; simpl.
  - repeat split.
  - destruct (IHds (console_error d f)) as (H1 & H2 & H3 & H4).
    rewrite H1, H2, H3, H4. repeat split.
Qed.

Section AfterFacts.

Context {U : Type}.
Variable callback : option (Progress.t -> U -> U).

Lemma visit_console_error (r : FileRecord.t) (d : string) (fr : Frame U) :
  visit callback r (console_error d fr) = console_error d (visit callback r fr).
Proof. unfold visit. destruct callback; reflexivity. Qed.

Lemma visits_console_error (vs : list FileRecord.t) (d : string) (fr : Frame U) :
  fold_left (fun f r => visit callback r f) vs (console_error d fr) =
  console_error d (fold_left (fun f r => visit callback r f) vs fr).
Proof.
  revert fr. induction vs as [ | v vs IHvs ]; intros fr; simpl; [ reflexivity | ].
  rewrite visit_console_error. apply IHvs.
Qed.

Lemma visits_console_errors (vs : list FileRecord.t) (ds : list string) (fr : Frame U) :
  fold_left (fun f r => visit callback r f) vs
    (fold_left (fun f d => console_error d f) ds fr) =
  fold_left (fun f d => console_error d f) ds
    (fold_left (fun f r => visit callback r f) vs fr).
Proof.
  revert fr. induction ds as [ | d ds IHds ]; intros fr; simpl; [ reflexivity | ].
  rewrite IHds, visits_console_error. reflexivity.
Qed.

Lemma after_app (v1 v2 : list FileRecord.t) (d1 d2 : list string) (fr : Frame U) :
  after callback (v1 ++ v2) (d1 ++ d2) fr =
  after callback v2 d2 (after callback v1 d1 fr).
Proof.
  unfold after. rewrite !fold_left_app, visits_console_errors. reflexivity.
Qed.

Lemma after_nil (fr : Frame U) : after callback [] [] fr = fr.
Proof. reflexivity. Qed.

Lemma after_totalSize (vs : list FileRecord.t) (ds : list string) (fr : Frame U) :
  totalSize (after callback vs ds fr) =
  fold_left number_add (sizes_of vs) (totalSize fr).
Proof.
  unfold after.
  destruct (console_errors_frame ds (fold_left (fun f r => visit callback r f) vs fr))
    as (Hts & Hic & Hpi & Hus).
  cbv zeta in Hts, Hic, Hpi, Hus. rewrite Hts. clear Hts Hic Hpi Hus. revert fr.
  induction vs as [ | v vs IHvs ]; intros fr; simpl.
  - reflexivity.
  - rewrite IHvs. unfold visit. destruct callback; reflexivity.
Qed.

Lemma after_itemCount (vs : list FileRecord.t) (ds : list string) (fr : Frame U) :
  itemCount (after callback vs ds fr) = itemCount fr + N.of_nat (List.length vs).
Proof.
  unfold after.
  destruct (console_errors_frame ds (fold_left (fun f r => visit callback r f) vs fr))
    as (Hts & Hic & Hpi & Hus).
  cbv zeta in Hts, Hic, Hpi, Hus. rewrite Hic. clear Hts Hic Hpi Hus. revert fr.
  induction vs as [ | v vs IHvs ]; intros fr.
  - simpl. lia.
  - cbn [fold_left List.length]. rewrite IHvs. unfold visit. destruct callback; simpl; lia.
Qed.

Lemma after_processedItems (vs : list FileRecord.t) (ds : list string) (fr : Frame U) :
  processedItems (after callback vs ds fr) = processedItems fr ++ vs.
Proof.
  unfold after.
  destruct (console_errors_frame ds (fold_left (fun f r => visit callback r f) vs fr))
    as (Hts & Hic & Hpi & Hus).
  cbv zeta in Hts, Hic, Hpi, Hus. rewrite Hpi. clear Hts Hic Hpi Hus. revert fr.
  induction vs as [ | v vs IHvs ]; intros fr; simpl.
  - now rewrite app_nil_r.
  - rewrite IHvs. unfold visit. destruct callback; simpl; now rewrite <- app_assoc.
Qed.

Lemma after_stderr (vs : list FileRecord.t) (ds : list string) (fr : Frame U) :
  stderr (world (after callback vs ds fr)) = stderr (world fr) ++ ds.
Proof.
  unfold after.
  assert (Hvis : forall f : Frame U,
             stderr (world (fold_left (fun f r => visit callback r f) vs f))
             = stderr (world f)).
  { induction vs as [ | v vs IHvs ]; intros f; simpl; [ reflexivity | ].
    rewrite IHvs. unfold visit. destruct callback; reflexivity. }
  rewrite <- (Hvis fr).
  generalize (fold_left (fun f r => visit callback r f) vs fr). clear Hvis.
  induction ds as [ | d ds IHds ]; intros f; simpl.
  - now rewrite app_nil_r.
  - rewrite IHds. simpl. now rewrite <- app_assoc.
Qed.

End AfterFacts.

Lemma after_user_some {U} (cb : Progress.t -> U -> U)
    (vs : list FileRecord.t) (ds : list string) (fr : Frame U) :
  user (world (after (Some cb) vs ds fr)) =
  fold_left (fun u arg => cb arg u)
    (progress_of (totalSize fr) (itemCount fr) vs) (user (world fr)).
Proof.
  unfold after.
  destruct (console_errors_frame ds (fold_left (fun f r => visit (Some cb) r f) vs fr))
    as (Hts & Hic & Hpi & Hus).
  cbv zeta in Hts, Hic, Hpi, Hus. rewrite Hus. clear Hts Hic Hpi Hus. revert fr.
  induction vs as [ | v vs IHvs ]; intros fr; simpl; [ reflexivity | ].
  rewrite IHvs. reflexivity.
Qed.

Lemma after_user_none {U} (vs : list FileRecord.t) (ds : list string) (fr : Frame U) :
  user (world (after (@None (Progress.t -> U -> U)) vs ds fr)) = user (world fr).
Proof.
  unfold after.
  destruct (console_errors_frame ds (fold_left (fun f r => visit (@None (Progress.t -> U -> U)) r f) vs fr))
    as (Hts & Hic & Hpi & Hus).
  cbv zeta in Hts, Hic, Hpi, Hus. rewrite Hus. clear Hts Hic Hpi Hus. revert fr.
  induction vs as [ | v vs IHvs ]; intros fr; simpl; [ reflexivity | ].
  rewrite IHvs. reflexivity.
Qed.

(* ------------------------------------------------------------------ *)
(** * The walk on a presented tree *)

Section WalkFacts.

Context {U : Type}.
Variable disk : fs.Disk.
Variable callback : option (Callback U).

Lemma depth_entries_lt (entries : list (string * node)) (fuel : nat) :
  (depth (Dir entries) < S fuel)%nat ->
  Forall (fun entry => (depth (snd entry) < fuel)%nat) entries.
Proof.
  cbn [depth]. induction entries as [ | entry entries IHentries ];
    intros H; constructor; cbn [fold_right] in H.
  - lia.
  - apply IHentries. lia.
Qed.

(** With fuel above the depth of the tree and a callback that returns, the
    walk ends normally, and the closure variables hold the visited records
    and the diagnostics. *)
Lemma processDirectory_presented (pure : option (Progress.t -> U -> U))
    (T : node) :
  acts_as callback pure ->
  forall (through : bool) (p : string) (fuel : nat) (fr : Frame U),
    presents_as disk through p T = true ->
    (depth T < fuel)%nat ->
    processDirectory disk callback fuel p fr =
    (Normal (returned T), after pure (visited p T) (diagnostics p T) fr).
Proof.
  intros Hacts.
  induction T as [ | n | entries IHentries | | e | e | target IHtarget ]
    using node_induction;
    intros through p fuel fr Hp Hd;
    (destruct fuel as [ | fuel ]; [ simpl in Hd; lia | ]).
  - (* Missing *)
    simpl in Hp. apply andb_prop in Hp. destruct Hp as [_ Hex].
    simpl. unfold try_catch. rewrite Hex. reflexivity.
  - (* File *)
    simpl in Hp. apply andb_prop in Hp. destruct Hp as [Hp Hst].
    apply andb_prop in Hp. destruct Hp as [_ Hex].
    destruct (fs.statSync disk p) as [ s | ] eqn:Es; [ | discriminate ].
    apply andb_prop in Hst. destruct Hst as [Hfile Hsize].
    apply N.eqb_eq in Hsize. subst n.
    simpl. unfold try_catch, bind. rewrite Hex, Es. simpl. rewrite Hfile.
    unfold after, visit.
    destruct callback as [ cb | ], pure as [ g | ]; simpl in Hacts;
      try contradiction; [ | reflexivity ].
    unfold call. simpl. rewrite Hacts. reflexivity.
  - (* Dir *)
    simpl in Hp.
    apply andb_prop in Hp. destruct Hp as [Hp Hall].
    apply andb_prop in Hp. destruct Hp as [Hp Hrd].
    apply andb_prop in Hp. destruct Hp as [Hp Hst].
    apply andb_prop in Hp. destruct Hp as [_ Hex].
    destruct (fs.statSync disk p) as [ s | ] eqn:Es; [ | discriminate ].
    apply andb_prop in Hst. destruct Hst as [Hfile Hdir].
    apply negb_true_iff in Hfile.
    destruct (fs.readdirSync disk p) as [ names | ] eqn:Er; [ | discriminate ].
    apply names_eqb_eq in Hrd. subst names.
    apply depth_entries_lt in Hd.
    assert (Hloop :
      forEach (map fst entries)
        (fun file => processDirectory disk callback fuel (path.join p file)) fr =
      (Normal tt,
       after pure
         (flat_map (fun entry => visited (path.join p (fst entry)) (snd entry)) entries)
         (flat_map (fun entry => diagnostics (path.join p (fst entry)) (snd entry)) entries)
         fr)).
    { clear Hex Es Er Hfile Hdir. revert fr.
      induction entries as [ | [name child] entries IHloop ]; intros fr.
      - reflexivity.
      - inversion IHentries as [ | ? ? IHchild IHrest ]; subst.
        inversion Hd as [ | ? ? Hdchild Hdrest ]; subst.
        simpl in Hall. apply andb_prop in Hall. destruct Hall as [Hchild Hall].
        simpl in IHchild, Hdchild, Hchild.
        cbn [map forEach flat_map fst snd]. unfold bind at 1.
        rewrite (IHchild false _ _ fr Hchild Hdchild).
        rewrite (IHloop IHrest Hall Hdrest).
        rewrite after_app. reflexivity. }
    cbn [processDirectory]. unfold try_catch, bind at 1.
    rewrite Hex. cbn [negb]. rewrite Es. cbn [lift]. rewrite Hfile, Hdir.
    unfold bind at 1. rewrite Er. cbn [lift]. unfold bind at 1.
    rewrite Hloop. reflexivity.
  - (* Special *)
    simpl in Hp. apply andb_prop in Hp. destruct Hp as [Hp Hst].
    apply andb_prop in Hp. destruct Hp as [_ Hex].
    destruct (fs.statSync disk p) as [ s | ] eqn:Es; [ | discriminate ].
    apply andb_prop in Hst. destruct Hst as [Hfile Hdir].
    apply negb_true_iff in Hfile. apply negb_true_iff in Hdir.
    simpl. unfold try_catch, bind. rewrite Hex, Es. simpl. rewrite Hfile, Hdir.
    reflexivity.
  - (* StatFails *)
    simpl in Hp. apply andb_prop in Hp. destruct Hp as [Hp Hst].
    apply andb_prop in Hp. destruct Hp as [_ Hex].
    destruct (fs.statSync disk p) as [ s | e' ] eqn:Es; [ discriminate | ].
    simpl. unfold try_catch, bind. rewrite Hex, Es. reflexivity.
  - (* Unreadable *)
    simpl in Hp.
    apply andb_prop in Hp. destruct Hp as [Hp Hrd].
    apply andb_prop in Hp. destruct Hp as [Hp Hst].
    apply andb_prop in Hp. destruct Hp as [_ Hex].
    destruct (fs.statSync disk p) as [ s | ] eqn:Es; [ | discriminate ].
    apply andb_prop in Hst. destruct Hst as [Hfile Hdir].
    apply negb_true_iff in Hfile.
    destruct (fs.readdirSync disk p) as [ names | e' ] eqn:Er; [ discriminate | ].
    simpl. unfold try_catch, bind. rewrite Hex, Es. simpl. rewrite Hfile, Hdir, Er.
    reflexivity.
  - (* Link *)
    simpl in Hp. apply andb_prop in Hp. destruct Hp as [_ Hp].
    simpl in Hd. apply (IHtarget true p (S fuel) fr Hp Hd).
Qed.

(** Whatever the disk answers, a call of [processDirectory] never ends by
    throwing: the [catch] takes every exception raised in its [try] block,
    and the handler only writes a line. *)
Lemma processDirectory_never_throws (fuel : nat) (p : string) (fr : Frame U)
    (e : exception) :
  fst (processDirectory disk callback fuel p fr) <> Throw e.
Proof.
  destruct fuel as [ | fuel ]; [ simpl; discriminate | ].
  cbn [processDirectory]. unfold try_catch.
  match goal with
  | |- context [ match ?body fr with _ => _ end ] =>
      destruct (body fr) as [[ r | e' | ] f']
  end; simpl; discriminate.
Qed.

(** With fuel above the depth of the tree the walk ends normally, whatever
    the callback does. *)
Lemma processDirectory_finishes (T : node) :
  forall (through : bool) (p : string) (fuel : nat) (fr : Frame U),
    presents_as disk through p T = true ->
    (depth T < fuel)%nat ->
    exists r fr', processDirectory disk callback fuel p fr = (Normal r, fr').
Proof.
  induction T as [ | n | entries IHentries | | e | e | target IHtarget ]
    using node_induction;
    intros through p fuel fr Hp Hd;
    (destruct fuel as [ | fuel ]; [ simpl in Hd; lia | ]).
  - (* Missing *)
    simpl in Hp. apply andb_prop in Hp. destruct Hp as [_ Hex].
    simpl. unfold try_catch. rewrite Hex. eexists. eexists. reflexivity.
  - (* File *)
    simpl in Hp. apply andb_prop in Hp. destruct Hp as [Hp Hst].
    apply andb_prop in Hp. destruct Hp as [_ Hex].
    destruct (fs.statSync disk p) as [ s | ] eqn:Es; [ | discriminate ].
    apply andb_prop in Hst. destruct Hst as [Hfile Hsize].
    simpl. unfold try_catch, bind. rewrite Hex, Es. simpl. rewrite Hfile.
    destruct callback as [ cb | ]; [ | eexists; eexists; reflexivity ].
    unfold call. simpl.
    match goal with
    | |- context [ cb ?arg ?u ] => destruct (cb arg u) as [[ exn | ] u']
    end; simpl; eexists; eexists; reflexivity.
  - (* Dir *)
    simpl in Hp.
    apply andb_prop in Hp. destruct Hp as [Hp Hall].
    apply andb_prop in Hp. destruct Hp as [Hp Hrd].
    apply andb_prop in Hp. destruct Hp as [Hp Hst].
    apply andb_prop in Hp. destruct Hp as [_ Hex].
    destruct (fs.statSync disk p) as [ s | ] eqn:Es; [ | discriminate ].
    apply andb_prop in Hst. destruct Hst as [Hfile Hdir].
    apply negb_true_iff in Hfile.
    destruct (fs.readdirSync disk p) as [ names | ] eqn:Er; [ | discriminate ].
    apply names_eqb_eq in Hrd. subst names.
    apply depth_entries_lt in Hd.
    assert (Hloop : exists fr',
      forEach (map fst entries)
        (fun file => processDirectory disk callback fuel (path.join p file)) fr =
      (Normal tt, fr')).
    { clear Hex Es Er Hfile Hdir. revert fr.
      induction entries as [ | [name child] entries IHloop ]; intros fr.
      - eexists. reflexivity.
      - inversion IHentries as [ | ? ? IHchild IHrest ]; subst.
        inversion Hd as [ | ? ? Hdchild Hdrest ]; subst.
        simpl in Hall. apply andb_prop in Hall. destruct Hall as [Hchild Hall].
        simpl in IHchild, Hdchild, Hchild.
        cbn [map forEach flat_map fst snd]. unfold bind at 1.
        destruct (IHchild false _ _ fr Hchild Hdchild) as (r & fr1 & Hrun).
        rewrite Hrun. apply (IHloop IHrest Hall Hdrest). }
    destruct Hloop as (fr' & Hloop).
    cbn [processDirectory]. unfold try_catch, bind at 1.
    rewrite Hex. cbn [negb]. rewrite Es. cbn [lift]. rewrite Hfile, Hdir.
    unfold bind at 1. rewrite Er. cbn [lift]. unfold bind at 1.
    rewrite Hloop. eexists. eexists. reflexivity.
  - (* Special *)
    simpl in Hp. apply andb_prop in Hp. destruct Hp as [Hp Hst].
    apply andb_prop in Hp. destruct Hp as [_ Hex].
    destruct (fs.statSync disk p) as [ s | ] eqn:Es; [ | discriminate ].
    apply andb_prop in Hst. destruct Hst as [Hfile Hdir].
    apply negb_true_iff in Hfile. apply negb_true_iff in Hdir.
    simpl. unfold try_catch, bind. rewrite Hex, Es. simpl. rewrite Hfile, Hdir.
    eexists. eexists. reflexivity.
  - (* StatFails *)
    simpl in Hp. apply andb_prop in Hp. destruct Hp as [Hp Hst].
    apply andb_prop in Hp. destruct Hp as [_ Hex].
    destruct (fs.statSync disk p) as [ s | e' ] eqn:Es; [ discriminate | ].
    simpl. unfold try_catch, bind. rewrite Hex, Es. eexists. eexists. reflexivity.
  - (* Unreadable *)
    simpl in Hp.
    apply andb_prop in Hp. destruct Hp as [Hp Hrd].
    apply andb_prop in Hp. destruct Hp as [Hp Hst].
    apply andb_prop in Hp. destruct Hp as [_ Hex].
    destruct (fs.statSync disk p) as [ s | ] eqn:Es; [ | discriminate ].
    apply andb_prop in Hst. destruct Hst as [Hfile Hdir].
    apply negb_true_iff in Hfile.
    destruct (fs.readdirSync disk p) as [ names | e' ] eqn:Er; [ discriminate | ].
    simpl. unfold try_catch, bind. rewrite Hex, Es. simpl. rewrite Hfile, Hdir, Er.
    eexists. eexists. reflexivity.
  - (* Link *)
    simpl in Hp. apply andb_prop in Hp. destruct Hp as [_ Hp].
    simpl in Hd. apply (IHtarget true p (S fuel) fr Hp Hd).
Qed.

End WalkFacts.

(* ------------------------------------------------------------------ *)
(** * Every walk that ends has a tree *)

Lemma names_eqb_refl (xs : list string) : names_eqb xs xs = true.
Proof.
  induction xs as [ | x xs IHxs ]; simpl; [ reflexivity | ].
  now rewrite String.eqb_refl, IHxs.
Qed.

Lemma presents_plain (disk : fs.Disk) (p : string) (T : node) :
  plain T = true ->
  presents_as disk true p T = true ->
  presents disk p (if is_link disk p then Link T else T) = true.
Proof.
  intros Hplain Hp. unfold presents.
  destruct (is_link disk p) eqn:Hl.
  - cbn [presents_as]. rewrite Hl. exact Hp.
  - destruct T; try discriminate; cbn [presents_as] in *; rewrite Hl; exact Hp.
Qed.

Lemma depth_dir_lt (entries : list (string * node)) (fuel : nat) :
  Forall (fun entry => (depth (snd entry) < fuel)%nat) entries ->
  (depth (Dir entries) < S fuel)%nat.
Proof.
  intros H. cbn [depth].
  induction H as [ | entry entries Hentry _ IH ]; cbn [fold_right]; lia.
Qed.

Lemma errno_eqb_refl (e : fs.errno) : fs.errno_eqb e e = true.
Proof. destruct e; reflexivity. Qed.

(** With any fuel and on any disk, either the disk presents at the path a
    tree that the fuel covers, or the walk runs out of fuel.  So the
    theorems on presented trees speak of every walk that ends. *)
Lemma walk_has_tree {U} (disk : fs.Disk)
    (callback : option (Callback U)) (fuel : nat) :
  forall p,
    (exists T, plain T = true /\ presents_as disk true p T = true /\
               (depth T < fuel)%nat) \/
    (forall fr, fst (processDirectory disk callback fuel p fr) = OutOfFuel).
Proof.
  induction fuel as [ | fuel IHfuel ]; intros p.
  - right. intros fr. reflexivity.
  - destruct (fs.existsSync disk p) eqn:Hex.
    2:{ left. exists Missing. cbn. rewrite Hex. repeat split. lia. }
    destruct (fs.statSync disk p) as [ s | e ] eqn:Es.
    2:{ left. exists (StatFails e). cbn. rewrite Hex, Es, errno_eqb_refl.
        repeat split. lia. }
    destruct (fs.isFile s) eqn:Hfile.
    { left. exists (File (fs.size s)). cbn. rewrite Hex, Es, Hfile, N.eqb_refl.
      repeat split. lia. }
    destruct (fs.isDirectory s) eqn:Hdir.
    2:{ left. exists Special. cbn. rewrite Hex, Es, Hfile, Hdir.
        repeat split. lia. }
    destruct (fs.readdirSync disk p) as [ names | e ] eqn:Er.
    2:{ left. exists (Unreadable e). cbn.
        rewrite Hex, Es, Hfile, Hdir, Er, errno_eqb_refl. repeat split. lia. }
    assert (Hchildren :
      (exists entries,
         map fst entries = names /\
         forallb (fun entry =>
                    presents_as disk false (path.join p (fst entry)) (snd entry))
           entries = true /\
         Forall (fun entry => (depth (snd entry) < fuel)%nat) entries) \/
      (forall fr,
         fst (forEach names
                (fun file => processDirectory disk callback fuel (path.join p file))
                fr) = OutOfFuel)).
    { clear Er. induction names as [ | name names IHnames ].
      - left. exists []. repeat split. constructor.
      - destruct (IHfuel (path.join p name)) as [(T & Hplain & Hp & Hd) | Hout].
        + pose proof (presents_plain disk _ T Hplain Hp) as Hpres.
          set (T' := if is_link disk (path.join p name) then Link T else T) in *.
          assert (Hd' : (depth T' < fuel)%nat)
            by (unfold T'; destruct (is_link disk (path.join p name)); exact Hd).
          destruct IHnames as [(entries & Hnames & Hall & Hdepths) | Hout].
          * left. exists ((name, T') :: entries). cbn [map fst snd forallb].
            rewrite Hnames. unfold presents in Hpres. rewrite Hpres, Hall.
            repeat split. constructor; assumption.
          * right. intros fr. cbn [forEach]. unfold bind at 1.
            destruct (processDirectory_finishes disk callback T' false _ fuel fr
                        Hpres Hd') as (r & fr1 & Hrun).
            rewrite Hrun. apply Hout.
        + right. intros fr. cbn [forEach]. unfold bind at 1.
          specialize (Hout fr).
          destruct (processDirectory disk callback fuel (path.join p name) fr)
            as [[ r | e | ] fr']; simpl in Hout; try discriminate. reflexivity. }
    destruct Hchildren as [(entries & Hnames & Hall & Hdepths) | Hout].
    + left. exists (Dir entries). cbn [plain presents_as orb].
      rewrite Hex, Es, Hfile, Hdir, Er, Hnames, names_eqb_refl, Hall.
      repeat split. apply depth_dir_lt. exact Hdepths.
    + right. intros fr. cbn [processDirectory]. unfold try_catch, bind at 1.
      rewrite Hex. cbn [negb]. rewrite Es. cbn [lift]. rewrite Hfile, Hdir.
      unfold bind at 1. rewrite Er. cbn [lift]. unfold bind at 1.
      specialize (Hout fr).
      destruct (forEach names _ fr) as [[ r | e | ] fr'];
        simpl in Hout; try discriminate. reflexivity.
Qed.

Lemma finished_walk_has_tree {U} (disk : fs.Disk)
    (callback : option (Callback U))
    (fuel : nat) (p : string) (w w' : World U) (r : DirectorySize.t) :
  getDirectorySize disk callback fuel p w = (Normal r, w') ->
  exists T, presents disk p T = true /\ (depth T < fuel)%nat.
Proof.
  intros Hrun.
  destruct (walk_has_tree disk callback fuel p) as [(T & Hplain & Hp & Hd) | Hout].
  - exists (if is_link disk p then Link T else T). split.
    + apply presents_plain; assumption.
    + destruct (is_link disk p); exact Hd.
  - exfalso. unfold getDirectorySize in Hrun.
    specialize (Hout (Build_Frame 0 0 [] w)).
    destruct (processDirectory disk callback fuel p (Build_Frame 0 0 [] w))
      as [[ r0 | e | ] fr]; simpl in Hout; discriminate.
Qed.

(* ------------------------------------------------------------------ *)
(** * [getDirectorySize] on a presented tree *)

Lemma normal_pair_inv {A St} (a b : A) (s t : St) :
  (Normal a, s) = (Normal b, t) -> a = b /\ s = t.
Proof. intros H. injection H as Ha Hs. split; assumption. Qed.

Lemma world_eq {U} (w1 w2 : World U) :
  stderr w1 = stderr w2 -> user w1 = user w2 -> w1 = w2.
Proof. destruct w1, w2; simpl; intros; subst; reflexivity. Qed.

(** One call of [processDirectory], branch by branch. *)
Lemma processDirectory_step {U} (disk : fs.Disk) (callback : option (Callback U))
    (fuel : nat) (p : string) (fr : Frame U) :
  processDirectory disk callback (S fuel) p fr =
  let failed := console_error ("Cannot access: " +++ p) in
  if fs.existsSync disk p then
    match fs.statSync disk p with
    | fs.Err _ => (Normal None, failed fr)
    | fs.Ok stats =>
        if fs.isFile stats then
          let fr1 :=
            push {| FileRecord.path := p; FileRecord.size := fs.size stats;
                    FileRecord.name := path.basename p |}
              (set_itemCount (itemCount fr + 1)
                 (set_totalSize (number_add (totalSize fr) (fs.size stats)) fr)) in
          match callback with
          | Some cb =>
              let r := cb {| Progress.currentFile := path.basename p;
                             Progress.totalSize := totalSize fr1;
                             Progress.itemCount := itemCount fr1;
                             Progress.inProgress := true |} (user (world fr1)) in
              match fst r with
              | None => (Normal None, set_user (snd r) fr1)
              | Some _ => (Normal None, failed (set_user (snd r) fr1))
              end
          | None => (Normal None, fr1)
          end
        else if fs.isDirectory stats then
          match fs.readdirSync disk p with
          | fs.Err _ => (Normal None, failed fr)
          | fs.Ok files =>
              match forEach files
                      (fun file => processDirectory disk callback fuel (path.join p file))
                      fr with
              | (Normal _, fr') => (Normal None, fr')
              | (Throw _, fr') => (Normal None, failed fr')
              | (OutOfFuel, fr') => (OutOfFuel, fr')
              end
          end
        else (Normal None, fr)
    end
  else (Normal (Some {| Totals.size := 0; Totals.items := 0 |}), fr).
Proof.
  cbn [processDirectory]. unfold try_catch. cbv zeta.
  destruct (fs.existsSync disk p); cbn [negb]; [ | reflexivity ].
  unfold bind at 1. destruct (fs.statSync disk p) as [ s | e ]; cbn [lift];
    [ | reflexivity ].
  destruct (fs.isFile s).
  - destruct callback as [ cb | ]; [ | reflexivity ].
    unfold call, bind, gets, modify, ret. cbn.
    match goal with
    | |- context [ cb ?arg ?u ] => destruct (cb arg u) as [[ exn | ] u']
    end; reflexivity.
  - destruct (fs.isDirectory s); [ | reflexivity ].
    unfold bind at 1. destruct (fs.readdirSync disk p) as [ names | e ]; cbn [lift];
      [ | reflexivity ].
    unfold bind at 1.
    destruct (forEach names _ fr) as [[ r | e | ] fr']; reflexivity.
Qed.

(** The numbers and the records of a walk do not depend on the callback,
    whether it returns or throws. *)
Lemma processDirectory_counters {U1 U2} (disk : fs.Disk)
    (cb1 : option (Callback U1)) (cb2 : option (Callback U2)) (fuel : nat) :
  forall (p : string) (f1 : Frame U1) (f2 : Frame U2),
    same_counters f1 f2 ->
    same_completion (fst (processDirectory disk cb1 fuel p f1))
                    (fst (processDirectory disk cb2 fuel p f2)) /\
    same_counters (snd (processDirectory disk cb1 fuel p f1))
                  (snd (processDirectory disk cb2 fuel p f2)).
Proof.
  induction fuel as [ | fuel IHfuel ]; intros p f1 f2 Hsame.
  - split; [ exact I | exact Hsame ].
  - rewrite !processDirectory_step. cbv zeta.
    destruct (fs.existsSync disk p); [ | split; [ reflexivity | exact Hsame ] ].
    destruct (fs.statSync disk p) as [ s | e ];
      [ | split; [ reflexivity | exact Hsame ] ].
    destruct (fs.isFile s).
    + destruct f1 as [t1 c1 i1 w1], f2 as [t2 c2 i2 w2].
      destruct Hsame as (Ht & Hc & Hi). simpl in Ht, Hc, Hi. subst t2 c2 i2.
      destruct cb1 as [ k1 | ], cb2 as [ k2 | ]; cbn [user world push set_itemCount
        set_totalSize totalSize itemCount processedItems];
        repeat match goal with
               | |- context [ fst (?k ?arg ?u) ] =>
                   destruct (k arg u) as [[ ? | ] ?]; cbn [fst snd]
               end;
        repeat split.
    + destruct (fs.isDirectory s); [ | split; [ reflexivity | exact Hsame ] ].
      destruct (fs.readdirSync disk p) as [ names | e ];
        [ | split; [ reflexivity | exact Hsame ] ].
      assert (Hloop : forall g1 g2, same_counters g1 g2 ->
        same_completion
          (fst (forEach names
                  (fun file => processDirectory disk cb1 fuel (path.join p file)) g1))
          (fst (forEach names
                  (fun file => processDirectory disk cb2 fuel (path.join p file)) g2)) /\
        same_counters
          (snd (forEach names
                  (fun file => processDirectory disk cb1 fuel (path.join p file)) g1))
          (snd (forEach names
                  (fun file => processDirectory disk cb2 fuel (path.join p file)) g2))).
      { induction names as [ | name names IHnames ]; intros g1 g2 Hg.
        - split; [ reflexivity | exact Hg ].
        - cbn [forEach]. unfold bind.
          destruct (IHfuel (path.join p name) g1 g2 Hg) as [Hc Hf].
          destruct (processDirectory disk cb1 fuel (path.join p name) g1)
            as [[ r1 | e1 | ] h1];
          destruct (processDirectory disk cb2 fuel (path.join p name) g2)
            as [[ r2 | e2 | ] h2];
            simpl in Hc, Hf; try contradiction.
          + apply IHnames. exact Hf.
          + split; [ exact I | exact Hf ].
          + split; [ exact I | exact Hf ]. }
      destruct (Hloop f1 f2 Hsame) as [Hc Hf].
      destruct (forEach names _ f1) as [[ r1 | e1 | ] h1];
      destruct (forEach names _ f2) as [[ r2 | e2 | ] h2];
        simpl in Hc, Hf; try contradiction; simpl.
      * split; [ reflexivity | exact Hf ].
      * split; [ reflexivity | exact Hf ].
      * split; [ exact I | exact Hf ].
Qed.

Lemma getDirectorySize_never_throws {U} (disk : fs.Disk)
    (callback : option (Callback U))
    (fuel : nat) (p : string) (w : World U) (e : exception) :
  fst (getDirectorySize disk callback fuel p w) <> Throw e.
Proof.
  unfold getDirectorySize.
  pose proof (processDirectory_never_throws disk callback fuel p
                (Build_Frame 0 0 [] w)) as Hnt.
  destruct (processDirectory disk callback fuel p (Build_Frame 0 0 [] w))
    as [[ r | e' | ] fr]; simpl in Hnt |- *.
  - discriminate.
  - exfalso. apply (Hnt e'). reflexivity.
  - discriminate.
Qed.

Lemma acts_as_returning {U} (callback : option (Progress.t -> U -> U)) :
  acts_as (option_map returning callback) callback.
Proof. destruct callback; simpl; [ reflexivity | exact I ]. Qed.

Lemma getDirectorySize_acts_as {U} (disk : fs.Disk)
    (callback : option (Callback U)) (pure : option (Progress.t -> U -> U))
    (T : node) (p : string) (fuel : nat) (w : World U) :
  acts_as callback pure ->
  presents disk p T = true ->
  (depth T < fuel)%nat ->
  getDirectorySize disk callback fuel p w =
  (Normal (data_of (visited p T)),
   Build_World (stderr w ++ diagnostics p T)
     (user_after pure (visited p T) (user w))).
Proof.
  intros Hacts Hp Hd. unfold getDirectorySize, presents in *.
  rewrite (processDirectory_presented disk callback pure T Hacts false p fuel _ Hp Hd).
  unfold data_of, number_sum.
  rewrite after_totalSize, after_itemCount, after_processedItems. simpl.
  f_equal. apply world_eq; simpl.
  - rewrite after_stderr. reflexivity.
  - unfold user_after. destruct pure as [ cb | ].
    + rewrite after_user_some. reflexivity.
    + rewrite after_user_none. reflexivity.
Qed.

Lemma getDirectorySize_presented {U} (disk : fs.Disk)
    (callback : option (Progress.t -> U -> U))
    (T : node) (p : string) (fuel : nat) (w : World U) :
  presents disk p T = true ->
  (depth T < fuel)%nat ->
  getDirectorySize disk (option_map returning callback) fuel p w =
  (Normal (data_of (visited p T)),
   Build_World (stderr w ++ diagnostics p T)
     (user_after callback (visited p T) (user w))).
Proof. apply getDirectorySize_acts_as, acts_as_returning. Qed.

(** On a presented tree the call returns the same object whatever the
    callback does. *)
Lemma getDirectorySize_any_callback {U} (disk : fs.Disk)
    (callback : option (Callback U))
    (T : node) (p : string) (fuel : nat) (w : World U) :
  presents disk p T = true ->
  (depth T < fuel)%nat ->
  exists w',
    getDirectorySize disk callback fuel p w = (Normal (data_of (visited p T)), w').
Proof.
  intros Hp Hd.
  pose proof (getDirectorySize_acts_as disk None None T p fuel w I Hp Hd) as Hnone.
  remember (data_of (visited p T)) as d eqn:Ed.
  unfold getDirectorySize in *.
  destruct (processDirectory_counters disk callback (@None (Callback U)) fuel p
              (Build_Frame 0 0 [] w) (Build_Frame 0 0 [] w))
    as [Hc Hf]; [ repeat split | ].
  destruct (processDirectory disk callback fuel p (Build_Frame 0 0 [] w))
    as [[ r1 | e1 | ] f1];
  destruct (processDirectory disk None fuel p (Build_Frame 0 0 [] w))
    as [[ r2 | e2 | ] f2];
    simpl in Hc, Hf; try contradiction; try discriminate.
  destruct Hf as (Ht & Hi & Hr). rewrite Ht, Hi, Hr.
  injection Hnone as Hdata _. rewrite Hdata. eexists. reflexivity.
Qed.

Lemma fold_number_add_exact (xs : list N) :
  forall t, t + sum xs <= two53 -> fold_left number_add xs t = t + sum xs.
Proof.
  unfold sum. induction xs as [ | x xs IHxs ]; intros t Hb; simpl in *.
  - lia.
  - rewrite number_add_exact by lia. rewrite IHxs by lia. lia.
Qed.

Lemma number_sum_exact (xs : list N) : sum xs <= two53 -> number_sum xs = sum xs.
Proof. intros Hb. unfold number_sum. now rewrite fold_number_add_exact. Qed.

(** The sizes a disk presents are doubles. *)
Lemma reached_sizes_doubles (disk : fs.Disk) (T : node) :
  forall through p,
    presents_as disk through p T = true ->
    Forall (fun n => to_double n = n) (reached_sizes T).
Proof.
  induction T as [ | n | entries IHentries | | e | e | target IHtarget ]
    using node_induction; intros through p Hp; simpl; try constructor.
  - simpl in Hp. apply andb_prop in Hp. destruct Hp as [_ Hst].
    destruct (fs.statSync disk p) as [ s | ]; [ | discriminate ].
    apply andb_prop in Hst. destruct Hst as [_ Hsize].
    apply N.eqb_eq in Hsize. subst n. apply to_double_idempotent.
  - constructor.
  - simpl in Hp. apply andb_prop in Hp. destruct Hp as [_ Hall].
    induction IHentries as [ | entry entries IHentry _ IHrest ]; simpl.
    + constructor.
    + simpl in Hall. apply andb_prop in Hall. destruct Hall as [Hentry Hall].
      apply Forall_app. split; [ apply (IHentry _ _ Hentry) | apply IHrest, Hall ].
  - simpl in Hp. apply andb_prop in Hp. destruct Hp as [_ Hp].
    apply (IHtarget _ _ Hp).
Qed.

Lemma sizes_of_visited (T : node) :
  forall p, sizes_of (visited p T) = reached_sizes T.
Proof.
  induction T as [ | n | entries IHentries | | e | e | target IHtarget ]
    using node_induction; intros p; simpl; try reflexivity.
  - induction IHentries as [ | entry entries IHentry _ IHrest ]; simpl.
    + reflexivity.
    + unfold sizes_of in *. rewrite map_app, IHentry, IHrest. reflexivity.
  - apply IHtarget.
Qed.

Lemma length_visited (T : node) (p : string) :
  List.length (visited p T) = List.length (reached_sizes T).
Proof.
  rewrite <- (sizes_of_visited T p). unfold sizes_of. now rewrite length_map.
Qed.

Lemma reached_link_free (T : node) :
  link_free T = true -> reached_sizes T = spec_regular_sizes T.
Proof.
  induction T as [ | n | entries IHentries | | e | e | target IHtarget ]
    using node_induction; simpl; intros H; try reflexivity; try discriminate.
  induction IHentries as [ | entry entries IHentry _ IHrest ]; simpl in *.
  - reflexivity.
  - apply andb_prop in H. destruct H as [Hentry Hrest].
    rewrite (IHentry Hentry), (IHrest Hrest). reflexivity.
Qed.

Lemma visited_fails (T : node) (p : string) : fails T = true -> visited p T = [].
Proof.
  destruct T as [ | | | | | | [ | | | | | | ] ]; simpl; intros H;
    try discriminate; reflexivity.
Qed.

Lemma diagnostics_fails (T : node) (p : string) :
  fails T = true -> diagnostics p T = ["Cannot access: " +++ p].
Proof.
  destruct T as [ | | | | | | [ | | | | | | ] ]; simpl; intros H;
    try discriminate; reflexivity.
Qed.

Lemma visited_dir_app (p : string) (xs ys : list (string * node)) :
  visited p (Dir (xs ++ ys)) = visited p (Dir xs) ++ visited p (Dir ys).
Proof. simpl. apply flat_map_app. Qed.

Lemma diagnostics_dir_app (p : string) (xs ys : list (string * node)) :
  diagnostics p (Dir (xs ++ ys)) = diagnostics p (Dir xs) ++ diagnostics p (Dir ys).
Proof. simpl. apply flat_map_app. Qed.

(** Sample runs. *)
Example formatBytes_samples :
  formatBytes 0 = "0 B" /\ formatBytes 1 = "1 B" /\ formatBytes 1023 = "1023 B" /\
  formatBytes 1024 = "1 KB" /\ formatBytes 1536 = "1.5 KB" /\
  formatBytes 1234567 = "1.18 MB" /\
  formatBytes 1073741824 = "1 GB" /\ formatBytes 1099511627776 = "1 undefined".
Proof. vm_compute. repeat split. Qed.

Example mixed_run :
  presents (disk_of_table mixed_table) "/d" mixed_tree = true /\
  getDirectorySize (disk_of_table mixed_table) None 2 "/d" empty_world =
  (Normal {| DirectorySize.size := 300; DirectorySize.items := 1;
             DirectorySize.files :=
               [{| FileRecord.path := "/d/f"; FileRecord.size := 300;
                   FileRecord.name := "f" |}] |},
   Build_World ["Cannot access: /d/locked"] tt).
Proof. split; vm_compute; reflexivity. Qed.

Example home_run :
  scan_ready home_disk "/h" home_tree 3 = true /\
  scanSafariStorage home_disk "/h" (Some keep) 3 quiet_world =
  (Normal (scan_results "/h" home_tree categories initial_results),
   Build_World ["Cannot access: /h/Library/Caches/com.apple.Safari"]
     (scan_events "/h" home_tree categories initial_results)).
Proof. split; vm_compute; reflexivity. Qed.

(** The start event holds [results.total] itself: read after the scan, the
    first event of the sample run shows the final total, 700 bytes in 5
    items, where it showed 0 and 0 during the call. *)
Example kept_start_event_reads_final_total :
  hd_error (scan_events "/h" home_tree categories initial_results) =
    Some (Scanning cookies "Scanning Browsing cookies..."
            {| Totals.size := 0; Totals.items := 0 |}) /\
  option_map
    (read_after (Results.total (scan_results "/h" home_tree categories initial_results)))
    (hd_error (scan_events "/h" home_tree categories initial_results)) =
    Some (Scanning cookies "Scanning Browsing cookies..."
            {| Totals.size := 700; Totals.items := 5 |}).
Proof. split; vm_compute; reflexivity. Qed.

(* ------------------------------------------------------------------ *)
(** * The directory size accumulator: claims *)

(** C1, as the code has it.  For every directory tree presented at a path
    and whatever the callback does, [getDirectorySize] returns; its item
    count is the number of regular files the walk reaches and its size is
    their byte sizes added in the order of the walk, as doubles, where a
    symbolic link stands for its target (a link to a regular file is
    counted as that file, a link to a directory is descended into) and
    special nodes count nothing.  As long as the sum of the sizes does not
    exceed 2^53 the size is that exact sum, and on a tree without symbolic
    links it is the measure of the spec. *)
Theorem getDirectorySize_measures_reached_files {U} (disk : fs.Disk)
    (callback : option (Callback U))
    (T : node) (p : string) (fuel : nat) (w : World U) :
  presents disk p T = true ->
  (depth T < fuel)%nat ->
  exists r w',
    getDirectorySize disk callback fuel p w = (Normal r, w') /\
    DirectorySize.size r = number_sum (reached_sizes T) /\
    DirectorySize.items r = N.of_nat (List.length (reached_sizes T)) /\
    (sum (reached_sizes T) <= two53 ->
     DirectorySize.size r = sum (reached_sizes T) /\
     (link_free T = true ->
      DirectorySize.size r = Totals.size (spec_measure T) /\
      DirectorySize.items r = Totals.items (spec_measure T))).
Proof.
  intros Hp Hd.
  destruct (getDirectorySize_any_callback disk callback T p fuel w Hp Hd)
    as (w' & Hrun).
  eexists. eexists. split; [ exact Hrun | ].
  simpl. rewrite sizes_of_visited, length_visited.
  split; [ reflexivity | ]. split; [ reflexivity | ].
  intros Hb. rewrite (number_sum_exact _ Hb). split; [ reflexivity | ].
  intros Hfree. rewrite <- (reached_link_free T Hfree). split; reflexivity.
Qed.

Lemma getDirectorySize_measures_reached_files_witness :
  presents (disk_of_table mixed_table) "/d" mixed_tree = true /\
  sum (reached_sizes mixed_tree) <= two53 /\
  link_free mixed_tree = true /\
  exists r w',
    getDirectorySize (disk_of_table mixed_table) (Some throwing_callback) 2 "/d"
      empty_world
    = (Normal r, w') /\
    DirectorySize.items r = N.of_nat (List.length (reached_sizes mixed_tree)) /\
    DirectorySize.size r = sum (reached_sizes mixed_tree) /\
    DirectorySize.size r = Totals.size (spec_measure mixed_tree) /\
    DirectorySize.items r = Totals.items (spec_measure mixed_tree).
Proof.
  assert (Hbound : sum (reached_sizes mixed_tree) <= two53)
    by (vm_compute; discriminate).
  split; [ reflexivity | ]. split; [ exact Hbound | ]. split; [ reflexivity | ].
  destruct (getDirectorySize_measures_reached_files
              (disk_of_table mixed_table) (Some throwing_callback) mixed_tree "/d" 2
              empty_world eq_refl (Nat.lt_succ_diag_r 1))
    as (r & w' & Hrun & _ & Hitems & Hexact).
  destruct (Hexact Hbound) as [Hsize Hfree].
  destruct (Hfree eq_refl) as [Hspec_size Hspec_items].
  exists r, w'. repeat split; assumption.
Defined.

(** C1 as the spec states it fails: a directory that holds a file of 10
    bytes and a symbolic link to it is measured as 20 bytes in 2 items,
    while the regular files below it, links excluded, are 10 bytes in 1
    item. *)
Lemma getDirectorySize_counts_symlinked_file :
  presents (disk_of_table linked_table) "/r" linked_tree = true /\
  spec_measure linked_tree = {| Totals.size := 10; Totals.items := 1 |} /\
  exists r w',
    getDirectorySize (disk_of_table linked_table) None 2 "/r" empty_world
    = (Normal r, w') /\
    DirectorySize.size r = 20 /\ DirectorySize.items r = 2 /\
    DirectorySize.size r <> Totals.size (spec_measure linked_tree) /\
    DirectorySize.items r <> Totals.items (spec_measure linked_tree).
Proof.
  split; [ reflexivity | ]. split; [ reflexivity | ].
  eexists. eexists. split; [ vm_compute; reflexivity | ].
  simpl. repeat split; discriminate.
Qed.

(** C3.  When the root path does not exist, [getDirectorySize] returns size
    0, items 0 and an empty list of files; it does not throw, writes no
    diagnostic and does not call the callback. *)
Theorem getDirectorySize_missing_root {U} (disk : fs.Disk)
    (callback : option (Callback U))
    (fuel : nat) (rootPath : string) (w : World U) :
  fs.existsSync disk rootPath = false ->
  getDirectorySize disk callback (S fuel) rootPath w =
  (Normal {| DirectorySize.size := 0; DirectorySize.items := 0;
             DirectorySize.files := [] |}, w).
Proof.
  intros Hex. unfold getDirectorySize. cbn [processDirectory].
  unfold try_catch. rewrite Hex. reflexivity.
Qed.

Lemma getDirectorySize_missing_root_witness :
  fs.existsSync (disk_of_table mixed_table) "/nowhere" = false /\
  getDirectorySize (disk_of_table mixed_table) None 1 "/nowhere" empty_world =
  (Normal {| DirectorySize.size := 0; DirectorySize.items := 0;
             DirectorySize.files := [] |}, empty_world).
Proof.
  split; [ reflexivity | ].
  apply (getDirectorySize_missing_root (disk_of_table mixed_table) None 0
           "/nowhere" empty_world).
  reflexivity.
Defined.

Lemma visited_prune (T : node) :
  forall p, visited p T = visited p (prune T).
Proof.
  induction T as [ | n | entries IHentries | | e | e | target IHtarget ]
    using node_induction; intros p; try reflexivity.
  - cbn [prune visited].
    induction IHentries as [ | entry entries IHentry _ IHrest ]; [ reflexivity | ].
    cbn [flat_map]. rewrite flat_map_app, <- IHrest.
    destruct (fails (snd entry)) eqn:Hf.
    + rewrite (visited_fails _ _ Hf). reflexivity.
    + cbn [flat_map fst snd]. rewrite app_nil_r, <- IHentry. reflexivity.
  - cbn [prune visited]. apply IHtarget.
Qed.

Lemma length_diagnostics (T : node) :
  forall p, List.length (diagnostics p T) = failures T.
Proof.
  induction T as [ | n | entries IHentries | | e | e | target IHtarget ]
    using node_induction; intros p; try reflexivity.
  - cbn [diagnostics failures].
    induction IHentries as [ | entry entries IHentry _ IHrest ]; [ reflexivity | ].
    cbn [flat_map fold_right]. rewrite length_app, IHentry, IHrest. reflexivity.
  - cbn [diagnostics failures]. apply IHtarget.
Qed.

(** C4.  An access failure at a node is caught at that node.  No call of
    [getDirectorySize] ends by throwing, whatever the disk answers.  On a
    tree with failing nodes ([statSync] or [readdirSync] throws: permission
    denied, disappearance, I/O error) the call returns what the tree
    without those nodes gives, and writes one diagnostic line per failing
    node.  When an entry of the root directory fails, every sibling, before
    and after, is walked.  In particular a directory with one unreadable
    subdirectory and one readable file yields the size of that file and one
    item. *)
Theorem getDirectorySize_absorbs_access_failures {U} (disk : fs.Disk)
    (callback : option (Progress.t -> U -> U))
    (T : node) (p : string) (fuel : nat) (w : World U) :
  presents disk p T = true ->
  (depth T < fuel)%nat ->
  (forall (any : option (Callback U)) fuel' p' w' e,
     fst (getDirectorySize disk any fuel' p' w') <> Throw e) /\
  (exists w',
     getDirectorySize disk (option_map returning callback) fuel p w
     = (Normal (data_of (visited p (prune T))), w') /\
     stderr w' = stderr w ++ diagnostics p T /\
     List.length (diagnostics p T) = failures T /\
     user w' = user_after callback (visited p (prune T)) (user w)) /\
  (forall earlier name bad later,
     T = Dir (earlier ++ (name, bad) :: later) ->
     fails bad = true ->
     exists w',
       getDirectorySize disk (option_map returning callback) fuel p w
       = (Normal (data_of (visited p (Dir (earlier ++ later)))), w') /\
       In ("Cannot access: " +++ path.join p name) (stderr w')) /\
  (forall sub e file n,
     T = Dir [(sub, Unreadable e); (file, File n)] ->
     exists r,
       fst (getDirectorySize disk (option_map returning callback) fuel p w) = Normal r /\
       DirectorySize.size r = n /\ DirectorySize.items r = 1 /\
       map FileRecord.path (DirectorySize.files r) = [path.join p file]).
Proof.
  intros Hp Hd.
  assert (Hrun := getDirectorySize_presented disk callback _ p fuel w Hp Hd).
  split; [ | split; [ | split ] ].
  - intros any fuel' p' w' e. apply getDirectorySize_never_throws.
  - eexists. rewrite <- (visited_prune T p). split; [ exact Hrun | ].
    cbn [stderr user]. split; [ reflexivity | ].
    split; [ apply length_diagnostics | reflexivity ].
  - intros earlier name bad later HT Hbad. subst T.
    assert (Hvis : visited p (Dir (earlier ++ (name, bad) :: later))
                   = visited p (Dir (earlier ++ later))).
    { change (earlier ++ (name, bad) :: later)
        with (earlier ++ [(name, bad)] ++ later).
      rewrite !visited_dir_app. simpl visited at 2.
      rewrite (visited_fails bad _ Hbad). reflexivity. }
    assert (Hdiag : diagnostics p (Dir (earlier ++ (name, bad) :: later))
                    = diagnostics p (Dir earlier)
                      ++ ["Cannot access: " +++ path.join p name]
                      ++ diagnostics p (Dir later)).
    { change (earlier ++ (name, bad) :: later)
        with (earlier ++ [(name, bad)] ++ later).
      rewrite !diagnostics_dir_app. simpl diagnostics at 2.
      rewrite (diagnostics_fails bad _ Hbad). reflexivity. }
    rewrite Hvis, Hdiag in Hrun. eexists. split; [ exact Hrun | ].
    cbn [stderr]. apply in_or_app. right. apply in_or_app. right.
    apply in_or_app. left. left. reflexivity.
  - intros sub e file n HT. subst T. rewrite Hrun.
    eexists. split; [ reflexivity | ]. simpl.
    pose proof (reached_sizes_doubles disk _ false p Hp) as Hdouble.
    simpl in Hdouble. inversion Hdouble as [ | ? ? Hn _ ]; subst.
    unfold number_sum, number_add. simpl. rewrite Hn.
    repeat split.
Qed.

Lemma getDirectorySize_absorbs_access_failures_witness :
  presents (disk_of_table mixed_table) "/d" mixed_tree = true /\
  exists w',
    getDirectorySize (disk_of_table mixed_table) None 2 "/d" empty_world
    = (Normal (data_of (visited "/d" (Dir [("f", File 300); ("sock", Special);
                                           ("gone", Missing)]))), w') /\
    In "Cannot access: /d/locked" (stderr w').
Proof.
  split; [ reflexivity | ].
  destruct (getDirectorySize_absorbs_access_failures
              (disk_of_table mixed_table) None mixed_tree "/d" 2 empty_world
              eq_refl (Nat.lt_succ_diag_r 1))
    as (_ & _ & Hsiblings & _).
  apply (Hsiblings [] "locked" (Unreadable fs.EACCES)
           [("f", File 300); ("sock", Special); ("gone", Missing)]
           eq_refl eq_refl).
Defined.

Lemma visited_resolved (T : node) (p : string) :
  visited p T = visited p (resolved T).
Proof. induction T; simpl; auto. Qed.

Lemma diagnostics_resolved (T : node) (p : string) :
  diagnostics p T = diagnostics p (resolved T).
Proof. induction T; simpl; auto. Qed.

(** C5, as the code has it.  A node for which [statSync] reports neither a
    regular file nor a directory (socket, device, FIFO) is skipped silently:
    no size, no item, no callback call, no diagnostic; so is a dangling
    symbolic link.  A symbolic link that resolves is not told from its
    target: the call on the link returns what the call on its target
    returns, so a link to a regular file is counted and a link to a
    directory is descended into. *)
Theorem getDirectorySize_skips_special_nodes {U} (disk : fs.Disk)
    (callback : option (Progress.t -> U -> U))
    (T : node) (p : string) (fuel : nat) (w : World U) :
  presents disk p T = true ->
  (depth T < fuel)%nat ->
  (resolved T = Special \/ resolved T = Missing ->
   getDirectorySize disk (option_map returning callback) fuel p w =
   (Normal {| DirectorySize.size := 0; DirectorySize.items := 0;
              DirectorySize.files := [] |}, w)) /\
  getDirectorySize disk (option_map returning callback) fuel p w =
  (Normal (data_of (visited p (resolved T))),
   Build_World (stderr w ++ diagnostics p (resolved T))
     (user_after callback (visited p (resolved T)) (user w))).
Proof.
  intros Hp Hd.
  assert (Hrun := getDirectorySize_presented disk callback T p fuel w Hp Hd).
  rewrite (visited_resolved T p), (diagnostics_resolved T p) in Hrun.
  split; [ | exact Hrun ].
  intros Hskip. rewrite Hrun.
  assert (Hv : visited p (resolved T) = [])
    by (destruct Hskip as [H | H]; rewrite H; reflexivity).
  assert (Hg : diagnostics p (resolved T) = [])
    by (destruct Hskip as [H | H]; rewrite H; reflexivity).
  rewrite Hv, Hg. f_equal. apply world_eq; simpl.
  - apply app_nil_r.
  - unfold user_after. destruct callback; reflexivity.
Qed.

Lemma getDirectorySize_skips_special_nodes_witness :
  getDirectorySize (disk_of_table mixed_table) None 1 "/d/sock" empty_world =
  (Normal {| DirectorySize.size := 0; DirectorySize.items := 0;
             DirectorySize.files := [] |}, empty_world).
Proof.
  destruct (getDirectorySize_skips_special_nodes
              (disk_of_table mixed_table) None Special "/d/sock" 1 empty_world
              eq_refl (Nat.lt_succ_diag_r 0))
    as (Hskip & _).
  apply Hskip. left. reflexivity.
Defined.

(** C5 as the spec states it fails: the walk goes through a symbolic link
    to a directory and counts the file inside, and counts a symbolic link to
    a regular file as a file. *)
Lemma getDirectorySize_follows_symlinks :
  is_link (disk_of_table dirlink_table) "/l" = true /\
  presents (disk_of_table dirlink_table) "/l" dirlink_tree = true /\
  getDirectorySize (disk_of_table dirlink_table) None 2 "/l" empty_world =
  (Normal {| DirectorySize.size := 7; DirectorySize.items := 1;
             DirectorySize.files :=
               [{| FileRecord.path := "/l/f"; FileRecord.size := 7;
                   FileRecord.name := "f" |}] |}, empty_world) /\
  is_link (disk_of_table linked_table) "/r/l" = true /\
  presents (disk_of_table linked_table) "/r/l" (Link (File 10)) = true /\
  getDirectorySize (disk_of_table linked_table) None 1 "/r/l" empty_world =
  (Normal {| DirectorySize.size := 10; DirectorySize.items := 1;
             DirectorySize.files :=
               [{| FileRecord.path := "/r/l"; FileRecord.size := 10;
                   FileRecord.name := "l" |}] |}, empty_world).
Proof. repeat split; vm_compute; reflexivity. Qed.

(** C9, as the code has it.  The object [getDirectorySize] returns is
    consistent with itself, whatever the callback does: [files] has [items]
    elements, and their sizes, added in order as doubles, give [size].  As
    long as the sizes add up to 2^53 at most, [size] is their exact sum. *)
Theorem getDirectorySize_result_consistent {U} (disk : fs.Disk)
    (callback : option (Callback U))
    (T : node) (p : string) (fuel : nat) (w : World U) :
  presents disk p T = true ->
  (depth T < fuel)%nat ->
  exists r w',
    getDirectorySize disk callback fuel p w = (Normal r, w') /\
    N.of_nat (List.length (DirectorySize.files r)) = DirectorySize.items r /\
    number_sum (sizes_of (DirectorySize.files r)) = DirectorySize.size r /\
    (sum (sizes_of (DirectorySize.files r)) <= two53 ->
     sum (sizes_of (DirectorySize.files r)) = DirectorySize.size r).
Proof.
  intros Hp Hd.
  destruct (getDirectorySize_any_callback disk callback T p fuel w Hp Hd)
    as (w' & Hrun).
  eexists. eexists. split; [ exact Hrun | ].
  split; [ reflexivity | ]. split; [ reflexivity | ].
  intros Hb. simpl in *. now rewrite number_sum_exact.
Qed.

Lemma getDirectorySize_result_consistent_witness :
  exists r w',
    getDirectorySize (disk_of_table linked_table) None 2 "/r" empty_world
    = (Normal r, w') /\
    N.of_nat (List.length (DirectorySize.files r)) = DirectorySize.items r /\
    number_sum (sizes_of (DirectorySize.files r)) = DirectorySize.size r /\
    (sum (sizes_of (DirectorySize.files r)) <= two53 ->
     sum (sizes_of (DirectorySize.files r)) = DirectorySize.size r).
Proof.
  apply (getDirectorySize_result_consistent
           (disk_of_table linked_table) None linked_tree "/r" 2 empty_world).
  - reflexivity.
  - simpl. lia.
Defined.

(** In the sample run the sizes are far below 2^53: the size returned, 20,
    is their exact sum. *)
Example linked_run_exact :
  exists r w',
    getDirectorySize (disk_of_table linked_table) None 2 "/r" empty_world
    = (Normal r, w') /\
    sum (sizes_of (DirectorySize.files r)) <= two53 /\
    sum (sizes_of (DirectorySize.files r)) = 20 /\ DirectorySize.size r = 20.
Proof.
  eexists. eexists. split; [ vm_compute; reflexivity | ].
  cbn [DirectorySize.files DirectorySize.size].
  split; [ vm_compute; discriminate | ]. split; reflexivity.
Qed.

(** C9 as the spec states it fails: in a directory that holds a file of
    2^53 bytes and a file of one byte, the sizes of the two records add up
    to 2^53 + 1, and [size] is 2^53: the second addition is rounded. *)
Lemma getDirectorySize_size_is_rounded :
  presents (disk_of_table sparse_table) "/s" sparse_tree = true /\
  exists r w',
    getDirectorySize (disk_of_table sparse_table) None 2 "/s" empty_world
    = (Normal r, w') /\
    sizes_of (DirectorySize.files r) = [9007199254740992; 1] /\
    DirectorySize.items r = 2 /\
    DirectorySize.size r = 9007199254740992 /\
    sum (sizes_of (DirectorySize.files r)) <> DirectorySize.size r.
Proof.
  split; [ vm_compute; reflexivity | ].
  eexists. eexists. split; [ vm_compute; reflexivity | ].
  cbn [DirectorySize.files DirectorySize.items DirectorySize.size].
  split; [ reflexivity | ]. split; [ reflexivity | ]. split; [ reflexivity | ].
  vm_compute. discriminate.
Qed.

(** The same consistency for every call that returns, on any disk. *)
Lemma getDirectorySize_finished_consistent {U} (disk : fs.Disk)
    (callback : option (Callback U))
    (fuel : nat) (p : string) (w w' : World U) (r : DirectorySize.t) :
  getDirectorySize disk callback fuel p w = (Normal r, w') ->
  N.of_nat (List.length (DirectorySize.files r)) = DirectorySize.items r /\
  number_sum (sizes_of (DirectorySize.files r)) = DirectorySize.size r.
Proof.
  intros Hrun.
  destruct (finished_walk_has_tree disk callback fuel p w w' r Hrun)
    as (T & Hp & Hd).
  destruct (getDirectorySize_any_callback disk callback T p fuel w Hp Hd)
    as (w2 & Hrun2).
  rewrite Hrun2 in Hrun. injection Hrun as Hr _. subst r. split; reflexivity.
Qed.

(* ------------------------------------------------------------------ *)
(** * [formatBytes] *)

Lemma k_is_power : k = 2 ^ 10.
Proof. reflexivity. Qed.

Lemma log2_k : N.log2 k = 10.
Proof. reflexivity. Qed.

(** The index [formatBytes] computes brackets the byte count between two
    consecutive powers of 1024. *)
Lemma floor_log_k_bounds (bytes : N) :
  0 < bytes ->
  k ^ floor_log_k bytes <= bytes < k ^ (floor_log_k bytes + 1).
Proof.
  intros Hpos. unfold floor_log_k. rewrite log2_k, k_is_power.
  rewrite <- !N.pow_mul_r.
  destruct (N.log2_spec bytes Hpos) as [Hlo Hhi].
  pose proof (N.Div0.mul_div_le (N.log2 bytes) 10) as Hdiv.
  pose proof (N.mul_succ_div_gt (N.log2 bytes) 10 ltac:(lia)) as Hdiv'.
  split.
  - eapply N.le_trans; [ | exact Hlo ]. apply N.pow_le_mono_r; lia.
  - eapply N.lt_le_trans; [ exact Hhi | ]. apply N.pow_le_mono_r; lia.
Qed.

Lemma floor_log_k_small (bytes : N) :
  0 < bytes -> bytes < k ^ 4 -> floor_log_k bytes < 4.
Proof.
  intros Hpos Hlt. unfold floor_log_k. rewrite log2_k.
  assert (Hlog : N.log2 bytes < 40).
  { apply N.log2_lt_pow2; [ exact Hpos | ]. exact Hlt. }
  apply N.Div0.div_lt_upper_bound. lia.
Qed.

Lemma floor_log_k_large (bytes : N) :
  k ^ 4 <= bytes -> 4 <= floor_log_k bytes.
Proof.
  intros Hge. unfold floor_log_k. rewrite log2_k.
  assert (Hlog : 40 <= N.log2 bytes).
  { change 40 with (N.log2 (k ^ 4)). apply N.log2_le_mono. exact Hge. }
  apply N.div_le_lower_bound; lia.
Qed.

Lemma hundredths_rounds (num den : N) :
  0 < den ->
  2 * hundredths num den * den <= 200 * num + den
  /\ 200 * num + den < 2 * (hundredths num den + 1) * den.
Proof.
  intros Hden. unfold hundredths.
  pose proof (N.Div0.mul_div_le (200 * num + den) (2 * den)) as Hlo.
  pose proof (N.mul_succ_div_gt (200 * num + den) (2 * den) ltac:(lia)) as Hhi.
  split; nia.
Qed.

Lemma number_toString_whole (n : N) :
  n mod 100 = 0 -> number_toString n = decimal (n / 100).
Proof.
  intros H. unfold number_toString.
  assert (H10 : n mod 10 = 0).
  { pose proof (N.Div0.div_mod n 100) as E. rewrite H in E.
    rewrite E. replace (100 * (n / 100) + 0) with ((n / 100 * 10) * 10) by lia.
    apply N.Div0.mod_mul. }
  rewrite H, H10. reflexivity.
Qed.

Lemma number_toString_two_digits (n : N) :
  n mod 10 <> 0 -> number_toString n = toFixed2_string n.
Proof.
  intros H. unfold number_toString, toFixed2_string.
  destruct (N.eqb_spec (n mod 10) 0) as [E | E]; [ contradiction | reflexivity ].
Qed.

Lemma last_char_append (s t : string) :
  t <> EmptyString -> last_char (s +++ t) = last_char t.
Proof.
  intros Ht. induction s as [ | c s IHs ]; [ reflexivity | ].
  cbn [String.append last_char]. rewrite IHs.
  destruct (s +++ t) eqn:E; [ | reflexivity ].
  destruct s; simpl in E; [ contradiction | discriminate ].
Qed.

Lemma ends_with_last_char (s u : string) :
  u <> EmptyString -> ends_with s u = true -> last_char s = last_char u.
Proof.
  intros Hu. induction s as [ | c s IHs ]; cbn [ends_with]; intros H.
  - apply orb_prop in H. destruct H as [H | H]; [ | discriminate ].
    apply String.eqb_eq in H. subst u. contradiction.
  - apply orb_prop in H. destruct H as [H | H].
    + apply String.eqb_eq in H. subst u. reflexivity.
    + specialize (IHs H). destruct s as [ | c' s' ].
      * cbn [ends_with] in H. apply orb_prop in H.
        destruct H as [H | H]; [ | discriminate ].
        apply String.eqb_eq in H. subst u. contradiction.
      * exact IHs.
Qed.

(** C8, as the code has it.  For a byte count between 1 and 1024^4 - 1,
    [formatBytes] takes the largest unit of B, KB, MB, GB whose power of
    1024 does not exceed the count, rounds the scaled value to hundredths
    and prints it without trailing fraction zeros: as the two-decimal
    string only when the last digit is not zero, and as a plain integer when
    the value is whole.  Zero is "0 B"; 1536 is "1.5 KB" and 1073741824 is
    "1 GB". *)
Theorem formatBytes_largest_unit_trimmed (bytes : N) :
  0 < bytes < k ^ 4 ->
  (exists i unit_name n,
     nth_error sizes (N.to_nat i) = Some unit_name /\
     k ^ i <= bytes < k ^ (i + 1) /\
     2 * n * k ^ i <= 200 * bytes + k ^ i < 2 * (n + 1) * k ^ i /\
     formatBytes bytes = number_toString n +++ " " +++ unit_name /\
     (n mod 10 <> 0 -> formatBytes bytes = spec_formatBytes bytes) /\
     (n mod 100 = 0 -> formatBytes bytes = decimal (n / 100) +++ " " +++ unit_name)) /\
  formatBytes 0 = "0 B" /\
  formatBytes 1536 = "1.5 KB" /\
  formatBytes 1073741824 = "1 GB".
Proof.
  intros [Hpos Hlt]. split; [ | repeat split ].
  exists (floor_log_k bytes).
  pose proof (floor_log_k_small bytes Hpos Hlt) as Hi.
  assert (Hunit : exists unit_name,
             nth_error sizes (N.to_nat (floor_log_k bytes)) = Some unit_name).
  { assert (Hnat : (N.to_nat (floor_log_k bytes) < 4)%nat) by lia.
    destruct (N.to_nat (floor_log_k bytes)) as [ | [ | [ | [ | ] ] ] ];
      simpl; eauto; lia. }
  destruct Hunit as [unit_name Hunit]. exists unit_name.
  exists (hundredths bytes (k ^ floor_log_k bytes)).
  assert (Hfmt : formatBytes bytes =
                 number_toString (hundredths bytes (k ^ floor_log_k bytes))
                 +++ " " +++ unit_name).
  { unfold formatBytes, sizes_at. rewrite Hunit.
    destruct (N.eqb_spec bytes 0); [ lia | reflexivity ]. }
  split; [ exact Hunit | ].
  split; [ apply floor_log_k_bounds; exact Hpos | ].
  split.
  { assert (Hden : 0 < k ^ floor_log_k bytes).
    { apply N.neq_0_lt_0, N.pow_nonzero. discriminate. }
    destruct (hundredths_rounds bytes _ Hden). split; assumption. }
  split; [ exact Hfmt | ].
  split.
  - intros Hlast. rewrite Hfmt. unfold spec_formatBytes, sizes_at. rewrite Hunit.
    destruct (N.eqb_spec bytes 0); [ lia | ].
    cbv zeta. rewrite number_toString_two_digits by exact Hlast. reflexivity.
  - intros Hwhole. rewrite Hfmt, number_toString_whole by exact Hwhole. reflexivity.
Qed.

Lemma formatBytes_largest_unit_trimmed_witness :
  formatBytes 1234567 = "1.18 MB" /\
  exists i unit_name n,
    nth_error sizes (N.to_nat i) = Some unit_name /\
    k ^ i <= 1234567 < k ^ (i + 1) /\
    2 * n * k ^ i <= 200 * 1234567 + k ^ i < 2 * (n + 1) * k ^ i /\
    formatBytes 1234567 = number_toString n +++ " " +++ unit_name.
Proof.
  split; [ reflexivity | ].
  destruct (formatBytes_largest_unit_trimmed 1234567) as [(i & u & n & H) _].
  - split; reflexivity.
  - exists i, u, n. destruct H as (H1 & H2 & H3 & H4 & _). repeat split; tauto.
Defined.

(** C8 as the spec states it fails: the two decimal digits are not kept.
    1536 bytes print as "1.5 KB", not "1.50 KB", and 1073741824 bytes as
    "1 GB", not "1.00 GB"; the spec's formatting gives the strings of the
    spec. *)
Lemma formatBytes_drops_trailing_zeros :
  formatBytes 1536 = "1.5 KB" /\ formatBytes 1536 <> "1.50 KB" /\
  spec_formatBytes 1536 = "1.50 KB" /\
  formatBytes 1073741824 = "1 GB" /\ formatBytes 1073741824 <> "1.00 GB" /\
  spec_formatBytes 1073741824 = "1.00 GB".
Proof.
  repeat split; try (vm_compute; reflexivity); vm_compute; discriminate.
Qed.

(** C10.  From 1024^4 bytes on, the index computed by [formatBytes] is past
    the end of the four units: the string ends in "undefined" and in none of
    B, KB, MB, GB.  1024^4 itself, a valid byte count, prints as
    "1 undefined". *)
Theorem formatBytes_unit_undefined_from_TB (bytes : N) :
  k ^ 4 <= bytes ->
  nth_error sizes (N.to_nat (floor_log_k bytes)) = None /\
  (exists digits, formatBytes bytes = digits +++ " undefined") /\
  (forall unit_name, In unit_name sizes ->
     ends_with (formatBytes bytes) unit_name = false) /\
  formatBytes (k ^ 4) = "1 undefined".
Proof.
  intros Hge.
  pose proof (floor_log_k_large bytes Hge) as Hi.
  assert (Hnone : nth_error sizes (N.to_nat (floor_log_k bytes)) = None).
  { apply nth_error_None. simpl. lia. }
  assert (Hpos : 0 < bytes).
  { eapply N.lt_le_trans; [ | exact Hge ]. reflexivity. }
  assert (Hfmt : formatBytes bytes =
                 number_toString (hundredths bytes (k ^ floor_log_k bytes))
                 +++ " undefined").
  { unfold formatBytes, sizes_at. rewrite Hnone.
    destruct (N.eqb_spec bytes 0); [ lia | reflexivity ]. }
  split; [ exact Hnone | ].
  split; [ eexists; exact Hfmt | ].
  split; [ | reflexivity ].
  intros unit_name Hin.
  destruct (ends_with (formatBytes bytes) unit_name) eqn:Hends; [ | reflexivity ].
  exfalso.
  assert (Hne : unit_name <> EmptyString).
  { simpl in Hin. intuition (subst; discriminate). }
  apply (ends_with_last_char _ _ Hne) in Hends.
  rewrite Hfmt, last_char_append in Hends by discriminate.
  simpl in Hin. intuition (subst; discriminate).
Qed.

Lemma formatBytes_unit_undefined_from_TB_witness :
  exists digits, formatBytes 5000000000000 = digits +++ " undefined".
Proof.
  destruct (formatBytes_unit_undefined_from_TB 5000000000000) as (_ & H & _).
  - vm_compute. discriminate.
  - exact H.
Defined.

(* ------------------------------------------------------------------ *)
(** * [scanSafariStorage] on presented trees *)

Lemma results_set_total_same (r : Results.t) :
  results_set_total (Results.total r) r = r.
Proof. destruct r; reflexivity. Qed.

Lemma deliver_pure_sink {V} (f : ProgressEvent -> V -> V) (e : ProgressEvent)
    (s : ScanFrame V) :
  deliver (pure_sink f) e s = (None, Build_ScanFrame (results s) (f e (sink s))).
Proof.
  unfold deliver, with_heap, heap_of. cbn.
  rewrite results_set_total_same. reflexivity.
Qed.

Lemma pause_pure_sink {V} (f : ProgressEvent -> V -> V) (s : ScanFrame V) :
  pause (pure_sink f) s = s.
Proof.
  unfold pause, with_heap, heap_of. cbn.
  rewrite results_set_total_same. destruct s; reflexivity.
Qed.

Lemma file_callback_acts_as {V} (disk : Category -> fs.Disk)
    (progressCallback : option (ProgressEvent -> V -> V)) (c : Category) :
  acts_as (Some (file_callback (option_map pure_sink progressCallback) c))
          (Some (pure_file_callback progressCallback c)).
Proof.
  intros arg s. unfold file_callback, pure_file_callback, sink_after.
  destruct progressCallback as [ f | ]; cbn [option_map fold_left].
  - rewrite deliver_pure_sink. reflexivity.
  - destruct s; reflexivity.
Qed.

Lemma file_callbacks_fold {V} (progressCallback : option (ProgressEvent -> V -> V))
    (c : Category) (args : list Progress.t) (s : ScanFrame V) :
  fold_left (fun u arg => pure_file_callback progressCallback c arg u) args s =
  Build_ScanFrame (results s)
    (sink_after progressCallback
       (map (found_event c (Results.total (results s))) args) (sink s)).
Proof.
  revert s. induction args as [ | arg args IHargs ]; intros s.
  - destruct s. unfold sink_after. destruct progressCallback; reflexivity.
  - cbn [fold_left]. rewrite IHargs.
    unfold pure_file_callback, sink_after. destruct progressCallback; reflexivity.
Qed.

Section ScanFacts.

Context {V : Type}.
Variable disk : Category -> fs.Disk.
Variable home : string.
Variable progressCallback : option (ProgressEvent -> V -> V).
Variable tree : Category -> node.

Lemma scan_category_presented (fuel : nat) (c : Category)
    (w : World (ScanFrame V)) :
  presents (disk c) (SAFARI_PATHS home c) (tree c) = true ->
  (depth (tree c) < fuel)%nat ->
  scan_category disk home (option_map pure_sink progressCallback) fuel c w =
  (Normal tt,
   Build_World
     (stderr w ++ diagnostics (SAFARI_PATHS home c) (tree c))
     (Build_ScanFrame
        (record_category c (data_of (category_files home tree c)) (results (user w)))
        (sink_after progressCallback
           (category_events c (results (user w)) (category_files home tree c))
           (sink (user w))))).
Proof.
  intros Hp Hd. unfold scan_category.
  unfold bind at 1.
  set (w1 := Build_World (stderr w)
               (Build_ScanFrame (results (user w))
                  (sink_after progressCallback
                     [Scanning c
                        ("Scanning "
                         +++ CategoryResult.category (results_get (results (user w)) c)
                         +++ "...")
                        (Results.total (results (user w)))]
                     (sink (user w))))).
  assert (Hstart :
    scan_category_start (option_map pure_sink progressCallback) c w = (Normal tt, w1)).
  { unfold scan_category_start, w1, sink_after.
    destruct progressCallback as [ f | ]; cbn [option_map].
    - unfold bind, gets, notify, modify, in_world. rewrite deliver_pure_sink.
      cbn [fst snd user stderr]. rewrite pause_pure_sink. reflexivity.
    - destruct w as [ err [ r s ] ]. reflexivity. }
  rewrite Hstart. unfold bind at 1.
  rewrite (getDirectorySize_acts_as (disk c) _ _ (tree c) _ fuel w1
             (file_callback_acts_as disk progressCallback c) Hp Hd).
  unfold user_after. rewrite file_callbacks_fold.
  unfold w1, category_events, category_files, sink_after.
  destruct progressCallback; reflexivity.
Qed.

Lemma scan_loop_presented (fuel : nat) (cs : list Category) :
  forall w : World (ScanFrame V),
    (forall c, In c cs ->
       presents (disk c) (SAFARI_PATHS home c) (tree c) = true /\
       (depth (tree c) < fuel)%nat) ->
    forEach cs (scan_category disk home (option_map pure_sink progressCallback) fuel) w =
    (Normal tt,
     Build_World
       (stderr w ++ scan_diagnostics home tree cs)
       (Build_ScanFrame
          (scan_results home tree cs (results (user w)))
          (sink_after progressCallback
             (scan_events home tree cs (results (user w))) (sink (user w))))).
Proof.
  induction cs as [ | c cs IHcs ]; intros w Hready.
  - destruct w as [ err [ r s ] ]. unfold sink_after, scan_diagnostics. simpl.
    rewrite app_nil_r. destruct progressCallback; reflexivity.
  - cbn [forEach]. unfold bind at 1.
    destruct (Hready c (or_introl eq_refl)) as [Hp Hd].
    rewrite (scan_category_presented fuel c w Hp Hd).
    rewrite IHcs by (intros c' Hin; apply Hready; right; exact Hin).
    cbn [stderr user results sink scan_results scan_events].
    unfold scan_diagnostics. cbn [flat_map]. rewrite <- app_assoc.
    f_equal. f_equal. f_equal.
    unfold sink_after. destruct progressCallback; [ | reflexivity ].
    rewrite fold_left_app. reflexivity.
Qed.

Lemma scanSafariStorage_presented (fuel : nat) (w : World V) :
  scan_ready disk home tree fuel = true ->
  scanSafariStorage disk home (option_map pure_sink progressCallback) fuel w =
  (Normal (scan_results home tree categories initial_results),
   Build_World
     (stderr w ++ scan_diagnostics home tree categories)
     (sink_after progressCallback
        (scan_events home tree categories initial_results) (user w))).
Proof.
  intros Hready. unfold scanSafariStorage. unfold bind.
  rewrite scan_loop_presented.
  - reflexivity.
  - intros c Hin. unfold scan_ready in Hready.
    rewrite forallb_forall in Hready. specialize (Hready c Hin).
    apply andb_prop in Hready. destruct Hready as [Hp Hd].
    split; [ exact Hp | ]. apply Nat.ltb_lt. exact Hd.
Qed.

End ScanFacts.

Lemma keep_all (events log : list ProgressEvent) :
  sink_after (Some record_event) events log = log ++ events.
Proof.
  revert log. induction events as [ | e events IHevents ]; intros log; simpl.
  - now rewrite app_nil_r.
  - unfold sink_after in IHevents. rewrite IHevents. unfold record_event.
    now rewrite <- app_assoc.
Qed.

(** The scan with the sink that keeps the events. *)
Lemma scanSafariStorage_keep (disk : Category -> fs.Disk) (home : string)
    (tree : Category -> node) (fuel : nat) (w : World (list ProgressEvent)) :
  scan_ready disk home tree fuel = true ->
  scanSafariStorage disk home (Some keep) fuel w =
  (Normal (scan_results home tree categories initial_results),
   Build_World
     (stderr w ++ scan_diagnostics home tree categories)
     (user w ++ scan_events home tree categories initial_results)).
Proof.
  intros Hready.
  change (Some keep) with (option_map pure_sink (Some record_event)).
  rewrite (scanSafariStorage_presented disk home (Some record_event) tree fuel w Hready).
  rewrite keep_all. reflexivity.
Qed.

Lemma total_record_category (c : Category) (d : DirectorySize.t) (r : Results.t) :
  Results.total (record_category c d r) =
  {| Totals.size := number_add (Totals.size (Results.total r)) (DirectorySize.size d);
     Totals.items := number_add (Totals.items (Results.total r)) (DirectorySize.items d) |}.
Proof. destruct c; reflexivity. Qed.

Lemma get_record_category (c c' : Category) (d : DirectorySize.t) (r : Results.t) :
  results_get (record_category c d r) c' =
  if Category_eqb c c' then
    {| CategoryResult.size := DirectorySize.size d;
       CategoryResult.items := DirectorySize.items d;
       CategoryResult.category := CategoryResult.category (results_get r c) |}
  else results_get r c'.
Proof. destruct c, c'; reflexivity. Qed.

(** What the five passes of the loop leave in [results]. *)
Lemma scan_results_categories (home : string) (tree : Category -> node) :
  let d := fun c => data_of (category_files home tree c) in
  let res := scan_results home tree categories initial_results in
  (forall c,
     CategoryResult.size (results_get res c) = DirectorySize.size (d c) /\
     CategoryResult.items (results_get res c) = DirectorySize.items (d c)) /\
  Totals.size (Results.total res) =
    number_sum (map (fun c => DirectorySize.size (d c)) categories) /\
  Totals.items (Results.total res) =
    number_sum (map (fun c => DirectorySize.items (d c)) categories).
Proof.
  intros d res. subst res d. cbv beta. unfold number_sum, categories.
  cbn [scan_results map fold_left].
  split; [ | split ].
  - intros c. rewrite !get_record_category.
    destruct c; cbn [Category_eqb]; split; reflexivity.
  - rewrite !total_record_category.
    cbn [Totals.size Totals.items initial_results Results.total].
    reflexivity.
  - rewrite !total_record_category.
    cbn [Totals.size Totals.items initial_results Results.total].
    reflexivity.
Qed.

Lemma sum_flat_map {A} (f : A -> list N) (xs : list A) :
  sum (flat_map f xs) = sum (map (fun x => sum (f x)) xs).
Proof.
  induction xs as [ | x xs IHxs ]; [ reflexivity | ].
  cbn [flat_map map]. rewrite sum_app, IHxs. reflexivity.
Qed.

Lemma length_flat_map {A B} (f : A -> list B) (xs : list A) :
  N.of_nat (List.length (flat_map f xs)) =
  sum (map (fun x => N.of_nat (List.length (f x))) xs).
Proof.
  induction xs as [ | x xs IHxs ]; [ reflexivity | ].
  cbn [flat_map map]. rewrite length_app, Nat2N.inj_add, IHxs. reflexivity.
Qed.

Lemma sum_member_le (xs : list N) (x : N) : In x xs -> x <= sum xs.
Proof.
  unfold sum. induction xs as [ | y xs IHxs ]; simpl; [ contradiction | ].
  intros [-> | Hin]; [ lia | ]. specialize (IHxs Hin). lia.
Qed.

(** Within 2^53 the summary holds exact sums. *)
Lemma scan_results_exact (home : string) (tree : Category -> node) :
  within_two53 tree = true ->
  let res := scan_results home tree categories initial_results in
  (forall c,
     CategoryResult.size (results_get res c) = sum (reached_sizes (tree c)) /\
     CategoryResult.items (results_get res c)
     = N.of_nat (List.length (reached_sizes (tree c)))) /\
  Totals.size (Results.total res) = sum (scan_sizes tree) /\
  Totals.items (Results.total res) = N.of_nat (List.length (scan_sizes tree)).
Proof.
  intros Hb res. unfold within_two53 in Hb. apply andb_prop in Hb.
  destruct Hb as [Hsizes Hitems]. apply N.leb_le in Hsizes, Hitems.
  unfold scan_sizes in *. rewrite sum_flat_map in Hsizes.
  rewrite length_flat_map in Hitems |- *. rewrite sum_flat_map.
  destruct (scan_results_categories home tree) as (Hcat & Hsize & Hcount).
  cbv zeta in Hcat, Hsize, Hcount. fold res in Hcat, Hsize, Hcount.
  assert (Hdata : forall c,
            DirectorySize.size (data_of (category_files home tree c))
            = sum (reached_sizes (tree c)) /\
            DirectorySize.items (data_of (category_files home tree c))
            = N.of_nat (List.length (reached_sizes (tree c)))).
  { intros c. unfold data_of, category_files.
    cbn [DirectorySize.size DirectorySize.items].
    rewrite sizes_of_visited, length_visited. split; [ | reflexivity ].
    apply number_sum_exact.
    eapply N.le_trans; [ | exact Hsizes ].
    apply sum_member_le. apply (in_map (fun c => sum (reached_sizes (tree c)))).
    destruct c; simpl; tauto. }
  split; [ | split ].
  - intros c. destruct (Hcat c) as [Hs Hi]. rewrite Hs, Hi. apply Hdata.
  - rewrite Hsize.
    rewrite (map_ext (fun c => DirectorySize.size (data_of (category_files home tree c)))
               (fun c => sum (reached_sizes (tree c))))
      by (intros c; apply Hdata).
    apply number_sum_exact. exact Hsizes.
  - rewrite Hcount.
    rewrite (map_ext (fun c => DirectorySize.items (data_of (category_files home tree c)))
               (fun c => N.of_nat (List.length (reached_sizes (tree c)))))
      by (intros c; apply Hdata).
    apply number_sum_exact. exact Hitems.
Qed.

(** C2, as the code has it.  When the progress sink, if there is one,
    neither throws nor writes to the objects it is handed, and as long as
    the sizes and the number of the files found add up to 2^53 at most, a
    scan returns a summary whose [total.size] is the sum of the sizes of
    the five categories and whose [total.items] is the sum of their item
    counts, exactly.  Each category holds the size and number of the files
    the walk reached below its path; subtrees that could not be read add
    nothing. *)
Theorem scanSafariStorage_total_is_sum {V} (disk : Category -> fs.Disk)
    (home : string) (progressCallback : option (ProgressEvent -> V -> V))
    (tree : Category -> node) (fuel : nat) (w : World V) :
  scan_ready disk home tree fuel = true ->
  within_two53 tree = true ->
  exists res w',
    scanSafariStorage disk home (option_map pure_sink progressCallback) fuel w
    = (Normal res, w') /\
    Totals.size (Results.total res) =
      sum (map (fun c => CategoryResult.size (results_get res c)) categories) /\
    Totals.items (Results.total res) =
      sum (map (fun c => CategoryResult.items (results_get res c)) categories) /\
    (forall c,
       CategoryResult.size (results_get res c) = sum (reached_sizes (tree c)) /\
       CategoryResult.items (results_get res c)
       = N.of_nat (List.length (reached_sizes (tree c)))).
Proof.
  intros Hready Hb. eexists. eexists. split.
  - apply (scanSafariStorage_presented disk home progressCallback tree fuel w Hready).
  - destruct (scan_results_exact home tree Hb) as (Hcat & Hsize & Hitems).
    cbv zeta in Hcat, Hsize, Hitems.
    split; [ | split ].
    + rewrite Hsize. unfold scan_sizes. rewrite sum_flat_map.
      f_equal. apply map_ext. intros c. symmetry. apply Hcat.
    + rewrite Hitems. unfold scan_sizes. rewrite length_flat_map.
      f_equal. apply map_ext. intros c. symmetry. apply Hcat.
    + exact Hcat.
Qed.

Lemma scanSafariStorage_total_is_sum_witness :
  exists res w',
    scanSafariStorage home_disk "/h" (Some keep) 3 quiet_world
    = (Normal res, w') /\
    Totals.size (Results.total res) =
      sum (map (fun c => CategoryResult.size (results_get res c)) categories) /\
    Totals.items (Results.total res) =
      sum (map (fun c => CategoryResult.items (results_get res c)) categories) /\
    (forall c,
       CategoryResult.size (results_get res c) = sum (reached_sizes (home_tree c)) /\
       CategoryResult.items (results_get res c)
       = N.of_nat (List.length (reached_sizes (home_tree c)))).
Proof.
  apply (scanSafariStorage_total_is_sum home_disk "/h"
           (Some record_event) home_tree 3 quiet_world).
  - reflexivity.
  - reflexivity.
Defined.

(** C2 as the spec states it fails: the start event of a category hands
    the object [results.total] itself to the sink.  With a sink that
    assigns 5000 to its [size] at the first event, the scan of the sample
    home returns a total of 5700 bytes, while its five categories hold 700
    bytes together. *)
Lemma scanSafariStorage_total_overwritten :
  exists res w',
    scanSafariStorage home_disk "/h" (Some overwriting_sink) 3 empty_world
    = (Normal res, w') /\
    Totals.size (Results.total res) = 5700 /\
    sum (map (fun c => CategoryResult.size (results_get res c)) categories) = 700 /\
    Totals.size (Results.total res) <>
      sum (map (fun c => CategoryResult.size (results_get res c)) categories).
Proof.
  eexists. eexists. split; [ vm_compute; reflexivity | ].
  split; [ reflexivity | ]. split; [ reflexivity | ]. vm_compute. discriminate.
Qed.

(* ------------------------------------------------------------------ *)
(** * Progress events *)



Lemma fold_number_add_double (xs : list N) :
  forall t, to_double t = t -> to_double (fold_left number_add xs t) = fold_left number_add xs t.
Proof.
  induction xs as [ | x xs IHxs ]; intros t Ht; simpl; [ exact Ht | ].
  apply IHxs, number_add_double.
Qed.


Lemma number_sum_double (xs : list N) : to_double (number_sum xs) = number_sum xs.
Proof. apply fold_number_add_double. reflexivity. Qed.



(** The item counts handed to the callback are 1, 2, 3, ... *)
Lemma progress_items_count (vs : list FileRecord.t) :
  forall s0 c0,
    map Progress.itemCount (progress_of s0 c0 vs) =
    map (fun j => c0 + N.of_nat j) (seq 1 (List.length vs)).
Proof.
  induction vs as [ | v vs IHvs ]; intros s0 c0; [ reflexivity | ].
  cbn [progress_of map Progress.itemCount List.length seq].
  f_equal.
  rewrite IHvs, <- (seq_shift (List.length vs) 1), map_map.
  apply map_ext. intros j. lia.
Qed.

(** Each argument carries the number of files visited so far and the sum of
    their sizes. *)
Lemma progress_running (vs : list FileRecord.t) :
  forall s0 c0 arg,
    In arg (progress_of s0 c0 vs) ->
    exists j, (j < List.length vs)%nat /\
      Progress.itemCount arg = c0 + N.of_nat (S j) /\
      Progress.totalSize arg = fold_left number_add (firstn (S j) (sizes_of vs)) s0.
Proof.
  induction vs as [ | v vs IHvs ]; intros s0 c0 arg Hin; [ contradiction | ].
  destruct Hin as [Heq | Hin].
  - exists O. subst arg. cbn [Progress.itemCount Progress.totalSize List.length].
    split; [ lia | ]. split; [ lia | reflexivity ].
  - destruct (IHvs _ _ _ Hin) as (j & Hj & Hi & Hs).
    exists (S j). cbn [List.length]. rewrite Hi, Hs.
    split; [ lia | ]. split; [ lia | reflexivity ].
Qed.

Lemma length_progress_of (vs : list FileRecord.t) :
  forall s0 c0, List.length (progress_of s0 c0 vs) = List.length vs.
Proof.
  induction vs as [ | v vs IHvs ]; intros s0 c0; simpl; [ reflexivity | ].
  now rewrite IHvs.
Qed.









Lemma found_items_category_events (c c' : Category) (r : Results.t)
    (vs : list FileRecord.t) :
  found_items c (category_events c' r vs) =
  if Category_eqb c c' then map Progress.itemCount (progress_of 0 0 vs) else [].
Proof.
  unfold found_items, category_events. cbn [flat_map app].
  generalize (progress_of 0 0 vs). intros args.
  induction args as [ | arg args IHargs ]; cbn [map flat_map found_event].
  - destruct (Category_eqb c c'); reflexivity.
  - rewrite IHargs. destruct (Category_eqb c c'); reflexivity.
Qed.


Lemma found_items_app (c : Category) (l1 l2 : list ProgressEvent) :
  found_items c (l1 ++ l2) = found_items c l1 ++ found_items c l2.
Proof. apply flat_map_app. Qed.


Lemma found_items_scan (home : string) (tree : Category -> node) (c : Category) :
  found_items c (scan_events home tree categories initial_results) =
  map Progress.itemCount (progress_of 0 0 (category_files home tree c)).
Proof.
  unfold categories. cbn [scan_events].
  rewrite !found_items_app, !found_items_category_events.
  destruct c; cbn [Category_eqb found_items flat_map app];
    rewrite ?app_nil_r; reflexivity.
Qed.






Lemma found_in_category_events (c c' : Category) (r : Results.t)
    (vs : list FileRecord.t) (m : string) (s i : N) (tot : Totals.t) :
  In (Found c m s i tot) (category_events c' r vs) ->
  c = c' /\
  Totals.size tot = number_add (Totals.size (Results.total r)) s /\
  Totals.items tot = number_add (Totals.items (Results.total r)) i /\
  exists j, (j < List.length vs)%nat /\ i = N.of_nat (S j) /\
            s = number_sum (firstn (S j) (sizes_of vs)).
Proof.
  unfold category_events. intros [Hin | Hin]; [ discriminate | ].
  apply in_map_iff in Hin. destruct Hin as (arg & Heq & Hin).
  unfold found_event in Heq. injection Heq as Hc Hm Hs Hi Ht. subst c' tot.
  destruct (progress_running vs 0 0 arg Hin) as (j & Hj & Hic & Hts).
  split; [ reflexivity | ]. cbn [Totals.size Totals.items].
  split; [ now rewrite Hs | ]. split; [ now rewrite Hi | ].
  exists j. split; [ exact Hj | ]. split; [ rewrite <- Hi, Hic; lia | ].
  rewrite <- Hs, Hts. reflexivity.
Qed.

Lemma sum_firstn_le (xs : list N) (n : nat) : sum (firstn n xs) <= sum xs.
Proof.
  unfold sum. revert n. induction xs as [ | x xs IHxs ]; intros [ | n ]; simpl; try lia.
  specialize (IHxs n). lia.
Qed.

Lemma size_build (s i : N) :
  Totals.size {| Totals.size := s; Totals.items := i |} = s.
Proof. reflexivity. Qed.

Lemma items_build (s i : N) :
  Totals.items {| Totals.size := s; Totals.items := i |} = i.
Proof. reflexivity. Qed.

Lemma total_initial :
  Results.total initial_results = {| Totals.size := 0; Totals.items := 0 |}.
Proof. reflexivity. Qed.

Lemma sum_cons (x : N) (xs : list N) : sum (x :: xs) = x + sum xs.
Proof. reflexivity. Qed.

Lemma sum_nil : sum [] = 0.
Proof. reflexivity. Qed.

Lemma data_of_exact (home : string) (tree : Category -> node) :
  within_two53 tree = true ->
  forall c,
    DirectorySize.size (data_of (category_files home tree c))
    = sum (reached_sizes (tree c)) /\
    DirectorySize.items (data_of (category_files home tree c))
    = N.of_nat (List.length (reached_sizes (tree c))).
Proof.
  intros Hb c.
  destruct (scan_results_exact home tree Hb) as (Hcat & _ & _).
  destruct (scan_results_categories home tree) as (Hdata & _ & _).
  cbv zeta in Hcat, Hdata.
  rewrite <- (proj1 (Hdata c)), <- (proj2 (Hdata c)). apply Hcat.
Qed.

(** Within 2^53 the grand total of a per-file event is the sum of the
    categories before its own and of its running subtotal. *)
Lemma found_totals_exact (home : string) (tree : Category -> node)
    (c : Category) (m : string) (s i : N) (tot : Totals.t) :
  within_two53 tree = true ->
  In (Found c m s i tot) (scan_events home tree categories initial_results) ->
  Totals.size tot =
    sum (map (fun c' => sum (reached_sizes (tree c'))) (before c categories)) + s /\
  Totals.items tot =
    sum (map (fun c' => N.of_nat (List.length (reached_sizes (tree c'))))
           (before c categories)) + i /\
  1 <= i <= N.of_nat (List.length (reached_sizes (tree c))) /\
  s = sum (firstn (N.to_nat i) (reached_sizes (tree c))).
Proof.
  intros Hb Hin.
  pose proof (fun c => proj1 (data_of_exact home tree Hb c)) as Hsizes.
  pose proof (fun c => proj2 (data_of_exact home tree Hb c)) as Hcounts.
  unfold within_two53 in Hb. apply andb_prop in Hb.
  destruct Hb as [Hbs Hbi]. apply N.leb_le in Hbs, Hbi.
  unfold scan_sizes, categories in Hbs, Hbi. cbn [flat_map] in Hbs, Hbi.
  rewrite !length_app, !Nat2N.inj_add in Hbi. rewrite !sum_app in Hbs.
  rewrite sum_nil in Hbs. cbn [List.length] in Hbi.
  unfold categories in Hin. cbn [scan_events] in Hin.
  repeat (apply in_app_or in Hin; destruct Hin as [Hin | Hin]);
    [ .. | contradiction ];
    apply found_in_category_events in Hin;
    destruct Hin as (Hc & Hsize & Hitems & j & Hj & Hi & Hs);
    subst c;
    rewrite ?total_record_category in Hsize, Hitems;
    repeat first [ rewrite total_initial in Hsize | rewrite size_build in Hsize
                 | rewrite items_build in Hsize ];
    repeat first [ rewrite total_initial in Hitems | rewrite size_build in Hitems
                 | rewrite items_build in Hitems ];
    rewrite ?Hsizes in Hsize; rewrite ?Hcounts in Hitems;
    unfold category_files in Hj, Hs;
    rewrite sizes_of_visited in Hs; rewrite length_visited in Hj;
    match type of Hs with
    | _ = number_sum (firstn ?n ?xs) =>
        pose proof (sum_firstn_le xs n) as Hle;
        rewrite (number_sum_exact (firstn n xs)) in Hs by lia
    end;
    rewrite <- Hs in Hle;
    unfold categories; cbn [before Category_eqb map];
    rewrite ?sum_cons, ?sum_nil;
    exact_adds number_add_exact;
    (split; [ rewrite Hsize; lia | ]);
    (split; [ rewrite Hitems; lia | ]);
    (split; [ lia | ]);
    rewrite Hs, Hi, Nat2N.id; reflexivity.
Qed.

(** C7, as the code has it.  When the progress sink neither throws nor
    writes to the objects it is handed, and as long as the sizes and the
    number of the files found add up to 2^53 at most, every per-file event
    of a scan shows a grand total that is the sum of the final totals of
    the categories completed before its own, plus its category's running
    subtotal; that subtotal is the size of the files visited so far in the
    category, their number being the event's running count; the counts of
    a category's file events run 1, 2, 3, ...  The sum is made anew from
    [results.total] at every event. *)
Theorem scanSafariStorage_found_totals {V} (disk : Category -> fs.Disk)
    (home : string) (progressCallback : ProgressEvent -> V -> V)
    (tree : Category -> node) (fuel : nat) (w : World V) :
  scan_ready disk home tree fuel = true ->
  within_two53 tree = true ->
  exists res w' events,
    scanSafariStorage disk home (Some (pure_sink progressCallback)) fuel w
    = (Normal res, w') /\
    user w' = fold_left (fun v e => progressCallback e v) events (user w) /\
    (forall c m s i tot,
       In (Found c m s i tot) events ->
       Totals.size tot =
         sum (map (fun c' => CategoryResult.size (results_get res c'))
                (before c categories)) + s /\
       Totals.items tot =
         sum (map (fun c' => CategoryResult.items (results_get res c'))
                (before c categories)) + i /\
       1 <= i <= CategoryResult.items (results_get res c) /\
       s = sum (firstn (N.to_nat i) (reached_sizes (tree c)))) /\
    (forall c,
       found_items c events =
       map N.of_nat
         (seq 1 (N.to_nat (CategoryResult.items (results_get res c))))).
Proof.
  intros Hready Hb.
  exists (scan_results home tree categories initial_results).
  eexists. exists (scan_events home tree categories initial_results).
  split.
  { apply (scanSafariStorage_presented disk home (Some progressCallback) tree fuel w
             Hready). }
  split; [ reflexivity | ].
  destruct (scan_results_exact home tree Hb) as (Hcat & _ & _).
  cbv zeta in Hcat.
  split.
  - intros c m s i tot Hin.
    rewrite (map_ext _ (fun c' => sum (reached_sizes (tree c'))))
      by (intros c'; apply Hcat).
    rewrite (map_ext (fun c' => CategoryResult.items _)
               (fun c' => N.of_nat (List.length (reached_sizes (tree c')))))
      by (intros c'; apply Hcat).
    rewrite (proj2 (Hcat c)).
    apply (found_totals_exact home tree c m s i tot Hb Hin).
  - intros c. rewrite found_items_scan, progress_items_count.
    rewrite (proj2 (Hcat c)). unfold category_files.
    rewrite length_visited, Nat2N.id. apply map_ext. intros j. lia.
Qed.

Lemma scanSafariStorage_found_totals_witness :
  exists res w' events,
    scanSafariStorage home_disk "/h" (Some keep) 3 quiet_world
    = (Normal res, w') /\
    user w' = events /\
    In (Found history "Found: x" 350 2 {| Totals.size := 650; Totals.items := 4 |})
      events /\
    650 = sum (map (fun c' => CategoryResult.size (results_get res c'))
                 (before history categories)) + 350.
Proof.
  destruct (scanSafariStorage_found_totals home_disk "/h" record_event
              home_tree 3 quiet_world eq_refl eq_refl)
    as (res & w' & events & Hrun & Huser & Hfound & _).
  exists res, w', (user w'). split; [ exact Hrun | ]. split; [ reflexivity | ].
  assert (Hevents : events = user w').
  { rewrite Huser. symmetry. apply (keep_all events []). }
  pose proof (proj2 home_run) as Heq.
  change (Some keep) with (Some (pure_sink record_event)) in Heq.
  rewrite Hrun in Heq. injection Heq as Hres Hw.
  assert (Hin : In (Found history "Found: x" 350 2
                      {| Totals.size := 650; Totals.items := 4 |}) (user w')).
  { rewrite Hw. vm_compute. tauto. }
  split; [ exact Hin | ].
  rewrite <- Hevents in Hin.
  exact (proj1 (Hfound _ _ _ _ _ Hin)).
Defined.

(** C7 as the spec states it fails: the start event of a category hands
    the object [results.total] itself to the sink.  With a sink that
    assigns 5000 to its [size] at the first event, the event of the first
    cookie file, 100 bytes, shows a grand total of 5100 bytes, while no
    category is complete and the running subtotal is 100. *)
Lemma scanSafariStorage_found_total_overwritten :
  exists res w',
    scanSafariStorage home_disk "/h" (Some overwriting_keep) 3 quiet_world
    = (Normal res, w') /\
    In (Found cookies "Found: a" 100 1 {| Totals.size := 5100; Totals.items := 1 |})
      (user w') /\
    before cookies categories = [] /\
    5100 <> sum (map (fun c' => CategoryResult.size (results_get res c'))
                   (before cookies categories)) + 100.
Proof.
  eexists. eexists. split; [ vm_compute; reflexivity | ].
  split; [ vm_compute; tauto | ]. split; [ reflexivity | ].
  vm_compute. discriminate.
Qed.


(* ------------------------------------------------------------------ *)
(** * Further properties of the scan *)

Lemma forEach_never_throws {St A B} (f : A -> JS St B) (xs : list A) :
  (forall x s e, fst (f x s) <> Throw e) ->
  forall s e, fst (forEach xs f s) <> Throw e.
Proof.
  intros Hf. induction xs as [ | x xs IHxs ]; intros s e.
  - simpl. discriminate.
  - cbn [forEach]. unfold bind at 1. pose proof (Hf x s) as Hx.
    destruct (f x s) as [[ r | e' | ] s'].
    + apply IHxs.
    + exfalso. apply (Hx e'). reflexivity.
    + simpl. discriminate.
Qed.

Section ScanNeverThrows.

Context {V : Type}.
Variable disk : Category -> fs.Disk.
Variable home : string.
Variable progressCallback : option (Sink V).

Lemma scan_category_start_quiet (c : Category) (w : World (ScanFrame V)) :
  never_throws progressCallback ->
  exists w1, scan_category_start progressCallback c w = (Normal tt, w1).
Proof.
  unfold scan_category_start, never_throws. intros Hquiet.
  destruct progressCallback as [ cb | ]; [ | eexists; reflexivity ].
  unfold bind, gets, notify, deliver, modify. cbn [fst snd].
  rewrite Hquiet. eexists. reflexivity.
Qed.

Lemma scan_category_never_throws (fuel : nat) (c : Category)
    (w : World (ScanFrame V)) (e : exception) :
  never_throws progressCallback ->
  fst (scan_category disk home progressCallback fuel c w) <> Throw e.
Proof.
  intros Hquiet. unfold scan_category. unfold bind at 1.
  destruct (scan_category_start_quiet c w Hquiet) as [w1 Hstart].
  rewrite Hstart. unfold bind at 1.
  pose proof (getDirectorySize_never_throws (disk c)
                (Some (file_callback progressCallback c)) fuel
                (SAFARI_PATHS home c) w1) as Hnt.
  destruct (getDirectorySize (disk c) (Some (file_callback progressCallback c)) fuel
              (SAFARI_PATHS home c) w1) as [[ r | e' | ] w2].
  - simpl. discriminate.
  - exfalso. apply (Hnt e'). reflexivity.
  - simpl. discriminate.
Qed.

(** A category whose pass ends has a tree that the fuel covers. *)
Lemma scan_category_finished (fuel : nat) (c : Category)
    (w w' : World (ScanFrame V)) :
  scan_category disk home progressCallback fuel c w = (Normal tt, w') ->
  exists T, presents (disk c) (SAFARI_PATHS home c) T = true /\ (depth T < fuel)%nat.
Proof.
  unfold scan_category. unfold bind at 1.
  destruct (scan_category_start progressCallback c w) as [[ [] | e' | ] w1];
    try discriminate.
  unfold bind at 1.
  destruct (getDirectorySize (disk c) (Some (file_callback progressCallback c)) fuel
              (SAFARI_PATHS home c) w1) as [[ r | e' | ] w2] eqn:Hrun.
  - intros _. eapply finished_walk_has_tree. exact Hrun.
  - discriminate.
  - discriminate.
Qed.

Lemma scan_loop_finished (fuel : nat) (cs : list Category) :
  forall w w' : World (ScanFrame V),
    forEach cs (scan_category disk home progressCallback fuel) w = (Normal tt, w') ->
    forall c, In c cs ->
      exists T, presents (disk c) (SAFARI_PATHS home c) T = true /\
                (depth T < fuel)%nat.
Proof.
  induction cs as [ | c0 cs IHcs ]; intros w w' Hrun c Hin; [ contradiction | ].
  cbn [forEach] in Hrun. unfold bind at 1 in Hrun.
  destruct (scan_category disk home progressCallback fuel c0 w)
    as [[ [] | e | ] w1] eqn:Hc0; try discriminate.
  destruct Hin as [Heq | Hin].
  - subst c. eapply scan_category_finished. exact Hc0.
  - eapply IHcs; eassumption.
Qed.

(** Every scan that ends is a scan of presented trees. *)
Lemma finished_scan_ready (fuel : nat) (w w' : World V) (res : Results.t) :
  scanSafariStorage disk home progressCallback fuel w = (Normal res, w') ->
  exists tree, scan_ready disk home tree fuel = true.
Proof.
  unfold scanSafariStorage. unfold bind.
  destruct (forEach categories (scan_category disk home progressCallback fuel)
              (Build_World (stderr w) (Build_ScanFrame initial_results (user w))))
    as [[ [] | e | ] w1] eqn:Hloop; try discriminate.
  intros _.
  pose proof (scan_loop_finished fuel categories _ _ Hloop) as Htrees.
  destruct (Htrees cookies) as (T1 & Hp1 & Hd1); [ simpl; tauto | ].
  destruct (Htrees cache) as (T2 & Hp2 & Hd2); [ simpl; tauto | ].
  destruct (Htrees history) as (T3 & Hp3 & Hd3); [ simpl; tauto | ].
  destruct (Htrees localStorage) as (T4 & Hp4 & Hd4); [ simpl; tauto | ].
  destruct (Htrees databases) as (T5 & Hp5 & Hd5); [ simpl; tauto | ].
  exists (fun c => match c with
                   | cookies => T1 | cache => T2 | history => T3
                   | localStorage => T4 | databases => T5
                   end).
  unfold scan_ready, categories. cbn [forallb].
  rewrite Hp1, Hp2, Hp3, Hp4, Hp5.
  apply Nat.ltb_lt in Hd1, Hd2, Hd3, Hd4, Hd5.
  rewrite Hd1, Hd2, Hd3, Hd4, Hd5. reflexivity.
Qed.

End ScanNeverThrows.

Lemma scan_loop_never_throws {V} (disk : Category -> fs.Disk) (home : string)
    (progressCallback : option (Sink V))
    (fuel : nat) (w : World V) (e : exception) :
  never_throws progressCallback ->
  fst (scanSafariStorage disk home progressCallback fuel w) <> Throw e.
Proof.
  intros Hquiet. unfold scanSafariStorage. unfold bind.
  pose proof (forEach_never_throws
                (scan_category disk home progressCallback fuel) categories
                (fun c w0 e0 =>
                   scan_category_never_throws disk home progressCallback fuel c w0 e0
                     Hquiet)
                (Build_World (stderr w) (Build_ScanFrame initial_results (user w))))
    as Hnt.
  destruct (forEach categories (scan_category disk home progressCallback fuel)
              (Build_World (stderr w) (Build_ScanFrame initial_results (user w))))
    as [[ [] | e' | ] w1]; simpl.
  - discriminate.
  - exfalso. apply (Hnt e'). reflexivity.
  - discriminate.
Qed.

Lemma never_throws_pure {V} (progressCallback : option (ProgressEvent -> V -> V)) :
  never_throws (option_map pure_sink progressCallback).
Proof. destruct progressCallback; simpl; [ reflexivity | exact I ]. Qed.



(** X2.  A sink that neither throws nor writes to the objects it is handed
    does not influence the scan.  With any such sink, and with none, a scan
    returns the same summary and writes the same diagnostics; the sink is
    called with the same events in the same order, those a sink that only
    keeps them receives. *)
Theorem scanSafariStorage_sink_independent {V} (disk : Category -> fs.Disk)
    (home : string) (cb : ProgressEvent -> V -> V)
    (tree : Category -> node) (fuel : nat) (w : World V) :
  scan_ready disk home tree fuel = true ->
  exists res events err,
    scanSafariStorage disk home (Some keep) fuel (Build_World (stderr w) [])
    = (Normal res, Build_World err events) /\
    scanSafariStorage disk home (Some (pure_sink cb)) fuel w
    = (Normal res, Build_World err (fold_left (fun v e => cb e v) events (user w))) /\
    scanSafariStorage disk home None fuel w
    = (Normal res, Build_World err (user w)).
Proof.
  intros Hready.
  exists (scan_results home tree categories initial_results),
         (scan_events home tree categories initial_results),
         (stderr w ++ scan_diagnostics home tree categories).
  split; [ | split ].
  - exact (scanSafariStorage_keep disk home tree fuel (Build_World (stderr w) [])
             Hready).
  - apply (scanSafariStorage_presented disk home (Some cb) tree fuel w Hready).
  - apply (scanSafariStorage_presented disk home None tree fuel w Hready).
Qed.

Lemma scanSafariStorage_sink_independent_witness :
  exists res events err,
    scanSafariStorage home_disk "/h" (Some keep) 3 quiet_world
    = (Normal res, Build_World err events) /\
    scanSafariStorage home_disk "/h" (Some (pure_sink write_progress)) 3
      (Build_World [] [])
    = (Normal res,
       Build_World err (fold_left (fun v e => write_progress e v) events [])) /\
    scanSafariStorage home_disk "/h" None 3 (Build_World [] [])
    = (Normal res, Build_World err (@nil string)).
Proof.
  apply (scanSafariStorage_sink_independent home_disk "/h"
           write_progress home_tree 3 (Build_World [] [])).
  reflexivity.
Defined.



(** X15.  The call of the sink at the start of a category is outside any
    [try] block.  When the sink throws at the first event of a scan, the
    scan ends with what the sink threw: the promise of [scanSafariStorage]
    is rejected before any path is looked at, with any disk and any
    fuel. *)
Theorem scanSafariStorage_start_throw_rejects {V} (disk : Category -> fs.Disk)
    (home : string) (cb : Sink V) (fuel : nat) (w : World V)
    (exn : exception) (h : SinkHeap V) :
  on_event cb
    (Scanning cookies "Scanning Browsing cookies..."
       {| Totals.size := 0; Totals.items := 0 |})
    {| live_total := {| Totals.size := 0; Totals.items := 0 |}; own := user w |}
  = (Some exn, h) ->
  scanSafariStorage disk home (Some cb) fuel w
  = (Throw exn, Build_World (stderr w) (own h)).
Proof.
  intros Hthrow. unfold scanSafariStorage, categories. cbn [forEach].
  unfold bind at 1 2. unfold scan_category at 1. unfold scan_category_start.
  unfold bind at 1 2 3, gets, notify, deliver, heap_of.
  cbn [user results sink Results.total initial_results results_get
       Results.cookies CategoryResult.category fst snd stderr].
  change ("Scanning " +++ "Browsing cookies" +++ "...")
    with "Scanning Browsing cookies...".
  rewrite Hthrow. reflexivity.
Qed.

Lemma scanSafariStorage_start_throw_rejects_witness :
  scanSafariStorage home_disk "/h" (Some throwing_sink) 3 empty_world
  = (Throw (Raised "sink failed"), empty_world).
Proof.
  apply (scanSafariStorage_start_throw_rejects home_disk "/h" throwing_sink 3
           empty_world (Raised "sink failed")
           {| live_total := {| Totals.size := 0; Totals.items := 0 |}; own := tt |}).
  reflexivity.
Defined.

(* ------------------------------------------------------------------ *)
(** * Further properties of [getDirectorySize] *)

Lemma note_all (args log : list Progress.t) :
  fold_left (fun v a => note a v) args log = log ++ args.
Proof.
  revert log. induction args as [ | a args IHargs ]; intros log; simpl.
  - now rewrite app_nil_r.
  - rewrite IHargs. unfold note. now rewrite <- app_assoc.
Qed.

Lemma progress_of_nth (vs : list FileRecord.t) :
  forall s0 c0 j a f,
    nth_error (progress_of s0 c0 vs) j = Some a ->
    nth_error vs j = Some f ->
    Progress.currentFile a = FileRecord.name f /\
    Progress.itemCount a = c0 + N.of_nat (S j) /\
    Progress.totalSize a = fold_left number_add (firstn (S j) (sizes_of vs)) s0 /\
    Progress.inProgress a = true.
Proof.
  induction vs as [ | v vs IHvs ]; intros s0 c0 j a f Ha Hf.
  - destruct j; discriminate.
  - destruct j as [ | j ].
    + cbn [progress_of nth_error] in Ha, Hf.
      injection Ha as Ha. injection Hf as Hf. subst a f.
      cbn [Progress.currentFile Progress.itemCount Progress.totalSize
           Progress.inProgress].
      split; [ reflexivity | ]. split; [ lia | ]. split; reflexivity.
    + cbn [progress_of nth_error] in Ha, Hf.
      destruct (IHvs _ _ _ _ _ Ha Hf) as (Hn & Hi & Hs & Hp).
      rewrite Hn, Hi, Hs, Hp.
      split; [ reflexivity | ]. split; [ lia | ]. split; reflexivity.
Qed.

Lemma number_sum_firstn_exact (xs : list N) (n : nat) :
  sum xs <= two53 -> number_sum (firstn n xs) = sum (firstn n xs).
Proof.
  intros Hb. apply number_sum_exact.
  eapply N.le_trans; [ apply sum_firstn_le | exact Hb ].
Qed.

(** X4.  The callback of [getDirectorySize] is called once for every file
    counted, in the order of the returned [files]: the call for the j-th
    file carries that file's name, the count j and the sizes of the first j
    files added as doubles, their exact sum as long as the sizes of all
    files add up to 2^53 at most; so the last call carries the returned
    [size] and [items].  The returned object is the same without a
    callback and with any callback, whether it returns or throws, and
    every callback that returns receives these same arguments. *)
Theorem getDirectorySize_callback_protocol (disk : fs.Disk)
    (T : node) (p : string) (fuel : nat) (err : list string) :
  presents disk p T = true ->
  (depth T < fuel)%nat ->
  exists r calls err',
    getDirectorySize disk (Some (returning note)) fuel p (Build_World err [])
    = (Normal r, Build_World err' calls) /\
    N.of_nat (List.length calls) = DirectorySize.items r /\
    (forall j a f,
       nth_error calls j = Some a ->
       nth_error (DirectorySize.files r) j = Some f ->
       Progress.currentFile a = FileRecord.name f /\
       Progress.itemCount a = N.of_nat (S j) /\
       Progress.totalSize a
       = number_sum (firstn (S j) (sizes_of (DirectorySize.files r))) /\
       (sum (sizes_of (DirectorySize.files r)) <= two53 ->
        Progress.totalSize a
        = sum (firstn (S j) (sizes_of (DirectorySize.files r))))) /\
    (forall a,
       nth_error calls (Nat.pred (List.length calls)) = Some a ->
       Progress.totalSize a = DirectorySize.size r /\
       Progress.itemCount a = DirectorySize.items r) /\
    getDirectorySize disk None fuel p (Build_World err (@nil Progress.t))
    = (Normal r, Build_World err' []) /\
    (forall (U : Type) (cb : Progress.t -> U -> U) (u : U),
       getDirectorySize disk (Some (returning cb)) fuel p (Build_World err u)
       = (Normal r, Build_World err' (fold_left (fun v a => cb a v) calls u))) /\
    (forall (U : Type) (any : option (Callback U)) (w : World U),
       exists w', getDirectorySize disk any fuel p w = (Normal r, w')).
Proof.
  intros Hp Hd.
  exists (data_of (visited p T)), (progress_of 0 0 (visited p T)),
         (err ++ diagnostics p T).
  assert (Hlen : List.length (progress_of 0 0 (visited p T))
                 = List.length (visited p T)) by apply length_progress_of.
  split.
  { rewrite (getDirectorySize_presented disk (Some note) T p fuel _ Hp Hd).
    unfold user_after. cbn [stderr user]. rewrite note_all. reflexivity. }
  split; [ rewrite Hlen; reflexivity | ].
  split.
  { intros j a f Ha Hf. cbn [data_of DirectorySize.files] in *.
    destruct (progress_of_nth _ _ _ _ _ _ Ha Hf) as (Hn & Hi & Hs & _).
    split; [ exact Hn | ]. split; [ rewrite Hi; lia | ].
    split; [ exact Hs | ].
    intros Hb. rewrite Hs. apply (number_sum_firstn_exact _ _ Hb). }
  split.
  { intros a Ha. cbn [data_of DirectorySize.size DirectorySize.items].
    rewrite Hlen in Ha.
    destruct (nth_error (visited p T) (Nat.pred (List.length (visited p T))))
      as [ f | ] eqn:Hf.
    - destruct (progress_of_nth _ _ _ _ _ _ Ha Hf) as (_ & Hi & Hs & _).
      assert (Hpos : (0 < List.length (visited p T))%nat).
      { destruct (visited p T); [ destruct (Nat.pred _); discriminate | simpl; lia ]. }
      rewrite Hi, Hs.
      replace (S (Nat.pred (List.length (visited p T))))
        with (List.length (visited p T)) by lia.
      rewrite <- (length_map FileRecord.size) at 1.
      fold (sizes_of (visited p T)). rewrite firstn_all.
      split; [ reflexivity | lia ].
    - apply nth_error_None in Hf.
      assert (Hsome : nth_error (progress_of 0 0 (visited p T))
                        (Nat.pred (List.length (visited p T))) <> None)
        by (rewrite Ha; discriminate).
      apply nth_error_Some in Hsome. rewrite Hlen in Hsome. lia. }
  split.
  { rewrite (getDirectorySize_acts_as disk None None T p fuel _ I Hp Hd).
    reflexivity. }
  split.
  { intros U cb u.
    rewrite (getDirectorySize_presented disk (Some cb) T p fuel _ Hp Hd).
    reflexivity. }
  intros U any w. apply (getDirectorySize_any_callback disk any T p fuel w Hp Hd).
Qed.

Lemma getDirectorySize_callback_protocol_witness :
  exists r calls err',
    getDirectorySize (disk_of_table linked_table) (Some (returning note)) 2 "/r"
      (Build_World [] [])
    = (Normal r, Build_World err' calls) /\
    N.of_nat (List.length calls) = DirectorySize.items r.
Proof.
  destruct (getDirectorySize_callback_protocol (disk_of_table linked_table)
              linked_tree "/r" 2 [] eq_refl (Nat.lt_succ_diag_r 1))
    as (r & calls & err' & Hrun & Hlen & _).
  exists r, calls, err'. split; assumption.
Defined.



Lemma sum_sizes_flat_map {A} (g : A -> list FileRecord.t) (l : list A) :
  sum (sizes_of (flat_map g l)) = sum (map (fun x => sum (sizes_of (g x))) l).
Proof.
  induction l as [ | x l IHl ]; [ reflexivity | ].
  cbn [flat_map map]. unfold sizes_of in *. rewrite map_app, sum_app, IHl.
  reflexivity.
Qed.

Lemma length_flat_map_sum {A B} (g : A -> list B) (l : list A) :
  N.of_nat (List.length (flat_map g l))
  = sum (map (fun x => N.of_nat (List.length (g x))) l).
Proof.
  induction l as [ | x l IHl ]; [ reflexivity | ].
  cbn [flat_map map]. rewrite length_app, Nat2N.inj_add, IHl. reflexivity.
Qed.

(** X5.  As long as the sizes of the files below a directory add up to
    2^53 at most, the directory measures as the sum of its entries: the
    call on a directory returns the files of the calls on its entries, in
    listing order, and its size and item count are the sums of theirs. *)
Theorem getDirectorySize_directory_is_sum {U} (disk : fs.Disk)
    (entries : list (string * node)) (p : string) (fuel : nat) (w : World U) :
  presents disk p (Dir entries) = true ->
  (depth (Dir entries) < fuel)%nat ->
  sum (reached_sizes (Dir entries)) <= two53 ->
  exists r rs w',
    getDirectorySize disk None fuel p w = (Normal r, w') /\
    Forall2
      (fun entry rc =>
         fst (getDirectorySize disk None fuel (path.join p (fst entry)) w) = Normal rc)
      entries rs /\
    DirectorySize.files r = flat_map DirectorySize.files rs /\
    DirectorySize.size r = sum (map DirectorySize.size rs) /\
    DirectorySize.items r = sum (map DirectorySize.items rs).
Proof.
  intros Hp Hd Hb.
  exists (data_of (visited p (Dir entries))),
         (map (fun entry => data_of (visited (path.join p (fst entry)) (snd entry)))
            entries).
  eexists. split.
  { apply (getDirectorySize_acts_as disk None None (Dir entries) p fuel w I Hp Hd). }
  assert (Hchildren :
    forallb (fun entry => presents disk (path.join p (fst entry)) (snd entry))
      entries = true).
  { unfold presents in Hp. cbn [presents_as] in Hp.
    apply andb_prop in Hp. destruct Hp as [_ Hall]. exact Hall. }
  assert (Hdepths : Forall (fun entry => (depth (snd entry) < fuel)%nat) entries).
  { destruct fuel as [ | fuel ]; [ lia | ].
    apply depth_entries_lt in Hd.
    eapply Forall_impl; [ | exact Hd ]. intros entry He. simpl in He. lia. }
  split.
  { clear Hp Hd Hb. induction entries as [ | entry entries IHentries ];
      cbn [map]; constructor.
    - cbn [forallb] in Hchildren. apply andb_prop in Hchildren.
      inversion Hdepths; subst.
      rewrite (getDirectorySize_acts_as disk None None (snd entry) _ fuel w I);
        [ reflexivity | tauto | assumption ].
    - cbn [forallb] in Hchildren. apply andb_prop in Hchildren.
      inversion Hdepths; subst. apply IHentries; tauto. }
  rewrite <- (sizes_of_visited (Dir entries) p) in Hb.
  cbn [data_of DirectorySize.files DirectorySize.size DirectorySize.items].
  rewrite !map_map. cbn [data_of DirectorySize.files DirectorySize.size
                           DirectorySize.items].
  split; [ | split ].
  - cbn [visited].
    rewrite flat_map_concat_map, (flat_map_concat_map DirectorySize.files), map_map.
    reflexivity.
  - rewrite (number_sum_exact _ Hb). cbn [visited] in Hb |- *.
    rewrite sum_sizes_flat_map in Hb |- *. f_equal.
    apply map_ext_in. intros entry Hin. symmetry. apply number_sum_exact.
    eapply N.le_trans; [ | exact Hb ].
    apply sum_member_le.
    apply (in_map (fun x => sum (sizes_of (visited (path.join p (fst x)) (snd x))))).
    exact Hin.
  - cbn [visited]. apply length_flat_map_sum.
Qed.

Lemma getDirectorySize_directory_is_sum_witness :
  exists r rs w',
    getDirectorySize (disk_of_table mixed_table) None 2 "/d" empty_world
    = (Normal r, w') /\
    DirectorySize.size r = sum (map DirectorySize.size rs) /\
    List.length rs = 4%nat.
Proof.
  destruct (getDirectorySize_directory_is_sum (disk_of_table mixed_table)
              [("locked", Unreadable fs.EACCES); ("f", File 300);
               ("sock", Special); ("gone", Missing)]
              "/d" 2 empty_world eq_refl (Nat.lt_succ_diag_r 1))
    as (r & rs & w' & Hrun & Hall & _ & Hsize & _).
  { vm_compute. discriminate. }
  exists r, rs, w'. split; [ exact Hrun | ]. split; [ exact Hsize | ].
  apply Forall2_length in Hall. symmetry. exact Hall.
Defined.

Lemma append_assoc (a b c : string) : (a +++ b) +++ c = a +++ (b +++ c).
Proof. induction a as [ | x a IHa ]; simpl; [ reflexivity | now rewrite IHa ]. Qed.

Lemma append_nil_r (a : string) : a +++ EmptyString = a.
Proof. induction a as [ | x a IHa ]; simpl; [ reflexivity | now rewrite IHa ]. Qed.

Lemma basename_from_no_separator (n : string) :
  no_separator n = true ->
  forall acc, path.basename_from acc n = acc +++ n.
Proof.
  induction n as [ | c n IHn ]; intros Hn acc; simpl.
  - now rewrite append_nil_r.
  - simpl in Hn. apply andb_prop in Hn. destruct Hn as [Hc Hn].
    apply negb_true_iff in Hc. rewrite Hc, (IHn Hn), append_assoc. reflexivity.
Qed.

Lemma basename_from_separator (p n : string) :
  forall acc,
    path.basename_from acc (p +++ String "/" n)
    = path.basename_from EmptyString n.
Proof.
  induction p as [ | c p IHp ]; intros acc; simpl.
  - reflexivity.
  - destruct (Ascii.eqb c "/"); apply IHp.
Qed.

(** The name of an entry is what [basename] gives back from the joined
    path. *)
Lemma basename_join (p n : string) :
  entry_name n = true -> path.basename (path.join p n) = n.
Proof.
  intros Hn. unfold entry_name in Hn.
  apply andb_prop in Hn. destruct Hn as [Hn _].
  apply andb_prop in Hn. destruct Hn as [Hn _].
  apply andb_prop in Hn. destruct Hn as [Hn _].
  unfold path.basename, path.join.
  change ("/" +++ n) with (String "/" n).
  rewrite basename_from_separator, (basename_from_no_separator n Hn).
  reflexivity.
Qed.

Lemma names_of_visited (T : node) :
  entry_names T = true ->
  forall p, map FileRecord.name (visited p T) = found_names (path.basename p) T.
Proof.
  induction T as [ | n | entries IHentries | | e | e | target IHtarget ]
    using node_induction; intros Hn p; try reflexivity.
  - cbn [visited found_names entry_names] in *.
    induction IHentries as [ | entry entries IHentry _ IHrest ]; [ reflexivity | ].
    cbn [forallb] in Hn. apply andb_prop in Hn. destruct Hn as [Hentry Hrest].
    apply andb_prop in Hentry. destruct Hentry as [Hname Hsub].
    cbn [flat_map]. rewrite map_app, (IHentry Hsub), (IHrest Hrest).
    rewrite (basename_join p (fst entry) Hname). reflexivity.
  - cbn [visited found_names entry_names] in *. apply IHtarget. exact Hn.
Qed.

(** X6.  Every file is reported under the name of its directory entry: the
    [name] of a record, which is also the [currentFile] of its callback
    call and the text of its progress message, is the last entry name on
    the way to the file (the base name of the root path when the root
    itself is the file), for entry names as a directory listing gives
    them. *)
Theorem getDirectorySize_names_are_entry_names {U} (disk : fs.Disk)
    (callback : option (Callback U))
    (T : node) (p : string) (fuel : nat) (w : World U) :
  presents disk p T = true ->
  (depth T < fuel)%nat ->
  entry_names T = true ->
  exists r w',
    getDirectorySize disk callback fuel p w = (Normal r, w') /\
    map FileRecord.name (DirectorySize.files r) = found_names (path.basename p) T /\
    map Progress.currentFile (progress_of 0 0 (DirectorySize.files r))
    = found_names (path.basename p) T.
Proof.
  intros Hp Hd Hn.
  destruct (getDirectorySize_any_callback disk callback T p fuel w Hp Hd)
    as (w' & Hrun).
  eexists. eexists. split.
  - exact Hrun.
  - clear Hrun. cbn [data_of DirectorySize.files].
    split; [ apply names_of_visited; exact Hn | ].
    rewrite <- (names_of_visited T Hn p).
    generalize 0 at 1. generalize 0.
    induction (visited p T) as [ | v vs IHvs ]; intros s0 c0; [ reflexivity | ].
    cbn [progress_of map Progress.currentFile]. f_equal. apply IHvs.
Qed.

Lemma getDirectorySize_names_are_entry_names_witness :
  exists r w',
    getDirectorySize (disk_of_table linked_table) None 2 "/r" empty_world
    = (Normal r, w') /\
    map FileRecord.name (DirectorySize.files r) = ["a"; "l"].
Proof.
  destruct (getDirectorySize_names_are_entry_names (disk_of_table linked_table)
              None linked_tree "/r" 2 empty_world
              eq_refl (Nat.lt_succ_diag_r 1) eq_refl)
    as (r & w' & Hrun & Hnames & _).
  exists r, w'. split; [ exact Hrun | exact Hnames ].
Defined.

(* ------------------------------------------------------------------ *)
(** * The nested category paths *)

(** Two trees presented at one path are walked alike. *)
Lemma presented_visited_unique (disk : fs.Disk) (p : string) (T1 T2 : node) :
  presents disk p T1 = true -> presents disk p T2 = true ->
  visited p T1 = visited p T2.
Proof.
  intros H1 H2.
  set (fuel := S (Nat.max (depth T1) (depth T2))).
  assert (Hd1 : (depth T1 < fuel)%nat) by (unfold fuel; lia).
  assert (Hd2 : (depth T2 < fuel)%nat) by (unfold fuel; lia).
  pose proof (getDirectorySize_acts_as disk None None T1 p fuel empty_world I H1 Hd1)
    as E1.
  pose proof (getDirectorySize_acts_as disk None None T2 p fuel empty_world I H2 Hd2)
    as E2.
  rewrite E1 in E2.
  assert (Hdata : data_of (visited p T1) = data_of (visited p T2))
    by congruence.
  exact (f_equal DirectorySize.files Hdata).
Qed.

Lemma SAFARI_PATHS_localStorage_nested (home : string) :
  SAFARI_PATHS home localStorage
  = path.join (SAFARI_PATHS home history) "LocalStorage".
Proof.
  unfold SAFARI_PATHS, path.join. rewrite !append_assoc. reflexivity.
Qed.

Lemma SAFARI_PATHS_databases_nested (home : string) :
  SAFARI_PATHS home databases
  = path.join (SAFARI_PATHS home history) "Databases".
Proof.
  unfold SAFARI_PATHS, path.join. rewrite !append_assoc. reflexivity.
Qed.

Lemma two_terms_le_sum {A} (f : A -> N) (l : list A) (x y : A) :
  In x l -> In y l -> x <> y -> f x + f y <= sum (map f l).
Proof.
  assert (Hone : forall l z, In z l -> f z <= sum (map f l)).
  { clear. intros l z. induction l as [ | a l IHl ]; intros Hin; [ contradiction | ].
    unfold sum in *. cbn [map fold_right]. destruct Hin as [Heq | Hin].
    - subst. lia.
    - specialize (IHl Hin). lia. }
  induction l as [ | a l IHl ]; intros Hx Hy Hne; [ contradiction | ].
  unfold sum in *. cbn [map fold_right].
  destruct Hx as [Hx | Hx], Hy as [Hy | Hy].
  - subst. contradiction.
  - subst a. pose proof (Hone l y Hy). unfold sum in *. lia.
  - subst a. pose proof (Hone l x Hx). unfold sum in *. lia.
  - specialize (IHl Hx Hy Hne). lia.
Qed.

(** X7.  The local storage and the database directories lie inside the
    history directory, so their files are counted twice.  When the file
    system is the same at the walks of these three categories and the
    history directory lists both directories, the history category holds at
    least the sizes and items of the other two together, and the total
    counts those files two times.  (Stated for a sink that neither throws
    nor writes to the objects it is handed, and for sums up to 2^53.) *)
Theorem scanSafariStorage_counts_nested_twice {V} (disk : Category -> fs.Disk)
    (home : string) (progressCallback : option (ProgressEvent -> V -> V))
    (tree : Category -> node) (fuel : nat) (w : World V)
    (entries : list (string * node)) (L D : node) :
  scan_ready disk home tree fuel = true ->
  within_two53 tree = true ->
  disk localStorage = disk history ->
  disk databases = disk history ->
  tree history = Dir entries ->
  In ("LocalStorage", L) entries ->
  In ("Databases", D) entries ->
  exists res w',
    scanSafariStorage disk home (option_map pure_sink progressCallback) fuel w
    = (Normal res, w') /\
    CategoryResult.size (Results.localStorage res)
    + CategoryResult.size (Results.databases res)
    <= CategoryResult.size (Results.history res) /\
    CategoryResult.items (Results.localStorage res)
    + CategoryResult.items (Results.databases res)
    <= CategoryResult.items (Results.history res) /\
    2 * (CategoryResult.size (Results.localStorage res)
         + CategoryResult.size (Results.databases res))
    <= Totals.size (Results.total res).
Proof.
  intros Hready Hb Hsame1 Hsame2 Hhist HL HD. eexists. eexists. split.
  { apply (scanSafariStorage_presented disk home progressCallback tree fuel w Hready). }
  destruct (scan_results_exact home tree Hb) as (Hcat & Hsize & _).
  cbv zeta in Hcat, Hsize.
  pose proof (Hcat history) as [Hhs Hhi].
  pose proof (Hcat localStorage) as [Hls Hli].
  pose proof (Hcat databases) as [Hds Hdi].
  cbn [results_get] in Hhs, Hhi, Hls, Hli, Hds, Hdi.
  rewrite Hsize, Hhs, Hhi, Hls, Hli, Hds, Hdi.
  assert (Hpres : forall c, presents (disk c) (SAFARI_PATHS home c) (tree c) = true).
  { intros c. unfold scan_ready in Hready. rewrite forallb_forall in Hready.
    assert (Hin : In c categories) by (destruct c; simpl; tauto).
    specialize (Hready c Hin). apply andb_prop in Hready. tauto. }
  assert (Hentry : forall name child,
            In (name, child) entries ->
            presents (disk history) (path.join (SAFARI_PATHS home history) name) child
            = true).
  { intros name child Hin. pose proof (Hpres history) as Hp.
    rewrite Hhist in Hp. unfold presents in Hp. cbn [presents_as] in Hp.
    apply andb_prop in Hp. destruct Hp as [_ Hall].
    rewrite forallb_forall in Hall. apply (Hall (name, child) Hin). }
  set (g := fun entry : string * node =>
              visited (path.join (SAFARI_PATHS home history) (fst entry)) (snd entry)).
  assert (Hh : category_files home tree history = flat_map g entries).
  { unfold category_files. rewrite Hhist. reflexivity. }
  assert (Hl : category_files home tree localStorage = g ("LocalStorage", L)).
  { unfold category_files, g. cbn [fst snd].
    rewrite SAFARI_PATHS_localStorage_nested.
    apply (presented_visited_unique (disk history)).
    - rewrite <- SAFARI_PATHS_localStorage_nested, <- Hsame1. apply Hpres.
    - apply Hentry. exact HL. }
  assert (Hd : category_files home tree databases = g ("Databases", D)).
  { unfold category_files, g. cbn [fst snd].
    rewrite SAFARI_PATHS_databases_nested.
    apply (presented_visited_unique (disk history)).
    - rewrite <- SAFARI_PATHS_databases_nested, <- Hsame2. apply Hpres.
    - apply Hentry. exact HD. }
  assert (Hfiles : forall c,
            sum (reached_sizes (tree c)) = sum (sizes_of (category_files home tree c)) /\
            List.length (reached_sizes (tree c))
            = List.length (category_files home tree c)).
  { intros c. unfold category_files.
    rewrite sizes_of_visited, length_visited. split; reflexivity. }
  unfold scan_sizes, categories. cbn [flat_map]. rewrite !sum_app, sum_nil.
  rewrite !(proj1 (Hfiles _)), !(proj2 (Hfiles _)).
  rewrite Hh, Hl, Hd.
  assert (Hne : ("LocalStorage", L) <> ("Databases", D)) by discriminate.
  pose proof (two_terms_le_sum (fun entry => sum (sizes_of (g entry))) entries
                _ _ HL HD Hne) as Hsizes.
  pose proof (two_terms_le_sum (fun entry => N.of_nat (List.length (g entry))) entries
                _ _ HL HD Hne) as Hitems.
  rewrite <- sum_sizes_flat_map in Hsizes.
  rewrite <- length_flat_map_sum in Hitems.
  cbv beta in Hsizes, Hitems.
  split; [ exact Hsizes | ]. split; [ exact Hitems | ]. lia.
Qed.

Lemma scanSafariStorage_counts_nested_twice_witness :
  exists res w',
    scanSafariStorage nested_disk "/h" None 3 empty_world
    = (Normal res, w') /\
    CategoryResult.size (Results.localStorage res)
    + CategoryResult.size (Results.databases res)
    <= CategoryResult.size (Results.history res) /\
    CategoryResult.items (Results.localStorage res)
    + CategoryResult.items (Results.databases res)
    <= CategoryResult.items (Results.history res) /\
    2 * (CategoryResult.size (Results.localStorage res)
         + CategoryResult.size (Results.databases res))
    <= Totals.size (Results.total res).
Proof.
  apply (scanSafariStorage_counts_nested_twice nested_disk "/h"
           None nested_tree 3 empty_world
           [("History.db", File 300); ("LocalStorage", Dir [("x", File 50)]);
            ("Databases", Dir [("d1", File 7); ("d2", File 8)])]
           (Dir [("x", File 50)]) (Dir [("d1", File 7); ("d2", File 8)])).
  - reflexivity.
  - reflexivity.
  - reflexivity.
  - reflexivity.
  - reflexivity.
  - simpl. tauto.
  - simpl. tauto.
Defined.

(* ------------------------------------------------------------------ *)
(** * Further properties of [formatBytes] *)

Lemma k_pow_pos (i : N) : 0 < k ^ i.
Proof. apply N.neq_0_lt_0, N.pow_nonzero. discriminate. Qed.

Lemma k_pow_succ (i : N) : k ^ (i + 1) = 1024 * k ^ i.
Proof. rewrite N.add_1_r, N.pow_succ_r'. reflexivity. Qed.

(** The index is the only one that brackets the byte count. *)
Lemma floor_log_k_unique (bytes i : N) :
  k ^ i <= bytes < k ^ (i + 1) -> floor_log_k bytes = i.
Proof.
  intros [Hlo Hhi].
  assert (Hpos : 0 < bytes) by (pose proof (k_pow_pos i); lia).
  destruct (floor_log_k_bounds bytes Hpos) as [Hlo' Hhi'].
  destruct (N.lt_trichotomy (floor_log_k bytes) i) as [Hlt | [Heq | Hgt]].
  - exfalso.
    assert (k ^ (floor_log_k bytes + 1) <= k ^ i)
      by (apply N.pow_le_mono_r; [ discriminate | lia ]).
    lia.
  - exact Heq.
  - exfalso.
    assert (k ^ (i + 1) <= k ^ floor_log_k bytes)
      by (apply N.pow_le_mono_r; [ discriminate | lia ]).
    lia.
Qed.

Lemma formatBytes_positive (bytes : N) :
  0 < bytes ->
  formatBytes bytes =
  number_toString (hundredths bytes (k ^ floor_log_k bytes))
  +++ " " +++ sizes_at (floor_log_k bytes).
Proof.
  intros Hpos. unfold formatBytes.
  destruct (N.eqb_spec bytes 0); [ lia | reflexivity ].
Qed.

(** X8.  A whole number of units prints without a fraction: for m from 1
    to 1023 and i one of the four indices of [sizes], m times 1024^i is
    formatted as m followed by the unit of index i; in particular a count
    below 1024 prints as itself followed by "B". *)
Theorem formatBytes_whole_units (m i : N) :
  1 <= m < 1024 ->
  i < 4 ->
  formatBytes (m * k ^ i) = decimal m +++ " " +++ sizes_at i /\
  nth_error sizes (N.to_nat i) = Some (sizes_at i) /\
  formatBytes m = decimal m +++ " B".
Proof.
  intros Hm Hi.
  assert (Hgen : forall j, formatBytes (m * k ^ j) = decimal m +++ " " +++ sizes_at j).
  { intros j. pose proof (k_pow_pos j) as Hd.
    assert (Hidx : floor_log_k (m * k ^ j) = j).
    { apply floor_log_k_unique. rewrite k_pow_succ. nia. }
    rewrite formatBytes_positive by nia. rewrite Hidx.
    assert (Hh : hundredths (m * k ^ j) (k ^ j) = m * 100).
    { unfold hundredths.
      replace (200 * (m * k ^ j) + k ^ j) with ((200 * m + 1) * k ^ j) by lia.
      rewrite N.Div0.div_mul_cancel_r by lia.
      symmetry. apply (N.div_unique _ _ _ 1); lia. }
    rewrite Hh, number_toString_whole by apply N.Div0.mod_mul.
    rewrite N.div_mul by discriminate. reflexivity. }
  split; [ apply Hgen | ].
  split.
  { unfold sizes_at.
    assert (Hnat : (N.to_nat i < 4)%nat) by lia.
    destruct (N.to_nat i) as [ | [ | [ | [ | ] ] ] ]; simpl; try reflexivity; lia. }
  specialize (Hgen 0). rewrite N.pow_0_r, N.mul_1_r in Hgen. exact Hgen.
Qed.

Lemma formatBytes_whole_units_witness :
  formatBytes (512 * k ^ 2) = "512 MB" /\ formatBytes 512 = "512 B".
Proof.
  destruct (formatBytes_whole_units 512 2) as (H1 & _ & H2).
  - split; [ discriminate | reflexivity ].
  - reflexivity.
  - split; [ exact H1 | exact H2 ].
Defined.

(** X9.  Just below a power of 1024 the value is rounded up to 1024 of the
    smaller unit, not carried to the next unit: for i one of the four
    indices of [sizes], a count in the last 0.005 of the range of unit i
    prints as "1024" followed by that unit. *)
Theorem formatBytes_rounds_up_to_1024 (bytes i : N) :
  i < 4 ->
  k ^ i <= bytes < k ^ (i + 1) ->
  204799 * k ^ i <= 200 * bytes ->
  formatBytes bytes = "1024 " +++ sizes_at i /\
  nth_error sizes (N.to_nat i) = Some (sizes_at i).
Proof.
  intros Hi Hb Hnear. pose proof (k_pow_pos i) as Hd.
  split.
  2:{ unfold sizes_at.
      assert (Hnat : (N.to_nat i < 4)%nat) by lia.
      destruct (N.to_nat i) as [ | [ | [ | [ | ] ] ] ]; simpl; try reflexivity; lia. }
  rewrite formatBytes_positive by lia.
  rewrite (floor_log_k_unique bytes i Hb).
  assert (Hh : hundredths bytes (k ^ i) = 102400).
  { unfold hundredths. symmetry.
    apply (N.div_unique _ _ _ (200 * bytes + k ^ i - 204800 * k ^ i)).
    - rewrite k_pow_succ in Hb. lia.
    - lia. }
  rewrite Hh. reflexivity.
Qed.

Lemma formatBytes_rounds_up_to_1024_witness :
  formatBytes 1048575 = "1024 KB".
Proof.
  apply (formatBytes_rounds_up_to_1024 1048575 1).
  - reflexivity.
  - split; [ discriminate | reflexivity ].
  - discriminate.
Defined.









(* ------------------------------------------------------------------ *)
(** * The console reporter *)

Lemma js_length_append (s t : string) :
  js_length (s +++ t) = (js_length s + js_length t)%nat.
Proof.
  induction s as [ | c s IHs ]; [ reflexivity | ].
  cbn [String.append js_length]. rewrite IHs. lia.
Qed.

Lemma js_length_spaces (n : nat) : js_length (spaces n) = n.
Proof.
  induction n as [ | n IHn ]; [ reflexivity | ].
  cbn [spaces js_length]. rewrite IHn. reflexivity.
Qed.

Lemma js_length_padEnd (s : string) (n : nat) :
  js_length (padEnd s n) = Nat.max n (js_length s).
Proof. unfold padEnd. rewrite js_length_append, js_length_spaces. lia. Qed.

(** For ASCII text the code units are the characters of the string. *)
Lemma js_length_ascii (s : string) :
  (forall c, In c (list_ascii_of_string s) -> (nat_of_ascii c < 128)%nat) ->
  js_length s = String.length s.
Proof.
  induction s as [ | c s IHs ]; intros Hascii; [ reflexivity | ].
  cbn [js_length String.length]. rewrite IHs.
  - unfold code_units. cbv zeta.
    assert (Hc : (nat_of_ascii c < 128)%nat) by (apply Hascii; left; reflexivity).
    apply Nat.ltb_lt in Hc. rewrite Hc. reflexivity.
  - intros c' Hin. apply Hascii. right. exact Hin.
Qed.

Example js_length_samples :
  js_length "Found: History.db" = 17%nat /\
  js_length "é" = 1%nat /\ String.length "é" = 2%nat /\
  js_length "日本" = 2%nat /\ String.length "日本" = 6%nat /\
  js_length "📦" = 2%nat /\ String.length "📦" = 4%nat.
Proof. vm_compute. repeat split. Qed.

Lemma write_progress_all (events : list ProgressEvent) (out : list string) :
  sink_after (Some write_progress) events out =
  out ++ map (fun e => CR +++ padEnd (message_of e) 60) events.
Proof.
  revert out. induction events as [ | e events IHevents ]; intros out; simpl.
  - now rewrite app_nil_r.
  - unfold sink_after in IHevents. rewrite IHevents.
    unfold write_progress, stdout_write. now rewrite <- app_assoc.
Qed.

Lemma run_console_log {A} (line : string)
    (m : JS (World (list string)) A) (err out : list string) :
  (modify (console_log line) ;;; m) (Build_World err out)
  = m (Build_World err (out ++ [line +++ LF])).
Proof. reflexivity. Qed.

Lemma five_then {A} (a b c d e : A) (l r : list A) :
  a :: b :: c :: d :: e :: (l ++ r) = [a; b; c; d; e] ++ l ++ r.
Proof. reflexivity. Qed.

(** X11.  [main] returns the summary of the scan it runs, the one a scan
    with a sink that only keeps the events returns.  On standard output it
    writes five header chunks, then one chunk per event of the scan, in
    order, made of a carriage return and the message padded with spaces to
    60 UTF-16 code units (a longer message is written whole), then nine
    chunks of summary. *)
Theorem main_reports_scan (disk : Category -> fs.Disk) (home : string)
    (tree : Category -> node) (fuel : nat) (w : World (list string)) :
  scan_ready disk home tree fuel = true ->
  exists res events err header footer,
    scanSafariStorage disk home (Some keep) fuel (Build_World (stderr w) [])
    = (Normal res, Build_World err events) /\
    main disk home fuel w
    = (Normal res,
       Build_World err
         (user w ++ header
          ++ map (fun e => CR +++ padEnd (message_of e) 60) events
          ++ footer)) /\
    List.length header = 5%nat /\ List.length footer = 9%nat /\
    (forall e, In e events ->
       js_length (CR +++ padEnd (message_of e) 60)
       = S (Nat.max 60 (js_length (message_of e)))).
Proof.
  intros Hready. destruct w as [err0 out0].
  exists (scan_results home tree categories initial_results),
         (scan_events home tree categories initial_results),
         (err0 ++ scan_diagnostics home tree categories).
  eexists. eexists. split.
  { exact (scanSafariStorage_keep disk home tree fuel (Build_World err0 []) Hready). }
  split.
  { unfold main. rewrite !run_console_log. unfold bind at 1.
    rewrite (scanSafariStorage_presented disk home (Some write_progress) tree fuel _
               Hready).
    cbn [stderr user]. rewrite write_progress_all.
    rewrite !run_console_log. unfold ret.
    f_equal. f_equal.
    match goal with |- _ = ?R => set (rhs := R) end.
    rewrite <- !app_assoc. subst rhs. f_equal. cbn [app].
    apply five_then. }
  split; [ reflexivity | ]. split; [ reflexivity | ].
  intros e _. rewrite js_length_append, js_length_padEnd. reflexivity.
Qed.

Lemma main_reports_scan_witness :
  exists res events err header footer,
    scanSafariStorage home_disk "/h" (Some keep) 3 quiet_world
    = (Normal res, Build_World err events) /\
    main home_disk "/h" 3 (Build_World [] [])
    = (Normal res,
       Build_World err
         (header
          ++ map (fun e => CR +++ padEnd (message_of e) 60) events
          ++ footer)) /\
    List.length header = 5%nat /\ List.length footer = 9%nat.
Proof.
  destruct (main_reports_scan home_disk "/h" home_tree 3
              (Build_World [] []) eq_refl)
    as (res & events & err & header & footer & Hscan & Hmain & Hh & Hf & _).
  exists res, events, err, header, footer. repeat split; assumption.
Defined.

(* ------------------------------------------------------------------ *)
(** * The HTTP reporter *)

Lemma run_modify {St A} (f : St -> St) (m : JS St A) (s : St) :
  (modify f ;;; m) s = m (f s).
Proof. reflexivity. Qed.

Section ServerFacts.

Variable disk : Category -> fs.Disk.
Variable home : string.
Variable JSON_stringify : Payload -> string.
Variable error_message : exception -> string.
Variable res_json : Payload -> Response.t -> Response.t.

Lemma sse_progress_all (events : list ProgressEvent) :
  forall s : ServerState,
    let s' := sink_after (Some (sse_progress JSON_stringify)) events s in
    Response.body (response s')
    = Response.body (response s)
      ++ map (fun e => sse_frame JSON_stringify (progress_payload e)) events /\
    Response.headers (response s') = Response.headers (response s) /\
    Response.statusCode (response s') = Response.statusCode (response s) /\
    Response.ended (response s') = Response.ended (response s) /\
    stdout s' = stdout s.
Proof.
  induction events as [ | e events IHevents ]; intros s; cbn zeta.
  - simpl. rewrite app_nil_r. repeat split.
  - unfold sink_after in *. cbn [fold_left].
    destruct (IHevents (sse_progress JSON_stringify e s)) as (Hb & Hh & Hs & He & Ho).
    cbn zeta in Hb, Hh, Hs, He, Ho. rewrite Hb, Hh, Hs, He, Ho.
    cbn [sse_progress on_response response stdout res_write Response.body
         Response.headers Response.statusCode Response.ended map].
    rewrite <- app_assoc. repeat split.
Qed.

Lemma api_scan_unfold (fuel : nat) (err : list string) (s : ServerState) :
  api_scan disk home JSON_stringify error_message fuel (Build_World err s) =
  match scanSafariStorage disk home (Some (pure_sink (sse_progress JSON_stringify)))
          fuel (Build_World err (streaming s)) with
  | (Normal results, w') =>
      (Normal tt,
       in_world (on_response res_end)
         (in_world (on_response
                      (res_write (sse_frame JSON_stringify
                                    (CompletePayload (format_results results)))))
            w'))
  | (Throw e, w') =>
      (Normal tt,
       in_world (on_response res_end)
         (in_world (on_response
                      (res_write (sse_frame JSON_stringify
                                    (ErrorPayload (error_message e)))))
            w'))
  | (OutOfFuel, w') => (OutOfFuel, w')
  end.
Proof.
  unfold api_scan. rewrite !run_modify. unfold try_catch, bind at 1.
  match goal with
  | |- context [ scanSafariStorage _ _ _ _ ?W ] =>
      change W with (Build_World err (streaming s))
  end.
  destruct (scanSafariStorage disk home (Some (pure_sink (sse_progress JSON_stringify)))
              fuel (Build_World err (streaming s))) as [[ r | e | ] w']; reflexivity.
Qed.

Lemma api_scan_sync_unfold (fuel : nat) (w : World ServerState) :
  api_scan_sync disk home error_message res_json fuel w =
  match scanSafariStorage disk home None fuel w with
  | (Normal results, w') =>
      (Normal tt,
       in_world (on_response (res_json (SyncSuccess (format_results results)))) w')
  | (Throw e, w') =>
      (Normal tt,
       in_world (on_response (res_json (SyncFailure (error_message e))))
         (in_world (on_response (res_status 500)) w'))
  | (OutOfFuel, w') => (OutOfFuel, w')
  end.
Proof.
  unfold api_scan_sync, try_catch, bind at 1.
  destruct (scanSafariStorage disk home None fuel w) as [[ r | e | ] w'];
    reflexivity.
Qed.

End ServerFacts.

Lemma scanning_in_scan_events (home : string) (tree : Category -> node)
    (c : Category) :
  exists cur,
    In (Scanning c
          ("Scanning " +++ CategoryResult.category (results_get initial_results c)
           +++ "...")
          cur)
      (scan_events home tree categories initial_results).
Proof.
  unfold categories. cbn [scan_events]. unfold category_events.
  destruct c; eexists.
  - apply in_or_app. left. left. reflexivity.
  - apply in_or_app. right. apply in_or_app. left. left. reflexivity.
  - do 2 (apply in_or_app; right). apply in_or_app. left. left. reflexivity.
  - do 3 (apply in_or_app; right). apply in_or_app. left. left. reflexivity.
  - do 4 (apply in_or_app; right). apply in_or_app. left. left. reflexivity.
Qed.

Section ServerRuns.

Variable disk : Category -> fs.Disk.
Variable home : string.
Variable JSON_stringify : Payload -> string.
Variable error_message : exception -> string.
Variable res_json : Payload -> Response.t -> Response.t.

(** A run of [/api/scan] that ends is a scan of presented trees followed by
    the frame of the summary. *)
Lemma api_scan_finished (fuel : nat) (err : list string) (s : ServerState)
    (w' : World ServerState) :
  api_scan disk home JSON_stringify error_message fuel (Build_World err s)
  = (Normal tt, w') ->
  exists tree,
    scan_ready disk home tree fuel = true /\
    w' = in_world (on_response res_end)
           (in_world
              (on_response
                 (res_write
                    (sse_frame JSON_stringify
                       (CompletePayload
                          (format_results
                             (scan_results home tree categories initial_results))))))
              (Build_World (err ++ scan_diagnostics home tree categories)
                 (sink_after (Some (sse_progress JSON_stringify))
                    (scan_events home tree categories initial_results)
                    (streaming s)))).
Proof.
  rewrite api_scan_unfold. intros Hrun.
  destruct (scanSafariStorage disk home (Some (pure_sink (sse_progress JSON_stringify)))
              fuel (Build_World err (streaming s))) as [[ res | e | ] ws] eqn:Hscan.
  - destruct (finished_scan_ready disk home _ fuel _ _ _ Hscan) as [tree Hready].
    exists tree. split; [ exact Hready | ].
    pose proof (scanSafariStorage_presented disk home
                  (Some (sse_progress JSON_stringify)) tree fuel
                  (Build_World err (streaming s)) Hready) as Hclosed.
    cbn [option_map] in Hclosed. rewrite Hclosed in Hscan.
    apply normal_pair_inv in Hscan. destruct Hscan as [Hres Hws].
    apply normal_pair_inv in Hrun. destruct Hrun as [_ Hw'].
    subst res ws w'. reflexivity.
  - exfalso.
    apply (scan_loop_never_throws disk home
             (Some (pure_sink (sse_progress JSON_stringify))) fuel
             (Build_World err (streaming s)) e
             (never_throws_pure (Some (sse_progress JSON_stringify)))).
    rewrite Hscan. reflexivity.
  - discriminate.
Qed.

Lemma api_scan_sync_finished (fuel : nat) (w w' : World ServerState) :
  api_scan_sync disk home error_message res_json fuel w = (Normal tt, w') ->
  exists tree,
    scan_ready disk home tree fuel = true /\
    w' = in_world
           (on_response
              (res_json
                 (SyncSuccess
                    (format_results
                       (scan_results home tree categories initial_results)))))
           (Build_World (stderr w ++ scan_diagnostics home tree categories) (user w)).
Proof.
  rewrite api_scan_sync_unfold. intros Hrun.
  destruct (scanSafariStorage disk home None fuel w) as [[ res | e | ] ws] eqn:Hscan.
  - destruct (finished_scan_ready disk home _ fuel _ _ _ Hscan) as [tree Hready].
    exists tree. split; [ exact Hready | ].
    pose proof (scanSafariStorage_presented disk home None tree fuel w Hready)
      as Hclosed.
    cbn [option_map] in Hclosed. rewrite Hclosed in Hscan.
    apply normal_pair_inv in Hscan. destruct Hscan as [Hres Hws].
    apply normal_pair_inv in Hrun. destruct Hrun as [_ Hw'].
    subst res ws w'. reflexivity.
  - exfalso.
    apply (scan_loop_never_throws disk home (@None (Sink ServerState)) fuel w e I).
    rewrite Hscan. reflexivity.
  - discriminate.
Qed.

End ServerRuns.

Lemma streaming_fields (s : ServerState) :
  Response.body (response (streaming s)) = Response.body (response s) /\
  Response.statusCode (response (streaming s)) = Response.statusCode (response s) /\
  Response.ended (response (streaming s)) = Response.ended (response s) /\
  stdout (streaming s) = stdout s ++ ["Starting Safari scan..." +++ LF] /\
  exists kept,
    Response.headers (response (streaming s))
    = kept ++ [("Content-Type", "text/event-stream");
               ("Cache-Control", "no-cache");
               ("Connection", "keep-alive")].
Proof.
  split; [ reflexivity | ]. split; [ reflexivity | ].
  split; [ reflexivity | ]. split; [ reflexivity | ].
  unfold streaming, server_log, on_response, flushHeaders, setHeader.
  cbn [response Response.headers].
  rewrite !filter_app. cbn [filter fst negb String.eqb Ascii.eqb Bool.eqb app].
  rewrite <- !app_assoc. cbn [app]. eexists. reflexivity.
Qed.

(** X12.  Every run of [/api/scan] that ends has written, after the frames
    already in the response, one frame per event of the scan in order and
    then the frame of the summary, and has ended the response; it has set
    the three streaming headers and has not touched the status.  There is
    no error frame: the [catch] branch is never taken on account of the
    file system. *)
Theorem api_scan_stream (disk : Category -> fs.Disk) (home : string)
    (JSON_stringify : Payload -> string) (error_message : exception -> string)
    (fuel : nat) (err : list string) (s : ServerState) (w' : World ServerState) :
  api_scan disk home JSON_stringify error_message fuel (Build_World err s)
  = (Normal tt, w') ->
  exists res events,
    scanSafariStorage disk home (Some keep) fuel (Build_World err [])
    = (Normal res, Build_World (stderr w') events) /\
    Response.body (response (user w'))
    = Response.body (response s)
      ++ map (fun e => sse_frame JSON_stringify (progress_payload e)) events
      ++ [sse_frame JSON_stringify (CompletePayload (format_results res))] /\
    Response.ended (response (user w')) = true /\
    Response.statusCode (response (user w')) = Response.statusCode (response s) /\
    stdout (user w') = stdout s ++ ["Starting Safari scan..." +++ LF] /\
    exists kept,
      Response.headers (response (user w'))
      = kept ++ [("Content-Type", "text/event-stream");
                 ("Cache-Control", "no-cache");
                 ("Connection", "keep-alive")].
Proof.
  intros Hrun.
  destruct (api_scan_finished disk home JSON_stringify error_message fuel err s w'
              Hrun) as (tree & Hready & Hw').
  exists (scan_results home tree categories initial_results),
         (scan_events home tree categories initial_results).
  destruct (sse_progress_all JSON_stringify
              (scan_events home tree categories initial_results) (streaming s))
    as (Hb & Hh & Hs & He & Ho).
  cbv zeta in Hb, Hh, Hs, He, Ho.
  destruct (streaming_fields s) as (Sb & Ss & Se & So & kept & Sh).
  subst w'.
  cbn [in_world on_response res_end res_write stderr user response stdout
       Response.body Response.ended Response.statusCode Response.headers].
  split.
  { exact (scanSafariStorage_keep disk home tree fuel (Build_World err []) Hready). }
  split; [ rewrite Hb, Sb, <- app_assoc; reflexivity | ].
  split; [ reflexivity | ].
  split; [ rewrite Hs, Ss; reflexivity | ].
  split; [ rewrite Ho, So; reflexivity | ].
  exists kept. rewrite Hh, Sh. reflexivity.
Qed.

Lemma api_scan_stream_witness :
  exists res events,
    scanSafariStorage home_disk "/h" (Some keep) 3 quiet_world
    = (Normal res, Build_World
                     ["Cannot access: /h/Library/Caches/com.apple.Safari"] events) /\
    Response.body
      (response (user (snd (api_scan home_disk "/h"
                              sample_stringify sample_error_message 3 idle_server))))
    = map (fun e => sse_frame sample_stringify (progress_payload e)) events
      ++ [sse_frame sample_stringify (CompletePayload (format_results res))].
Proof.
  assert (Hrun :
    api_scan home_disk "/h" sample_stringify sample_error_message
      3 idle_server
    = (Normal tt,
       snd (api_scan home_disk "/h" sample_stringify
              sample_error_message 3 idle_server)))
    by (vm_compute; reflexivity).
  destruct (api_scan_stream home_disk "/h" sample_stringify
              sample_error_message 3 [] _ _ Hrun)
    as (res & events & Hscan & Hbody & _).
  exists res, events. split; [ | exact Hbody ].
  unfold quiet_world. rewrite Hscan.
  f_equal; f_equal; try (vm_compute; reflexivity).
Defined.

(** X13.  In the stream of [/api/scan] the frame that opens a category
    always reports size 0, items 0 and "0 B", whatever has been counted
    before it: the handler reads [progress.total], which a category-start
    event does not have.  The frame of a per-file event reports the grand
    total of the event and its formatted size. *)
Theorem api_scan_start_frames_report_zero (disk : Category -> fs.Disk)
    (home : string)
    (JSON_stringify : Payload -> string) (error_message : exception -> string)
    (fuel : nat) (err : list string) (s : ServerState) (w' : World ServerState) :
  api_scan disk home JSON_stringify error_message fuel (Build_World err s)
  = (Normal tt, w') ->
  (forall c,
     In (sse_frame JSON_stringify
           (ProgressPayload (category_key c)
              ("Scanning " +++ CategoryResult.category (results_get initial_results c)
               +++ "...")
              0 0 "0 B"))
       (Response.body (response (user w')))) /\
  exists res events,
    scanSafariStorage disk home (Some keep) fuel (Build_World err [])
    = (Normal res, Build_World (stderr w') events) /\
    (forall c m cur,
       In (Scanning c m cur) events ->
       In (sse_frame JSON_stringify (ProgressPayload (category_key c) m 0 0 "0 B"))
         (Response.body (response (user w')))) /\
    (forall c m n i tot,
       In (Found c m n i tot) events ->
       In (sse_frame JSON_stringify
             (ProgressPayload (category_key c) m (Totals.size tot) (Totals.items tot)
                (formatBytes (Totals.size tot))))
         (Response.body (response (user w')))).
Proof.
  intros Hrun.
  destruct (api_scan_finished disk home JSON_stringify error_message fuel err s w'
              Hrun) as (tree & Hready & Hw').
  destruct (sse_progress_all JSON_stringify
              (scan_events home tree categories initial_results) (streaming s))
    as (Hb & _).
  cbv zeta in Hb.
  assert (Hframes : forall e,
            In e (scan_events home tree categories initial_results) ->
            In (sse_frame JSON_stringify (progress_payload e))
              (Response.body (response (user w')))).
  { intros e Hin. subst w'.
    cbn [in_world on_response res_end res_write stderr user response
         Response.body].
    rewrite Hb. apply in_or_app. left. apply in_or_app. right.
    apply in_map_iff. exists e. split; [ reflexivity | exact Hin ]. }
  split.
  { intros c. destruct (scanning_in_scan_events home tree c) as [cur Hin].
    apply (Hframes _ Hin). }
  exists (scan_results home tree categories initial_results),
         (scan_events home tree categories initial_results).
  split.
  { subst w'. cbn [in_world stderr user].
    exact (scanSafariStorage_keep disk home tree fuel (Build_World err []) Hready). }
  split.
  - intros c m cur Hin. apply (Hframes _ Hin).
  - intros c m n i tot Hin. apply (Hframes _ Hin).
Qed.

Lemma api_scan_start_frames_report_zero_witness :
  In (Scanning cache "Scanning Browser cache..."
        {| Totals.size := 300; Totals.items := 2 |})
    (scan_events "/h" home_tree categories initial_results) /\
  In (sse_frame sample_stringify
        (ProgressPayload "cache" "Scanning Browser cache..." 0 0 "0 B"))
    (Response.body
       (response (user (snd (api_scan home_disk "/h"
                               sample_stringify sample_error_message 3
                               idle_server))))).
Proof.
  split; [ vm_compute; tauto | ].
  assert (Hrun :
    api_scan home_disk "/h" sample_stringify sample_error_message
      3 idle_server
    = (Normal tt,
       snd (api_scan home_disk "/h" sample_stringify
              sample_error_message 3 idle_server)))
    by (vm_compute; reflexivity).
  destruct (api_scan_start_frames_report_zero home_disk "/h"
              sample_stringify sample_error_message 3 [] _ _ Hrun)
    as (Hstart & _).
  apply (Hstart cache).
Defined.

(** X14.  Every run of [/api/scan-sync] that ends has called [res.json]
    once, on the response as the handler found it, with [success: true] and
    the formatted summary of the scan; [res.status(500)] is not called on
    account of the file system, and nothing is logged.  The summary is the
    one the last frame of [/api/scan] carries for the same file system. *)
Theorem api_scan_sync_reports_success (disk : Category -> fs.Disk) (home : string)
    (JSON_stringify : Payload -> string) (error_message : exception -> string)
    (res_json : Payload -> Response.t -> Response.t)
    (fuel : nat) (err : list string) (s : ServerState) (w1 : World ServerState) :
  api_scan_sync disk home error_message res_json fuel (Build_World err s)
  = (Normal tt, w1) ->
  exists res,
    scanSafariStorage disk home None fuel (Build_World err s)
    = (Normal res, Build_World (stderr w1) s) /\
    response (user w1) = res_json (SyncSuccess (format_results res)) (response s) /\
    stdout (user w1) = stdout s /\
    (forall w2,
       api_scan disk home JSON_stringify error_message fuel (Build_World err s)
       = (Normal tt, w2) ->
       exists frames,
         Response.body (response (user w2))
         = Response.body (response s) ++ frames
           ++ [sse_frame JSON_stringify (CompletePayload (format_results res))]).
Proof.
  intros Hrun.
  destruct (api_scan_sync_finished disk home error_message res_json fuel _ w1
              Hrun) as (tree & Hready & Hw1).
  exists (scan_results home tree categories initial_results).
  subst w1.
  cbn [in_world on_response stderr user response stdout].
  split.
  { exact (scanSafariStorage_presented disk home None tree fuel (Build_World err s)
             Hready). }
  split; [ reflexivity | ]. split; [ reflexivity | ].
  intros w2 Hrun2.
  destruct (api_scan_finished disk home JSON_stringify error_message fuel err s w2
              Hrun2) as (tree2 & Hready2 & Hw2).
  assert (Hsame : scan_results home tree2 categories initial_results
                  = scan_results home tree categories initial_results).
  { pose proof (scanSafariStorage_presented disk home
                  (@None (ProgressEvent -> unit -> unit)) tree fuel
                  empty_world Hready) as E1.
    pose proof (scanSafariStorage_presented disk home
                  (@None (ProgressEvent -> unit -> unit)) tree2 fuel
                  empty_world Hready2) as E2.
    rewrite E1 in E2. symmetry. exact (f_equal (fun r => match fst r with
                                                         | Normal x => x
                                                         | _ => initial_results
                                                         end) E2). }
  destruct (sse_progress_all JSON_stringify
              (scan_events home tree2 categories initial_results) (streaming s))
    as (Hb & _).
  cbv zeta in Hb.
  destruct (streaming_fields s) as (Sb & _).
  exists (map (fun e => sse_frame JSON_stringify (progress_payload e))
            (scan_events home tree2 categories initial_results)).
  subst w2.
  cbn [in_world on_response res_end res_write stderr user response Response.body].
  rewrite Hb, Sb, Hsame, <- app_assoc. reflexivity.
Qed.

Lemma api_scan_sync_reports_success_witness :
  exists res,
    scanSafariStorage home_disk "/h" None 3 idle_server
    = (Normal res,
       Build_World ["Cannot access: /h/Library/Caches/com.apple.Safari"]
         (user idle_server)) /\
    response (user (snd (api_scan_sync home_disk "/h" sample_error_message
                           sample_res_json 3 idle_server)))
    = sample_res_json (SyncSuccess (format_results res)) idle_response.
Proof.
  assert (Hrun :
    api_scan_sync home_disk "/h" sample_error_message sample_res_json 3 idle_server
    = (Normal tt,
       snd (api_scan_sync home_disk "/h" sample_error_message sample_res_json 3
              idle_server)))
    by (vm_compute; reflexivity).
  destruct (api_scan_sync_reports_success home_disk "/h"
              sample_stringify sample_error_message sample_res_json 3 [] _ _ Hrun)
    as (res & Hscan & Hbody & _).
  exists res. split; [ | exact Hbody ].
  unfold idle_server in *. rewrite Hscan.
  f_equal; f_equal; try (vm_compute; reflexivity).
Defined.
